(** * Napcat / OneBot v11 channel plugin: a shallow embedding and its properties

    The development follows the source units of the plugin.

    Definitions:
    - [Js]: the fragment of JavaScript values and string operations the
      plugin relies on (UTF-16 strings, parsed JSON, [String], [trim], the
      anchored regular expressions that occur in the source);
    - [Codec] and [Access]: the pure helpers of the channel module
      ([parseOneBotMessage], [isLikelyMediaRef], [normalizeAllowEntry],
      [isSenderAllowed], ...);
    - [Conn]: the connection object made by [createOneBotConnection], as a
      state machine over its closure variables, driven by socket events,
      timers, calls of [sendAction] and [stop], and promise continuations;
    - [Pipeline]: [sendNapcatText], [sendNapcatMedia] and
      [handlePrivateMessage] in a trace-and-error monad over the host
      capabilities;
    - [Plugin]: helpers of the plugin object ([looksLikeId],
      [formatAllowFrom]);
    - [Accounts]: the account resolution of [types.ts];
    - [ConnInv], [Trace]: the vocabulary of the invariants;
    - [Examples]: concrete inputs.

    Properties: [JsFacts], [CodecFacts], [AccessFacts], [PipelineFacts],
    [ConnFacts]; then [LifecycleFacts], [TrimFacts], [SegmentFacts],
    [TargetFacts], [TraceFacts], [OutboundFacts], [AccountsFacts].

    Numbers of the source that only count ([echoCounter],
    [reconnectAttempts], timer handles, lengths) are naturals here; the
    doubles of the source agree with them below 2^53. *)

From Stdlib Require Import String Ascii NArith ZArith Lia.
From Stdlib Require Import DecimalString DecimalN.
From stdpp Require Import base option list gmap.

Set Warnings "-register-all".
Local Open Scope N_scope.

(** ** JavaScript values *)
Module Js.

(** A JavaScript string is a sequence of UTF-16 code units. *)
Definition jstring := list N.

(** Source literals are ASCII; [lit] gives their code units. *)
Definition lit (s : string) : jstring := N_of_ascii <$> list_ascii_of_string s.

Definition jeqb (a b : jstring) : bool := bool_decide (a = b).

(** [WhiteSpace] and [LineTerminator] of ECMAScript, what [trim] removes. *)
Definition is_ws (c : N) : bool :=
  (c =? 9) || (c =? 10) || (c =? 11) || (c =? 12) || (c =? 13) || (c =? 32)
  || (c =? 160) || (c =? 5760) || ((8192 <=? c) && (c <=? 8202))
  || (c =? 8232) || (c =? 8233) || (c =? 8239) || (c =? 8287)
  || (c =? 12288) || (c =? 65279).

Fixpoint trimStart (s : jstring) : jstring :=
  match s with
  | c :: r => if is_ws c then trimStart r else s
  | [] => []
  end.

Definition trimEnd (s : jstring) : jstring := rev (trimStart (rev s)).

(** [String.prototype.trim] *)
Definition trim (s : jstring) : jstring := trimEnd (trimStart s).

(** Case folding of the [i] flag without the [u] flag: only the ASCII
    letters fold onto ASCII letters. *)
Definition fold_case (c : N) : N :=
  if (65 <=? c) && (c <=? 90) then c + 32 else c.

(** [matches_ci p s = Some rest]: the literal [p] matches a prefix of [s]
    up to ASCII case, and [rest] follows it. *)
Fixpoint matches_ci (p s : jstring) : option jstring :=
  match p, s with
  | [], _ => Some s
  | a :: p', b :: s' => if fold_case a =? fold_case b then matches_ci p' s' else None
  | _ :: _, [] => None
  end.

(** [String.prototype.startsWith] *)
Fixpoint startsWith (s p : jstring) : bool :=
  match p, s with
  | [], _ => true
  | a :: p', b :: s' => (a =? b) && startsWith s' p'
  | _ :: _, [] => false
  end.

Definition is_ascii_letter (c : N) : bool :=
  ((65 <=? c) && (c <=? 90)) || ((97 <=? c) && (c <=? 122)).

(** Values produced by [JSON.parse].  A number is identified by the text
    [Number::toString] gives it, which is all the plugin observes of a
    number on the paths modelled here ([typeof], [String(...)]). *)
Inductive json :=
| JNull
| JBool (b : bool)
| JNum (repr : jstring)
| JStr (s : jstring)
| JArr (items : list json)
| JObj (fields : list (jstring * json)).

(** Own property [k] of an object, first binding. *)
Fixpoint assoc {A} (k : jstring) (l : list (jstring * A)) : option A :=
  match l with
  | [] => None
  | (k', v) :: r => if jeqb k k' then Some v else assoc k r
  end.

(** [v?.k] and [v.k] for the property names the plugin reads: none of them
    is a property of strings, numbers, booleans or arrays, so only objects
    answer.  [None] stands for [undefined]. *)
Definition prop (k : string) (v : option json) : option json :=
  match v with
  | Some (JObj fs) => assoc (lit k) fs
  | _ => None
  end.

(** ["k" in v] for a value [v] that is an object or an array. *)
Definition has_key (k : string) (v : json) : bool :=
  match v with
  | JObj fs => bool_decide (is_Some (assoc (lit k) fs))
  | _ => false
  end.

(** [a ?? b] *)
Definition nullish (a : option json) (b : option json) : option json :=
  match a with
  | None | Some JNull => b
  | _ => a
  end.

(** [typeof v === "string"] *)
Definition as_string (v : option json) : option jstring :=
  match v with Some (JStr s) => Some s | _ => None end.

(** [typeof v === "object"] with [v] truthy. *)
Definition is_object (v : json) : bool :=
  match v with JArr _ | JObj _ => true | _ => false end.

Fixpoint join (sep : jstring) (parts : list jstring) : jstring :=
  match parts with
  | [] => []
  | [p] => p
  | p :: r => p ++ sep ++ join sep r
  end.

(** [String(v)], for values none of whose objects has an own property
    [toString]: parsed JSON holds no function, so [String] of such an
    object throws instead of answering. *)
Fixpoint String_ (v : json) : jstring :=
  match v with
  | JNull => lit "null"
  | JBool true => lit "true"
  | JBool false => lit "false"
  | JNum r => r
  | JStr s => s
  | JArr l =>
      join (lit ",")
        ((fix go (l : list json) : list jstring :=
            match l with
            | [] => []
            | JNull :: r => [] :: go r
            | x :: r => String_ x :: go r
            end) l)
  | JObj _ => lit "[object Object]"
  end.

(** [String(n)] for a counter [n]. *)
Definition String_N (n : N) : jstring :=
  lit (NilEmpty.string_of_uint (N.to_uint n)).

End Js.

(** ** Message codec (inbound) *)
Module Codec.
Import Js.

(** [/^(https?|file|base64):/i.test(s)] *)
Definition re_media_scheme (s : jstring) : bool :=
  match matches_ci (lit "http") s with
  | Some r =>
      match matches_ci (lit "s") r with
      | Some r' => bool_decide (is_Some (matches_ci (lit ":") r'))
                   || bool_decide (is_Some (matches_ci (lit ":") r))
      | None => bool_decide (is_Some (matches_ci (lit ":") r))
      end
  | None => false
  end
  || bool_decide (is_Some (matches_ci (lit "file:") s))
  || bool_decide (is_Some (matches_ci (lit "base64:") s)).

(** [/^[A-Za-z]:[\\/]/.test(s)] *)
Definition re_drive_path (s : jstring) : bool :=
  match s with
  | c1 :: c2 :: c3 :: _ =>
      is_ascii_letter c1 && (c2 =? 58) && ((c3 =? 92) || (c3 =? 47))
  | _ => false
  end.

Definition isLikelyMediaRef (value : jstring) : bool :=
  let trimmed := trim value in
  if bool_decide (trimmed = []) then false
  else if re_media_scheme trimmed then true
  else if startsWith trimmed (lit "/") then true
  else if re_drive_path trimmed then true
  else false.

(** The three arrays [parseOneBotMessage] fills. *)
Record parts := mkParts {
  textParts : list jstring;
  mediaUrls : list jstring;
  mediaTypes : list jstring
}.

Record parsedMessage := mkParsed {
  text : jstring;
  pm_mediaUrls : list jstring;
  pm_mediaTypes : list jstring
}.

(** [v === "k"] *)
Definition is_str (v : option json) (k : string) : bool :=
  match v with
  | Some (JStr s) => jeqb s (lit k)
  | _ => false
  end.

(** One iteration of the loop over the segments. *)
Definition segment_step (acc : parts) (segment : json) : parts :=
  let typed := Some segment in
  let type := prop "type" typed in
  if is_str type "text" then
    match as_string (prop "text" (prop "data" typed)) with
    | Some t => mkParts (textParts acc ++ [t]) (mediaUrls acc) (mediaTypes acc)
    | None => acc
    end
  else if is_str type "image" || is_str type "record" || is_str type "video" then
    let url :=
      nullish (nullish (prop "url" (prop "data" typed))
                       (prop "file" (prop "data" typed)))
              (Some (JStr [])) in
    match as_string url with
    | Some u =>
        if isLikelyMediaRef u then
          mkParts (textParts acc) (mediaUrls acc ++ [u])
            (mediaTypes acc ++
               [if is_str type "record" then lit "audio"
                else if is_str type "video" then lit "video"
                else lit "image"])
        else acc
    | None => acc
    end
  else acc.

Definition parseOneBotMessage (message : option json) : parsedMessage :=
  let acc :=
    match message with
    | Some (JStr s) => mkParts [s] [] []
    | Some (JArr segments) => fold_left segment_step segments (mkParts [] [] [])
    | _ => mkParts [] [] []
    end in
  mkParsed (join [] (textParts acc)) (mediaUrls acc) (mediaTypes acc).

(** *** The codec as the specification words it *)

(** "matches a URL scheme": the schemes the plugin knows, then a colon. *)
Definition has_url_scheme (r : jstring) : bool :=
  bool_decide (is_Some (matches_ci (lit "http:") r))
  || bool_decide (is_Some (matches_ci (lit "https:") r))
  || bool_decide (is_Some (matches_ci (lit "file:") r)).

(** "an absolute filesystem path": POSIX root or a drive letter. *)
Definition is_absolute_path (r : jstring) : bool :=
  match r with
  | [] => false
  | c :: r' =>
      (c =? 47)
      || (is_ascii_letter c &&
          match r' with
          | colon :: sep :: _ => (colon =? 58) && ((sep =? 92) || (sep =? 47))
          | _ => false
          end)
  end.

(** "a base64: pseudo-scheme" *)
Definition has_base64_scheme (r : jstring) : bool :=
  bool_decide (is_Some (matches_ci (lit "base64:") r)).

Definition looks_like_reference (r : jstring) : bool :=
  let t := trim r in
  has_url_scheme t || is_absolute_path t || has_base64_scheme t.

(** The text a segment contributes. *)
Definition segment_text (segment : json) : jstring :=
  match segment with
  | JObj fs =>
      match assoc (lit "type") fs, assoc (lit "data") fs with
      | Some (JStr ty), Some (JObj d) =>
          if jeqb ty (lit "text") then
            match assoc (lit "text") d with Some (JStr t) => t | _ => [] end
          else []
      | _, _ => []
      end
  | _ => []
  end.

(** The media kind of a segment type. *)
Definition media_kind (ty : jstring) : option jstring :=
  if jeqb ty (lit "image") then Some (lit "image")
  else if jeqb ty (lit "record") then Some (lit "audio")
  else if jeqb ty (lit "video") then Some (lit "video")
  else None.

(** The [url] field or, absent that (missing or null), the [file] field. *)
Definition reference_field (d : list (jstring * json)) : option json :=
  match assoc (lit "url") d with
  | None | Some JNull => assoc (lit "file") d
  | Some v => Some v
  end.

(** The media reference a segment contributes, if any. *)
Definition segment_media (segment : json) : option (jstring * jstring) :=
  match segment with
  | JObj fs =>
      match assoc (lit "type") fs, assoc (lit "data") fs with
      | Some (JStr ty), Some (JObj d) =>
          match media_kind ty, reference_field d with
          | Some kind, Some (JStr r) =>
              if looks_like_reference r then Some (r, kind) else None
          | _, _ => None
          end
      | _, _ => None
      end
  | _ => None
  end.

End Codec.

(** ** Allow-list helpers *)
Module Access.
Import Js.

(** [value.replace(/^(qq|user):/i, "")] *)
Definition strip_peer_prefix (value : jstring) : jstring :=
  match matches_ci (lit "qq:") value with
  | Some r => r
  | None =>
      match matches_ci (lit "user:") value with
      | Some r => r
      | None => value
      end
  end.

Definition normalizeAllowEntry (entry : json) : jstring :=
  let value :=
    trim (String_ (default (JStr []) (nullish (Some entry) (Some (JStr []))))) in
  if bool_decide (value = []) then []
  else if jeqb value (lit "*") then lit "*"
  else strip_peer_prefix value.

(** [Array.from(new Set(l))]: first occurrences, in order. *)
Fixpoint set_from (seen l : list jstring) : list jstring :=
  match l with
  | [] => seen
  | x :: r =>
      if bool_decide (x ∈ seen) then set_from seen r else set_from (seen ++ [x]) r
  end.

Definition normalizeAllowList (entries : list json) : list jstring :=
  set_from []
    (filter (fun s : jstring => s ≠ []) (normalizeAllowEntry <$> entries)).

(** [Array.prototype.includes] on strings. *)
Definition includes (l : list jstring) (x : jstring) : bool := bool_decide (x ∈ l).

Definition isSenderAllowed (senderId : jstring) (allowFrom : list jstring) : bool :=
  let normalized := normalizeAllowEntry (JStr senderId) in
  if includes allowFrom (lit "*") then true
  else includes allowFrom normalized.

(** [Array.from(new Set([...configAllowFrom, ...storedAllowFrom]))] of
    [handlePrivateMessage]. *)
Definition effectiveAllowFrom (config stored : list json) : list jstring :=
  set_from [] (normalizeAllowList config ++ normalizeAllowList stored).

End Access.

(** ** The connection of [createOneBotConnection]

    The closure variables form the state; every handler is a function on
    it that also lists what it does to the outside (socket, timers,
    promises, callbacks of the embedder).  Suspended code is resumed by
    inputs of its own: a timer that fires, the continuation of
    [sendAction] after the promise it awaits settled, the end of a
    [fetch].  The callbacks of the embedder are taken not to throw. *)
Module Conn.
Import Js.

Inductive readyState := CONNECTING | OPEN | CLOSING | CLOSED.

(** A value of the [pending] map.  [waiter] names the promise whose
    [resolve] and [reject] the entry holds; [timeout] is the timer handle. *)
Record pendingEntry := mkEntry { waiter : N; timeout : N }.

(** The two closures the connection hands to [setTimeout]. *)
Inductive timerCallback :=
| RequestTimeout (echo : jstring) (waiter : N) (action : jstring)
| Connect.

Inductive settlement :=
| Fulfilled (value : json)
| Rejected (reason : jstring).

(** Where an invocation of [sendAction] is suspended. *)
Inductive callState :=
| AwaitWs (action : jstring) (params : option json)
| WsThrew (action : jstring) (params : option json) (err : jstring)
| AwaitFetch (action : jstring).

(** How [fetch] and [response.json()] end. *)
Inductive fetchResult :=
| FetchRejected (err : jstring)
| FetchNotOk (status : jstring)
| FetchJson (body : json).

Inductive output :=
| ENewWebSocket (url : jstring)
| EWsSend (action : jstring) (params : option json) (echo : jstring)
| EWsClose
| ESetTimeout (handle : N) (cb : timerCallback) (delay : N)
| EClearTimeout (handle : N)
| EResolve (waiter : N) (value : json)
| EReject (waiter : N) (reason : jstring)
| EOnEvent (payload : json)
| EOnConnected
| EOnDisconnected
| EOnError
| ELogWarn (message : jstring)
| EFetch (call : N) (url : jstring) (params : option json)
| EReturn (call : N) (response : json)
| EThrow (call : N) (err : jstring).

(** What the outside world does to the connection. *)
Inductive input :=
| InOpen
| InClosing
| InClose (onDisconnected_calls_stop : bool)
| InError
| InMessage (frame : option json)
| InTimer (handle : N)
| InSendAction (action : jstring) (params : option json) (send_throws : option jstring)
| InMicrotask (call : N)
| InFetchDone (call : N) (result : fetchResult)
| InStop.

Record options := mkOptions {
  wsUrl : jstring;
  httpUrl : option jstring;
  accessToken : option jstring
}.

(** The closure variables of [createOneBotConnection], and the part of the
    run-time the closures touch: live timers, settled promises, suspended
    [sendAction] invocations. *)
Record state := mkState {
  pending : list (jstring * pendingEntry);
  ws : option readyState;
  stopped : bool;
  echoCounter : N;
  reconnectAttempts : N;
  timers : gmap N timerCallback;
  nextTimer : N;
  promises : gmap N settlement;
  calls : gmap N callState;
  nextCall : N
}.

Definition REQUEST_TIMEOUT_MS : N := 10000.
Definition RECONNECT_BASE_MS : N := 1000.
Definition RECONNECT_MAX_MS : N := 15000.

(** *** [Map] operations, insertion order kept *)
Fixpoint Map_set {A} (k : jstring) (v : A) (m : list (jstring * A)) : list (jstring * A) :=
  match m with
  | [] => [(k, v)]
  | (k', v') :: r => if jeqb k k' then (k, v) :: r else (k', v') :: Map_set k v r
  end.

Fixpoint Map_delete {A} (k : jstring) (m : list (jstring * A)) : list (jstring * A) :=
  match m with
  | [] => []
  | (k', v') :: r => if jeqb k k' then Map_delete k r else (k', v') :: Map_delete k r
  end.

(** *** Field updates *)
Definition with_pending p c :=
  mkState p (ws c) (stopped c) (echoCounter c) (reconnectAttempts c)
          (timers c) (nextTimer c) (promises c) (calls c) (nextCall c).
Definition with_ws w c :=
  mkState (pending c) w (stopped c) (echoCounter c) (reconnectAttempts c)
          (timers c) (nextTimer c) (promises c) (calls c) (nextCall c).
Definition with_stopped b c :=
  mkState (pending c) (ws c) b (echoCounter c) (reconnectAttempts c)
          (timers c) (nextTimer c) (promises c) (calls c) (nextCall c).
Definition with_echoCounter n c :=
  mkState (pending c) (ws c) (stopped c) n (reconnectAttempts c)
          (timers c) (nextTimer c) (promises c) (calls c) (nextCall c).
Definition with_reconnectAttempts n c :=
  mkState (pending c) (ws c) (stopped c) (echoCounter c) n
          (timers c) (nextTimer c) (promises c) (calls c) (nextCall c).
Definition with_timers t n c :=
  mkState (pending c) (ws c) (stopped c) (echoCounter c) (reconnectAttempts c)
          t n (promises c) (calls c) (nextCall c).
Definition with_promises p c :=
  mkState (pending c) (ws c) (stopped c) (echoCounter c) (reconnectAttempts c)
          (timers c) (nextTimer c) p (calls c) (nextCall c).
Definition with_calls k n c :=
  mkState (pending c) (ws c) (stopped c) (echoCounter c) (reconnectAttempts c)
          (timers c) (nextTimer c) (promises c) k n.

(** *** Handlers as state transformers that log their effects *)
Definition handler := state -> state * list output.

Definition skip : handler := fun c => (c, []).
Definition out (e : output) : handler := fun c => (c, [e]).
Definition modify (f : state -> state) : handler := fun c => (f c, []).
Definition seq (a b : handler) : handler :=
  fun c => let '(c1, e1) := a c in let '(c2, e2) := b c1 in (c2, e1 ++ e2).
Definition reading (f : state -> handler) : handler := fun c => f c c.

Notation "a >> b" := (seq a b) (at level 60, right associativity).

(** [for (const x of l) body(x)] *)
Definition for_of {A} (l : list A) (body : A -> handler) : handler :=
  fold_right (fun x k => body x >> k) skip l.

(** [if (o) ...] for an optional string: [undefined] and [""] are falsy. *)
Definition truthy (o : option jstring) : bool :=
  match o with Some (_ :: _) => true | _ => false end.

Definition setTimeout (cb : timerCallback) (delay : N) : handler :=
  reading (fun c =>
    let h := nextTimer c in
    modify (with_timers (<[h := cb]> (timers c)) (N.succ h)) >> out (ESetTimeout h cb delay)).

Definition clearTimeout (h : N) : handler :=
  reading (fun c => modify (with_timers (delete h (timers c)) (nextTimer c)))
  >> out (EClearTimeout h).

(** Settling a promise a second time changes nothing. *)
Definition settle_in (p : N) (s : settlement) (pm : gmap N settlement) : gmap N settlement :=
  match pm !! p with
  | Some _ => pm
  | None => <[p := s]> pm
  end.

Definition settle (p : N) (s : settlement) : handler :=
  modify (fun c => with_promises (settle_in p s (promises c)) c).

Definition resolve (p : N) (v : json) : handler := settle p (Fulfilled v) >> out (EResolve p v).
Definition reject (p : N) (reason : jstring) : handler :=
  settle p (Rejected reason) >> out (EReject p reason).

Definition pending_delete (echo : jstring) : handler :=
  modify (fun c => with_pending (Map_delete echo (pending c)) c).

Definition isConnected (c : state) : bool :=
  match ws c with Some OPEN => true | _ => false end.

Definition cleanupPending (reason : string) : handler :=
  reading (fun c =>
    for_of (pending c) (fun '(echo, entry) =>
      clearTimeout (timeout entry) >> reject (waiter entry) (lit reason) >> pending_delete echo)).

Definition isEventPayload (payload : json) : bool :=
  is_object payload && has_key "post_type" payload.

Definition timeout_error (action : jstring) : jstring := lit "OneBot request timeout: " ++ action.
Definition http_error (action status : jstring) : jstring :=
  lit "OneBot HTTP error (" ++ action ++ lit "): " ++ status.
Definition fallback_warning (action : jstring) : jstring :=
  lit "napcat: ws send failed (" ++ action ++ lit "), falling back to HTTP".

(** [String(payload.echo ?? "")] *)
Definition echo_of (payload : json) : jstring :=
  String_ (default (JStr []) (nullish (prop "echo" (Some payload)) (Some (JStr [])))).

Definition reconnect_delay (attempts : N) : N :=
  N.min (RECONNECT_BASE_MS * 2 ^ attempts) RECONNECT_MAX_MS.

Section Connection.

(** [appendAccessToken] and [buildHttpUrl] are computed with the platform's
    [URL] class; [buildHttpUrl] throws where [new URL(base)] does. *)
Variable appendAccessToken : jstring -> option jstring -> jstring.
Variable buildHttpUrl : jstring -> jstring -> option jstring -> jstring + jstring.
Variable opts : options.

Definition connect : handler :=
  reading (fun c =>
    if stopped c then skip
    else
      let url := appendAccessToken (wsUrl opts) (accessToken opts) in
      modify (with_ws (Some CONNECTING)) >> out (ENewWebSocket url)).

(** [ws.on("open", ...)]; the socket is [OPEN] when the handler runs. *)
Definition on_open : handler :=
  modify (fun c => with_ws (match ws c with Some _ => Some OPEN | None => None end) c)
  >> modify (with_reconnectAttempts 0)
  >> out EOnConnected.

(** [ws.on("message", ...)]; [frame] is what [JSON.parse] gives, [None]
    when it throws (the warning then also quotes the error, left out
    here). *)
Definition on_message (frame : option json) : handler :=
  match frame with
  | None => out (ELogWarn (lit "napcat: failed to parse websocket payload"))
  | Some payload =>
      if isEventPayload payload then out (EOnEvent payload)
      else if is_object payload && has_key "echo" payload then
        let echo := echo_of payload in
        reading (fun c =>
          match assoc echo (pending c) with
          | None => skip
          | Some pendingEntry =>
              clearTimeout (timeout pendingEntry)
              >> pending_delete echo
              >> resolve (waiter pendingEntry) payload
          end)
      else skip
  end.

Definition on_error : handler := out EOnError.

Definition stop : handler :=
  modify (with_stopped true)
  >> cleanupPending "WebSocket stopped"
  >> reading (fun c => match ws c with Some _ => out EWsClose | None => skip end)
  >> modify (with_ws None).

(** [ws.on("close", ...)]; the flag says whether the [onDisconnected]
    callback of the embedder calls [stop()] of this connection. *)
Definition on_close (onDisconnected_calls_stop : bool) : handler :=
  modify (with_ws None)
  >> out EOnDisconnected
  >> (if onDisconnected_calls_stop then stop else skip)
  >> cleanupPending "WebSocket closed"
  >> reading (fun c =>
       if stopped c then skip
       else
         let delay := reconnect_delay (reconnectAttempts c) in
         modify (with_reconnectAttempts (reconnectAttempts c + 1))
         >> setTimeout Connect delay).

(** The readyState moves to [CLOSING] before the close event is emitted. *)
Definition on_closing : handler :=
  modify (fun c => with_ws (match ws c with Some _ => Some CLOSING | None => None end) c).

Definition on_timer (h : N) : handler :=
  reading (fun c =>
    match timers c !! h with
    | None => skip
    | Some cb =>
        modify (with_timers (delete h (timers c)) (nextTimer c))
        >> match cb with
           | RequestTimeout echo w action =>
               pending_delete echo >> reject w (timeout_error action)
           | Connect => connect
           end
    end).

Definition set_call (call : N) (st : callState) : handler :=
  modify (fun c => with_calls (<[call := st]> (calls c)) (nextCall c) c).
Definition end_call (call : N) : handler :=
  modify (fun c => with_calls (delete call (calls c)) (nextCall c) c).
Definition fail_call (call : N) (err : jstring) : handler := end_call call >> out (EThrow call err).
Definition fulfil (call : N) (resp : json) : handler := end_call call >> out (EReturn call resp).

(** [sendActionHttp] up to its [await fetch(...)]. *)
Definition sendActionHttp (call : N) (action : jstring) (params : option json) : handler :=
  if negb (truthy (httpUrl opts)) then fail_call call (lit "HTTP fallback not configured")
  else
    match buildHttpUrl (default [] (httpUrl opts)) action (accessToken opts) with
    | inr err => fail_call call err
    | inl url => out (EFetch call url params) >> set_call call (AwaitFetch action)
    end.

(** [sendActionHttp] from [await fetch(...)] on. *)
Definition on_fetch_done (call : N) (r : fetchResult) : handler :=
  reading (fun c =>
    match calls c !! call with
    | Some (AwaitFetch action) =>
        match r with
        | FetchRejected err => fail_call call err
        | FetchNotOk status => fail_call call (http_error action status)
        | FetchJson body => fulfil call body
        end
    | _ => skip
    end).

(** [sendActionWs]: it ends suspended on its [result] promise, or has
    thrown. *)
Definition sendActionWs (call : N) (action : jstring) (params : option json)
    (send_throws : option jstring) : handler :=
  reading (fun c =>
    if negb (isConnected c) then
      set_call call (WsThrew action params (lit "WebSocket not connected"))
    else
      let echo := String_N (echoCounter c + 1) in
      modify (with_echoCounter (echoCounter c + 1))
      >> reading (fun c1 =>
           let h := nextTimer c1 in
           setTimeout (RequestTimeout echo call action) REQUEST_TIMEOUT_MS
           >> modify (fun c2 => with_pending (Map_set echo (mkEntry call h) (pending c2)) c2))
      >> match send_throws with
         | Some err => set_call call (WsThrew action params err)
         | None => out (EWsSend action params echo) >> set_call call (AwaitWs action params)
         end).

(** The [catch] block of [sendAction]. *)
Definition sendAction_catch (call : N) (action : jstring) (params : option json)
    (err : jstring) : handler :=
  out (ELogWarn (fallback_warning action))
  >> if truthy (httpUrl opts) then sendActionHttp call action params
     else fail_call call err.

(** [sendAction] up to its first suspension. *)
Definition sendAction (action : jstring) (params : option json)
    (send_throws : option jstring) : handler :=
  reading (fun c =>
    let call := nextCall c in
    modify (with_calls (calls c) (N.succ call))
    >> if isConnected c then sendActionWs call action params send_throws
       else sendActionHttp call action params).

(** [sendAction] resumed after the promise it awaits inside [try] settled. *)
Definition sendAction_resume (call : N) : handler :=
  reading (fun c =>
    match calls c !! call with
    | Some (AwaitWs action params) =>
        match promises c !! call with
        | Some (Fulfilled v) => fulfil call v
        | Some (Rejected err) => sendAction_catch call action params err
        | None => skip
        end
    | Some (WsThrew action params err) => sendAction_catch call action params err
    | _ => skip
    end).

Definition step (i : input) : handler :=
  match i with
  | InOpen => on_open
  | InClosing => on_closing
  | InClose b => on_close b
  | InError => on_error
  | InMessage frame => on_message frame
  | InTimer h => on_timer h
  | InSendAction a p t => sendAction a p t
  | InMicrotask call => sendAction_resume call
  | InFetchDone call r => on_fetch_done call r
  | InStop => stop
  end.

Definition run (ins : list input) : handler := for_of ins step.

(** The closure variables as declared, before [connect()] runs. *)
Definition fresh : state := mkState [] None false 0 0 ∅ 0 ∅ ∅ 0.

(** [createOneBotConnection(opts)] *)
Definition createOneBotConnection : state * list output := connect fresh.

(** A state the connection can be in: some inputs after its creation. *)
Definition reachable (c : state) : Prop :=
  exists ins, c = fst (run ins (fst createOneBotConnection)).

End Connection.

(** *** Vocabulary of the statements *)

(** What [cleanupPending] does for the entries it visits. *)
Definition cleanup_effects (reason : string) (entries : list (jstring * pendingEntry))
    : list output :=
  flat_map (fun kv => [EClearTimeout (timeout (snd kv)); EReject (waiter (snd kv)) (lit reason)])
           entries.

Definition clear_all (entries : list (jstring * pendingEntry)) (tm : gmap N timerCallback)
    : gmap N timerCallback :=
  fold_left (fun m kv => delete (timeout (snd kv)) m) entries tm.

Definition reject_all (reason : string) (entries : list (jstring * pendingEntry))
    (pm : gmap N settlement) : gmap N settlement :=
  fold_left (fun m kv => settle_in (waiter (snd kv)) (Rejected (lit reason)) m) entries pm.

Definition delete_all (entries p : list (jstring * pendingEntry))
    : list (jstring * pendingEntry) :=
  fold_left (fun p kv => Map_delete (fst kv) p) entries p.

(** The state after [cleanupPending] went over the whole map. *)
Definition cleaned (reason : string) (c : state) : state :=
  mkState [] (ws c) (stopped c) (echoCounter c) (reconnectAttempts c)
          (clear_all (pending c) (timers c)) (nextTimer c)
          (reject_all reason (pending c) (promises c)) (calls c) (nextCall c).

(** The state after the request [echo] left the map: its timer is gone
    and its promise is settled with [s]. *)
Definition request_done (echo : jstring) (entry : pendingEntry) (s : settlement)
    (c : state) : state :=
  mkState (Map_delete echo (pending c)) (ws c) (stopped c) (echoCounter c)
          (reconnectAttempts c) (delete (timeout entry) (timers c)) (nextTimer c)
          (settle_in (waiter entry) s (promises c)) (calls c) (nextCall c).

(** The state after the close handler scheduled a reconnection. *)
Definition scheduled (c : state) : state :=
  mkState (pending c) (ws c) (stopped c) (echoCounter c) (reconnectAttempts c + 1)
          (<[nextTimer c := Connect]> (timers c)) (N.succ (nextTimer c))
          (promises c) (calls c) (nextCall c).

(** The state after [sendActionWs] registered a request and suspended. *)
Definition registered (action : jstring) (st : callState) (c : state) : state :=
  let echo := String_N (echoCounter c + 1) in
  mkState (Map_set echo (mkEntry (nextCall c) (nextTimer c)) (pending c)) (ws c) (stopped c)
          (echoCounter c + 1) (reconnectAttempts c)
          (<[nextTimer c := RequestTimeout echo (nextCall c) action]> (timers c))
          (N.succ (nextTimer c)) (promises c)
          (<[nextCall c := st]> (calls c)) (N.succ (nextCall c)).

(** [resolve] or [reject] of the promise [w] is called. *)
Definition is_settle (w : N) (e : output) : bool :=
  match e with
  | EResolve w' _ | EReject w' _ => N.eqb w w'
  | _ => false
  end.

(** How many times the promise [w] is settled in a trace. *)
Definition settlements (w : N) (es : list output) : nat :=
  length (List.filter (is_settle w) es).

(** The state [stop()] leaves: nothing is pending, no request timer is
    live. *)
Definition torn_down (c : state) : Prop :=
  stopped c = true
  /\ ws c = None
  /\ pending c = []
  /\ forall h echo w a, timers c !! h <> Some (RequestTimeout echo w a).

(** Outputs that make, use or close a socket, set or clear a timer, or
    settle a request. *)
Definition touches_socket (e : output) : bool :=
  match e with
  | ENewWebSocket _ | EWsSend _ _ _ | EWsClose | ESetTimeout _ _ _ | EClearTimeout _
  | EResolve _ _ | EReject _ _ => true
  | _ => false
  end.

Definition idle (es : list output) : bool := forallb (fun e => negb (touches_socket e)) es.

(** Inputs other than a successful open, a stop, and a closure whose
    callback stops the connection. *)
Definition keeps_running (i : input) : bool :=
  match i with
  | InOpen | InStop | InClose true => false
  | _ => true
  end.

Definition closures (ins : list input) : nat :=
  length (List.filter (fun i => match i with InClose _ => true | _ => false end) ins).

Definition no_settle (es : list output) : bool :=
  forallb (fun e => match e with EResolve _ _ | EReject _ _ => false | _ => true end) es.

(** [c'] differs from [c] in nothing the invariant depends on, except that
    request timers may be gone and counters may have grown. *)
Definition frame (c c' : state) : Prop :=
  pending c' = pending c
  /\ promises c' = promises c
  /\ (forall h echo w a,
        timers c' !! h = Some (RequestTimeout echo w a) ->
        timers c !! h = Some (RequestTimeout echo w a))
  /\ echoCounter c <= echoCounter c'
  /\ nextCall c <= nextCall c'.

(** The invariant of the [pending] map, the timers and the promises. *)
Definition wf (c : state) : Prop :=
  NoDup (fst <$> pending c)
  /\ NoDup ((fun kv => waiter (snd kv)) <$> pending c)
  /\ (forall echo entry,
        (echo, entry) ∈ pending c ->
        promises c !! waiter entry = None
        /\ waiter entry < nextCall c
        /\ exists k, echo = String_N k /\ k <= echoCounter c)
  /\ (forall h echo w a,
        timers c !! h = Some (RequestTimeout echo w a) -> (echo, mkEntry w h) ∈ pending c)
  /\ (forall w s, promises c !! w = Some s -> w < nextCall c).

(** The four ways a handler can change what the invariant depends on. *)
Inductive step_shape (c : state) : state * list output -> Prop :=
| shape_frame c' es :
    frame c c' -> no_settle es = true -> step_shape c (c', es)
| shape_done echo entry s es :
    (wf c -> (echo, entry) ∈ pending c) ->
    (forall w, settlements w es = if N.eqb w (waiter entry) then 1%nat else 0%nat) ->
    step_shape c (request_done echo entry s c, es)
| shape_registered action st es :
    no_settle es = true -> step_shape c (registered action st c, es)
| shape_cleanup reason c0 c' pre post :
    frame c c0 -> frame (cleaned reason c0) c' ->
    no_settle pre = true -> no_settle post = true ->
    step_shape c (c', pre ++ cleanup_effects reason (pending c) ++ post).

End Conn.

(** ** Outbound sends and the inbound pipeline

    The asynchronous functions of the channel module run in a monad that
    extends a trace of calls to the host and returns or throws.  Among
    the host capabilities, the gateway and the allow-list store may fail;
    the others are taken to answer. *)
Module Pipeline.
Import Js Codec Access.

(** [Throw err]: an exception; [err] is what [String] gives for the value
    thrown, the name of the error class included. *)
Inductive result (A : Type) :=
| Ok (a : A)
| Throw (err : jstring).
Arguments Ok {A} a.
Arguments Throw {A} err.

(** [String(new Error(message))] *)
Definition Error (message : jstring) : jstring := lit "Error: " ++ message.

(** [String(err)] for the [TypeError] that reading the property [k] of
    [null] raises, as Node.js words it. *)
Definition null_property_error (k : string) : jstring :=
  lit "TypeError: Cannot read properties of null (reading '" ++ lit k ++ lit "')".

Inductive effect :=
| EDetectMime (filePath : jstring)
| ESendAction (accountId : option jstring) (action : jstring) (params : json)
| ELogInfo (message : jstring)
| ELogWarn (message : jstring)
| EReadAllowFromStore
| EUpsertPairingRequest (id name : jstring)
| ELastOutboundAt
| ELastInboundAt
| ERecordInboundSession (sessionKey : jstring)
| EDispatch (senderId body commandBody : jstring) (commandAuthorized : bool)
            (mediaUrls mediaTypes : list jstring)
| EMarkDispatchIdle.

(** An asynchronous function of the channel module: it reads the trace of
    what happened so far, extends it, and returns or throws. *)
Definition M (A : Type) := list effect -> result A * list effect.

Definition ret {A} (a : A) : M A := fun t => (Ok a, t).
Definition throw {A} (err : jstring) : M A := fun t => (Throw err, t).
Definition bind {A B} (m : M A) (k : A -> M B) : M B :=
  fun t => match m t with
           | (Ok a, t1) => k a t1
           | (Throw e, t1) => (Throw e, t1)
           end.
Definition emit (e : effect) : M unit := fun t => (Ok tt, t ++ [e]).
Definition history : M (list effect) := fun t => (Ok t, t).
(** [try { m } catch (err) { h(err) }] *)
Definition catch {A} (m : M A) (h : jstring -> M A) : M A :=
  fun t => match m t with
           | (Ok a, t1) => (Ok a, t1)
           | (Throw e, t1) => h e t1
           end.

Notation "x <- m ;; k" := (bind m (fun x => k))
  (at level 100, m at next level, right associativity).
Notation "m ;; k" := (bind m (fun _ => k)) (at level 100, right associativity).

(** [for (const x of l) await body(x)] *)
Fixpoint for_each {A} (l : list A) (body : A -> M unit) : M unit :=
  match l with
  | [] => ret tt
  | x :: r => body x ;; for_each r body
  end.

Record route := mkRoute {
  r_accountId : option jstring;
  r_sessionKey : jstring
}.

Record replyPayload := mkPayload {
  p_text : option jstring;
  p_mediaUrl : option jstring;
  p_mediaUrls : option (list jstring)
}.

(** What the channel module asks of the host run-time and of the platform.
    Capabilities whose answer may change between calls read the trace. *)
Record Host := mkHost {
  (** [Number.parseInt(s, 10)] when finite, as the text of the number *)
  parseInt10 : jstring -> option jstring;
  (** [Date.now()], as text *)
  now : list effect -> jstring;
  detectMime : jstring -> option jstring;
  mediaKindFromMime : option jstring -> option jstring;
  (** how the gateway answers the action sent by [sendOneBotAction] *)
  gateway : list effect -> jstring -> json -> result json;
  readAllowFromStore : list effect -> result (list json);
  upsertPairingRequest : list effect -> jstring -> jstring * bool;
  buildPairingReply : jstring -> jstring -> jstring;
  resolveAgentRoute : option jstring -> jstring -> route;
  resolveTextChunkLimit : N -> N;
  chunkTextWithMode : jstring -> N -> list jstring;
  convertMarkdownTables : jstring -> jstring;
  stripMarkdown : jstring -> jstring;
  (** the reply payloads the dispatcher hands to [deliver], with their kind *)
  replies : jstring -> jstring -> list (jstring * replyPayload)
}.

Definition DEFAULT_TEXT_LIMIT : N := 2000.

Definition normalizeTarget (raw : jstring) : jstring := strip_peer_prefix (trim raw).
Definition formatTarget (id : jstring) : jstring := lit "qq:" ++ id.

(** [s.includes(sub)] *)
Fixpoint str_includes (s sub : jstring) : bool :=
  startsWith s sub ||
  match s with
  | [] => false
  | _ :: r => str_includes r sub
  end.

(** [s.replace(/<[^>]+>/g, "")].  [go s] pairs the result for [s] with the
    result for what follows the first [>] of [s], when there is one. *)
Fixpoint strip_tags_go (s : jstring) : jstring * option jstring :=
  match s with
  | [] => ([], None)
  | c :: r =>
      let '(sr, ar) := strip_tags_go r in
      let after := if c =? 62 then Some sr else ar in
      let kept := c :: sr in
      (if c =? 60 then
         match r with
         | [] => kept
         | d :: _ => if d =? 62 then kept else default kept ar
         end
       else kept,
       after)
  end.

Definition strip_tags (s : jstring) : jstring := fst (strip_tags_go s).

Definition describeMediaSummary (mediaTypes : list jstring) : jstring :=
  match mediaTypes with
  | [] => []
  | _ =>
      match set_from [] mediaTypes with
      | [typeLabel] =>
          if (N.of_nat (length mediaTypes) =? 1)
          then lit "sent a " ++ typeLabel ++ lit " attachment"
          else lit "sent " ++ String_N (N.of_nat (length mediaTypes)) ++ lit " "
               ++ typeLabel ++ lit " attachments"
      | _ => lit "sent media attachments"
      end
  end.

Definition buildTextSegment (text : jstring) : json :=
  JObj [(lit "type", JStr (lit "text")); (lit "data", JObj [(lit "text", JStr text)])].

Definition buildMediaSegment (type file : jstring) : json :=
  JObj [(lit "type", JStr type); (lit "data", JObj [(lit "file", JStr file)])].

Record sent := mkSent { messageId : jstring; chatId : jstring }.

Section WithHost.
Variable H : Host.

Definition parseUserId (target : jstring) : M jstring :=
  match parseInt10 H (normalizeTarget target) with
  | Some n => ret n
  | None => throw (Error (lit "Invalid QQ target: " ++ target))
  end.

Definition resolveMediaSegmentType (mediaUrl : jstring) : M (option jstring) :=
  if bool_decide (is_Some (matches_ci (lit "base64://") mediaUrl)) then ret (Some (lit "image"))
  else
    emit (EDetectMime mediaUrl) ;;
    let mime := detectMime H mediaUrl in
    let kind := mediaKindFromMime H mime in
    if bool_decide (kind = Some (lit "image")) then ret (Some (lit "image"))
    else if bool_decide (kind = Some (lit "audio")) then ret (Some (lit "record"))
    else if bool_decide (kind = Some (lit "video")) then ret (Some (lit "video"))
    else ret None.

(** [sendOneBotAction]: the action leaves through the live connection of
    the account or through HTTP; the channel module sees a response or an
    exception. *)
Definition sendOneBotAction (accountId : option jstring) (action : jstring)
    (params : json) : M json :=
  t <- history ;;
  emit (ESendAction accountId action params) ;;
  match gateway H t action params with
  | Ok r => ret r
  | Throw e => throw e
  end.

Definition resolveMessageId (response : json) : M jstring :=
  match prop "message_id" (prop "data" (Some response)) with
  | Some (JNum n) => ret n
  | Some (JStr s) => ret s
  | _ => t <- history ;; ret (now H t)
  end.

Definition send_failed (response : json) : jstring :=
  Error (lit "Napcat send failed (retcode "
         ++ match prop "retcode" (Some response) with
            | Some v => String_ v
            | None => lit "undefined"
            end
         ++ lit ")").

Definition send_private_msg (accountId : option jstring) (userId : jstring)
    (message : list json) : M sent :=
  response <- sendOneBotAction accountId (lit "send_private_msg")
                (JObj [(lit "user_id", JNum userId); (lit "message", JArr message)]) ;;
  match response with
  | JNull => throw (null_property_error "status")
  | _ =>
      if is_str (prop "status" (Some response)) "failed" then throw (send_failed response)
      else
        id <- resolveMessageId response ;;
        ret (mkSent id userId)
  end.

Definition sendNapcatText (accountId : option jstring) (to text : jstring) : M sent :=
  userId <- parseUserId to ;;
  send_private_msg accountId userId [buildTextSegment text].

Definition sendNapcatMedia (accountId : option jstring) (to text mediaUrl : jstring) : M sent :=
  mediaType <- resolveMediaSegmentType mediaUrl ;;
  match mediaType with
  | None =>
      let fallback :=
        match text with
        | [] => mediaUrl
        | _ => text ++ lit (String (ascii_of_nat 10) EmptyString) ++ mediaUrl
        end in
      sendNapcatText accountId to fallback
  | Some mediaType =>
      userId <- parseUserId to ;;
      let segments :=
        (match text with [] => [] | _ => [buildTextSegment text] end)
        ++ [buildMediaSegment mediaType mediaUrl] in
      send_private_msg accountId userId segments
  end.

(** The fields of the resolved account that the inbound pipeline reads. *)
Record account := mkAccount {
  accountId : jstring;
  dmPolicy : option jstring;
  allowFrom : option (list json);
  textChunkLimit : option N
}.

Definition sanitizeNapcatText (text : jstring) : jstring :=
  match text with
  | [] => []
  | _ => strip_tags (stripMarkdown H (convertMarkdownTables H text))
  end.

(** [payload.mediaUrls ?? (payload.mediaUrl ? [payload.mediaUrl] : [])] *)
Definition payload_mediaUrls (payload : replyPayload) : list jstring :=
  match p_mediaUrls payload with
  | Some l => l
  | None => match p_mediaUrl payload with
            | Some (c :: u) => [c :: u]
            | _ => []
            end
  end.

Section Reply.
(** The variables the closures of [handlePrivateMessage] capture. *)
Variable route_accountId : option jstring.
Variable to : jstring.
Variable textLimit : N.

Definition sendTextChunks (text : jstring) : M unit :=
  let chunks := chunkTextWithMode H text textLimit in
  let candidates := match chunks with [] => [text] | _ => chunks end in
  for_each candidates (fun chunk =>
    match chunk with
    | [] => ret tt
    | _ =>
        sendNapcatText route_accountId to (sanitizeNapcatText chunk) ;;
        emit ELastOutboundAt
    end).

(** The loop over [mediaUrls], with its flag [first]. *)
Fixpoint media_loop (caption : jstring) (first : bool) (mediaUrls : list jstring) : M unit :=
  match mediaUrls with
  | [] => ret tt
  | mediaUrl :: r =>
      sendNapcatMedia route_accountId to (if first then caption else []) mediaUrl ;;
      emit ELastOutboundAt ;;
      media_loop caption false r
  end.

(** One iteration of that loop: the media send and the status update. *)
Definition send_media (caption mediaUrl : jstring) : M unit :=
  sendNapcatMedia route_accountId to caption mediaUrl ;; emit ELastOutboundAt.

Definition deliver (payload : replyPayload) : M unit :=
  let mediaUrls := payload_mediaUrls payload in
  let text := sanitizeNapcatText (default [] (p_text payload)) in
  match mediaUrls with
  | [] => sendTextChunks text
  | _ =>
      if negb (bool_decide (text = [])) && (textLimit <? N.of_nat (length text))
      then sendTextChunks text ;; media_loop [] true mediaUrls
      else media_loop text true mediaUrls
  end.

End Reply.

(** [typeof v === "number" || typeof v === "string" ? String(v) : null] *)
Definition id_string (v : option json) : option jstring :=
  match v with
  | Some (JNum n) => Some n
  | Some (JStr s) => Some s
  | _ => None
  end.

(** [a || b] on strings *)
Definition or_else (a b : jstring) : jstring :=
  match a with [] => b | _ => a end.

Definition log_inbound_media (senderId rawMessage : jstring) (parsed : parsedMessage) : M unit :=
  match pm_mediaUrls parsed with
  | _ :: _ =>
      emit (ELogInfo (lit "napcat inbound media: sender=" ++ senderId ++ lit " types="
                      ++ or_else (join (lit ",") (pm_mediaTypes parsed)) (lit "unknown")
                      ++ lit " urls=" ++ join (lit ",") (pm_mediaUrls parsed)))
  | [] =>
      if str_includes rawMessage (lit "[CQ:image")
         || str_includes rawMessage (lit "[CQ:record")
         || str_includes rawMessage (lit "[CQ:video")
      then emit (ELogWarn (lit "napcat inbound media not parsed: sender=" ++ senderId
                           ++ lit " raw_message=" ++ take 200 rawMessage))
      else ret tt
  end.

(** The part of [handlePrivateMessage] after the access policy let the
    message through. *)
Definition dispatch (acct : account) (senderId combinedText commandText : jstring)
    (commandAuthorized : bool) (parsed : parsedMessage) : M unit :=
  let route := resolveAgentRoute H (Some (accountId acct)) senderId in
  let to := formatTarget senderId in
  emit (ERecordInboundSession (r_sessionKey route)) ;;
  emit ELastInboundAt ;;
  let textLimit :=
    resolveTextChunkLimit H (default DEFAULT_TEXT_LIMIT (textChunkLimit acct)) in
  emit (EDispatch senderId combinedText commandText commandAuthorized
          (pm_mediaUrls parsed) (pm_mediaTypes parsed)) ;;
  for_each (replies H senderId combinedText) (fun '(kind, payload) =>
    catch (deliver (r_accountId route) to textLimit payload)
          (fun err => emit (ELogWarn (lit "napcat " ++ kind ++ lit " reply failed: " ++ err)))) ;;
  emit EMarkDispatchIdle.

(** [readAllowFromStore("napcat").catch(() => [])] *)
Definition stored_entries (t : list effect) : list json :=
  match readAllowFromStore H t with Ok l => l | Throw _ => [] end.

(** The allow-list in force when the store is read at trace [t]. *)
Definition effective_allow (acct : account) (t : list effect) : list jstring :=
  effectiveAllowFrom (default [] (allowFrom acct)) (stored_entries t).

(** The pairing-code reply of [handlePrivateMessage] and the status update
    after it. *)
Definition pairing_reply (acct : account) (senderId code : jstring) : M unit :=
  sendNapcatText (Some (accountId acct)) (formatTarget senderId)
    (buildPairingReply H (lit "Your QQ: " ++ senderId) code) ;;
  emit ELastOutboundAt.

(** The access policy of [handlePrivateMessage]: from the reading of
    [dmPolicy] to the point where an authorised message goes on;
    [proceed] is the rest of the function. *)
Definition access_gate (acct : account) (senderId senderName : jstring)
    (proceed : bool -> M unit) : M unit :=
  let policy := default (lit "open") (dmPolicy acct) in
  let configAllowFrom := normalizeAllowList (default [] (allowFrom acct)) in
  t <- history ;;
  emit EReadAllowFromStore ;;
  let storedAllowFrom := normalizeAllowList (stored_entries t) in
  let effective := set_from [] (configAllowFrom ++ storedAllowFrom) in
  let senderAllowed := isSenderAllowed senderId effective in
  let commandAuthorized := jeqb policy (lit "open") || senderAllowed in
  if jeqb policy (lit "disabled") then ret tt
  else if negb (jeqb policy (lit "open")) && negb senderAllowed then
    if jeqb policy (lit "pairing") then
      t <- history ;;
      emit (EUpsertPairingRequest senderId senderName) ;;
      let '(code, created) := upsertPairingRequest H t senderId in
      if created then pairing_reply acct senderId code
      else ret tt
    else ret tt
  else proceed commandAuthorized.

Definition handlePrivateMessage (acct : account) (event : json) : M unit :=
  let ev := Some event in
  let postType := default [] (as_string (prop "post_type" ev)) in
  let messageType := default [] (as_string (prop "message_type" ev)) in
  if negb (jeqb postType (lit "message")) then ret tt
  else if negb (jeqb messageType (lit "private")) then ret tt
  else
    match id_string (prop "user_id" ev) with
    | None => ret tt
    | Some senderId =>
        if match id_string (prop "self_id" ev) with
           | Some self => jeqb self senderId
           | None => false
           end
        then ret tt
        else
          let senderName :=
            or_else (match as_string (prop "nickname" (prop "sender" ev)) with
                     | Some n => trim n
                     | None => []
                     end) senderId in
          let parsed := parseOneBotMessage (prop "message" ev) in
          let rawMessage :=
            match as_string (prop "raw_message" ev) with
            | Some r => trim r
            | None => []
            end in
          let bodyText := trim (or_else (text parsed) rawMessage) in
          let mediaSummary :=
            match bodyText with
            | [] => describeMediaSummary (pm_mediaTypes parsed)
            | _ => []
            end in
          let combinedText := or_else bodyText mediaSummary in
          let commandText := trim (text parsed) in
          log_inbound_media senderId rawMessage parsed ;;
          access_gate acct senderId senderName (fun commandAuthorized =>
            dispatch acct senderId combinedText commandText commandAuthorized parsed)
    end.

End WithHost.

(** *** The outbound rules as the specification words them *)

(** "image/audio/video map to wire segment types image/record/video" *)
Definition wire_segment_type (kind : option jstring) : option jstring :=
  match kind with
  | Some k =>
      if jeqb k (lit "image") then Some (lit "image")
      else if jeqb k (lit "audio") then Some (lit "record")
      else if jeqb k (lit "video") then Some (lit "video")
      else None
  | None => None
  end.

(** "combine any caption text and the raw reference into a single
    plain-text message" *)
Definition caption_and_reference (caption mediaUrl : jstring) : jstring :=
  match caption with
  | [] => mediaUrl
  | _ => caption ++ [10] ++ mediaUrl
  end.

(** Modelled from the spec: the pairing-request store of the host, whose
    code is not part of this repository.  The upsert is "idempotent per
    sender" and "returns whether this is a newly created request": a
    request is new exactly when no request of that sender was recorded
    before. *)
Definition requested_before (id : jstring) (t : list effect) : bool :=
  existsb (fun e => match e with
                    | EUpsertPairingRequest id' _ => jeqb id id'
                    | _ => false
                    end) t.

Definition spec_upsertPairingRequest (code : jstring) (t : list effect) (id : jstring)
    : jstring * bool :=
  (code, negb (requested_before id t)).

(** *** Vocabulary of the statements *)

(** The [send_private_msg] action that carries [message] to [userId]. *)
Definition private_msg (accountId : option jstring) (userId : jstring) (message : list json)
    : effect :=
  ESendAction accountId (lit "send_private_msg")
    (JObj [(lit "user_id", JNum userId); (lit "message", JArr message)]).

(** A gateway that answers every action, with a response that is not
    [null] and whose status is not failed. *)
Definition accepts (H : Host) : Prop :=
  forall t action params,
    exists response,
      gateway H t action params = Ok response
      /\ response <> JNull
      /\ is_str (prop "status" (Some response)) "failed" = false.

(** The segments of a media message: the caption, unless it is empty,
    then the media. *)
Definition media_message (caption type mediaUrl : jstring) : list json :=
  match caption with [] => [] | _ => [buildTextSegment caption] end
  ++ [buildMediaSegment type mediaUrl].

(** What the send of one media item does when it succeeds. *)
Definition media_effects (H : Host) (accountId : option jstring) (userId : jstring)
    (caption mediaUrl : jstring) : list effect :=
  match matches_ci (lit "base64://") mediaUrl with
  | Some _ => [private_msg accountId userId (media_message caption (lit "image") mediaUrl)]
  | None =>
      [EDetectMime mediaUrl;
       match wire_segment_type (mediaKindFromMime H (detectMime H mediaUrl)) with
       | Some type => private_msg accountId userId (media_message caption type mediaUrl)
       | None =>
           private_msg accountId userId
             [buildTextSegment (caption_and_reference caption mediaUrl)]
       end]
  end.

End Pipeline.

(** ** Invariants of the connection: vocabulary *)
Module ConnInv.
Import Js Conn.

(** The call [call] of [sendAction] returns or throws. *)
Definition is_completion (call : N) (e : output) : bool :=
  match e with
  | EReturn k _ | EThrow k _ => N.eqb call k
  | _ => false
  end.

(** How many times the call [call] ends in a trace. *)
Definition completions (call : N) (es : list output) : nat :=
  length (List.filter (is_completion call) es).

Definition no_completion (es : list output) : bool :=
  forallb (fun e => match e with EReturn _ _ | EThrow _ _ => false | _ => true end) es.

(** Every pending entry holds the handle of a live timer, the one set for
    its token and its waiter; handles are handed out in order. *)
Definition timers_live (c : state) : Prop :=
  (forall echo entry,
     (echo, entry) ∈ pending c ->
     exists action,
       timers c !! timeout entry = Some (RequestTimeout echo (waiter entry) action))
  /\ (forall h cb, timers c !! h = Some cb -> h < nextTimer c).

(** Suspended calls were made. *)
Definition calls_known (c : state) : Prop :=
  forall k st, calls c !! k = Some st -> k < nextCall c.

(** The call [k] was made and is not suspended: it has ended. *)
Definition call_ended (k : N) (c : state) : Prop :=
  calls c !! k = None /\ k < nextCall c.

(** What holds of every state of a connection. *)
Definition consistent (c : state) : Prop :=
  wf c /\ timers_live c /\ calls_known c /\ (stopped c = true -> torn_down c).

(** What a handler that runs on behalf of the call [call] does to the
    calls: it ends [call] at most once and touches no other call. *)
Definition touches_only (call : N) (c : state) (r : state * list output) : Prop :=
  nextCall (fst r) = nextCall c
  /\ (forall k, k <> call ->
        completions k (snd r) = 0%nat /\ calls (fst r) !! k = calls c !! k)
  /\ (completions call (snd r) <= 1)%nat
  /\ (completions call (snd r) <> 0%nat -> calls (fst r) !! call = None).

(** What one step does to the calls: it ends each call at most once, and
    never a call that has ended. *)
Definition calls_step (c : state) (r : state * list output) : Prop :=
  calls_known (fst r)
  /\ forall k,
       (completions k (snd r) <= 1)%nat
       /\ (completions k (snd r) <> 0%nat -> call_ended k (fst r))
       /\ (call_ended k c -> completions k (snd r) = 0%nat /\ call_ended k (fst r)).

End ConnInv.

(** ** Helpers of the plugin object ([napcatPlugin]) *)
Module Plugin.
Import Js Access.

Definition is_digit (c : N) : bool := (48 <=? c) && (c <=? 57).

(** [/^[0-9]+$/.test(input.trim())] *)
Definition looksLikeId (input : jstring) : bool :=
  match trim input with
  | [] => false
  | t => forallb is_digit t
  end.

(** [allowFrom.map((entry) => String(entry).trim()).filter(Boolean)
      .map((entry) => normalizeAllowEntry(entry))] *)
Definition formatAllowFrom (allowFrom : list json) : list jstring :=
  (fun entry => normalizeAllowEntry (JStr entry))
    <$> filter (fun s : jstring => s ≠ []) ((fun entry => trim (String_ entry)) <$> allowFrom).

End Plugin.

(** ** Traces of the pipeline: vocabulary *)
Module Trace.
Import Js Pipeline.

(** [m] only extends the trace, by effects that satisfy [P]. *)
Definition appends {A} (P : effect -> Prop) (m : M A) : Prop :=
  forall t, exists es, snd (m t) = t ++ es /\ Forall P es.

(** What a reply to the target [to] may do: classify a media reference,
    send a [send_private_msg] action to the peer that [to] names, update
    the status. *)
Definition reply_effect (H : Host) (to : jstring) (e : effect) : Prop :=
  match e with
  | ESendAction _ action params =>
      action = lit "send_private_msg"
      /\ exists userId message,
           parseInt10 H (normalizeTarget to) = Some userId
           /\ params = JObj [(lit "user_id", JNum userId); (lit "message", JArr message)]
  | EDetectMime _ | ELastOutboundAt => True
  | _ => False
  end.

(** What [handlePrivateMessage] may do for a message of [senderId]. *)
Definition inbound_effect (H : Host) (acct : account) (senderId : jstring) (e : effect) : Prop :=
  match e with
  | ESendAction _ _ _ | EDetectMime _ | ELastOutboundAt =>
      reply_effect H (formatTarget senderId) e
  | EDispatch s _ _ commandAuthorized _ _ => s = senderId /\ commandAuthorized = true
  | EUpsertPairingRequest s _ => s = senderId /\ dmPolicy acct = Some (lit "pairing")
  | _ => True
  end.

End Trace.

(** ** Accounts of the configuration ([types.ts]) *)
Module Accounts.
Import Js.

(** [NapcatAccountConfig]; [None] is a property that is absent.  The
    configuration is parsed JSON, which has no [undefined] values. *)
Record NapcatAccountConfig := mkAccountConfig {
  cfg_name : option jstring;
  cfg_enabled : option bool;
  cfg_wsUrl : option jstring;
  cfg_httpUrl : option jstring;
  cfg_accessToken : option jstring;
  cfg_dmPolicy : option jstring;
  cfg_allowFrom : option (list json);
  cfg_textChunkLimit : option N;
  cfg_chunkMode : option jstring;
  cfg_mediaMaxMb : option N
}.

(** [NapcatConfig]: the top-level account fields and the [accounts]
    record, its entries in the order [Object.keys] lists them. *)
Record NapcatConfig := mkNapcatConfig {
  top : NapcatAccountConfig;
  accounts : option (list (jstring * option NapcatAccountConfig))
}.

Record ResolvedNapcatAccount := mkResolved {
  res_accountId : jstring;
  res_name : option jstring;
  res_enabled : bool;
  res_configured : bool;
  res_wsUrl : option jstring;
  res_httpUrl : option jstring;
  res_accessToken : option jstring;
  res_textChunkLimit : option N;
  res_chunkMode : option jstring;
  res_mediaMaxMb : option N;
  res_config : NapcatAccountConfig
}.

(** [{}] *)
Definition no_config : NapcatAccountConfig :=
  mkAccountConfig None None None None None None None None None None.

(** A property of the override when it has one, of the base otherwise. *)
Definition or_field {A} (a b : option A) : option A :=
  match a with Some v => Some v | None => b end.

(** [{ ...baseConfig, ...accountOverride }] *)
Definition spread (baseConfig accountOverride : NapcatAccountConfig) : NapcatAccountConfig :=
  mkAccountConfig
    (or_field (cfg_name accountOverride) (cfg_name baseConfig))
    (or_field (cfg_enabled accountOverride) (cfg_enabled baseConfig))
    (or_field (cfg_wsUrl accountOverride) (cfg_wsUrl baseConfig))
    (or_field (cfg_httpUrl accountOverride) (cfg_httpUrl baseConfig))
    (or_field (cfg_accessToken accountOverride) (cfg_accessToken baseConfig))
    (or_field (cfg_dmPolicy accountOverride) (cfg_dmPolicy baseConfig))
    (or_field (cfg_allowFrom accountOverride) (cfg_allowFrom baseConfig))
    (or_field (cfg_textChunkLimit accountOverride) (cfg_textChunkLimit baseConfig))
    (or_field (cfg_chunkMode accountOverride) (cfg_chunkMode baseConfig))
    (or_field (cfg_mediaMaxMb accountOverride) (cfg_mediaMaxMb baseConfig)).

(** [v?.trim() || undefined] *)
Definition trimmed (v : option jstring) : option jstring :=
  match v with
  | Some s => match trim s with [] => None | t => Some t end
  | None => None
  end.

(** [Boolean(v)] for an optional string *)
Definition nonempty (v : option jstring) : bool :=
  match v with Some (_ :: _) => true | _ => false end.

Section WithSdk.
(** Of the plugin SDK. *)
Variable DEFAULT_ACCOUNT_ID : jstring.
Variable normalizeAccountId : jstring -> jstring.

(** [napcatCfg] is what [getNapcatConfig(cfg)] returns. *)
Definition listNapcatAccountIds (napcatCfg : option NapcatConfig) : list jstring :=
  let accountIds := fst <$> default [] (napcatCfg ≫= accounts) in
  match accountIds with
  | _ :: _ => normalizeAccountId <$> accountIds
  | [] =>
      if nonempty (napcatCfg ≫= fun c => cfg_wsUrl (top c))
         || nonempty (napcatCfg ≫= fun c => cfg_httpUrl (top c))
      then [DEFAULT_ACCOUNT_ID]
      else []
  end.

Definition resolveDefaultNapcatAccountId (napcatCfg : option NapcatConfig) : jstring :=
  let ids := listNapcatAccountIds napcatCfg in
  if bool_decide (DEFAULT_ACCOUNT_ID ∈ ids) then DEFAULT_ACCOUNT_ID
  else default DEFAULT_ACCOUNT_ID (head ids).

Definition resolveNapcatAccount (napcatCfg : option NapcatConfig) (accountId : option jstring)
    : ResolvedNapcatAccount :=
  let accountId := normalizeAccountId (default DEFAULT_ACCOUNT_ID accountId) in
  let baseConfig := match napcatCfg with Some c => top c | None => no_config end in
  let accountOverride :=
    match napcatCfg ≫= accounts with
    | Some entries =>
        match assoc accountId entries with
        | Some (Some entry) => entry
        | _ => no_config
        end
    | None => no_config
    end in
  let config := spread baseConfig accountOverride in
  let wsUrl := trimmed (cfg_wsUrl config) in
  let httpUrl := trimmed (cfg_httpUrl config) in
  let accessToken := trimmed (cfg_accessToken config) in
  let configured := nonempty wsUrl in
  mkResolved accountId (trimmed (cfg_name config))
    (negb (bool_decide (cfg_enabled config = Some false)))
    configured wsUrl httpUrl accessToken
    (cfg_textChunkLimit config) (cfg_chunkMode config) (cfg_mediaMaxMb config) config.

End WithSdk.
End Accounts.

(** ** Concrete inputs used by the examples below *)
Module Examples.
Import Js.

Definition text_segment (t : string) : json :=
  JObj [(lit "type", JStr (lit "text")); (lit "data", JObj [(lit "text", JStr (lit t))])].

Definition url_segment (type url : string) : json :=
  JObj [(lit "type", JStr (lit type)); (lit "data", JObj [(lit "url", JStr (lit url))])].

Import Pipeline.

Definition ok_response : json :=
  JObj [(lit "status", JStr (lit "ok")); (lit "retcode", JNum (lit "0"));
        (lit "data", JObj [(lit "message_id", JNum (lit "1"))])].

(** The longest prefix of decimal digits. *)
Fixpoint digits_prefix (s : jstring) : jstring :=
  match s with
  | c :: r => if Plugin.is_digit c then c :: digits_prefix r else []
  | [] => []
  end.

(** [Number.parseInt(s, 10)], as the text of the number when it is finite:
    leading white space, a sign, then the longest run of digits.  It is
    the platform's answer for numbers below 2^53 in absolute value. *)
Definition parse_int (s : jstring) : option jstring :=
  let '(negative, rest) :=
    match trimStart s with
    | 45 :: r => (true, r)
    | 43 :: r => (false, r)
    | r => (false, r)
    end in
  match digits_prefix rest with
  | [] => None
  | digits =>
      let n := fold_left (fun a d => 10 * a + (d - 48)) digits 0 in
      Some ((if negative && negb (n =? 0) then [45] else []) ++ String_N n)
  end.

(** Cuts of [n] code units, as the chunk mode [length] makes them. *)
Fixpoint chunk_length (fuel : nat) (s : jstring) (n : nat) : list jstring :=
  match fuel, s with
  | S f, _ :: _ => take n s :: chunk_length f (drop n s) n
  | _, _ => []
  end.

(** A host whose gateway accepts every action, whose allow-list store is
    empty, which knows no MIME type, and whose pairing store is the one of
    the specification. *)
Definition host0 : Host :=
  {| parseInt10 := parse_int;
     now := fun _ => lit "0";
     detectMime := fun _ => None;
     mediaKindFromMime := fun _ => Some (lit "unknown");
     gateway := fun _ _ _ => Ok ok_response;
     readAllowFromStore := fun _ => Ok [];
     upsertPairingRequest := spec_upsertPairingRequest (lit "K7F2");
     buildPairingReply := fun idLine code => idLine ++ lit " code " ++ code;
     resolveAgentRoute := fun a sid => mkRoute a (lit "dm:" ++ sid);
     resolveTextChunkLimit := fun n => n;
     chunkTextWithMode := fun text limit => chunk_length (length text) text (N.to_nat limit);
     convertMarkdownTables := fun s => s;
     stripMarkdown := fun s => s;
     replies := fun _ _ => [] |}.

(** A private-message event of sender [user_id], as the gateway posts it. *)
Definition private_message (user_id : json) (segments : list json) : json :=
  JObj [(lit "post_type", JStr (lit "message"));
        (lit "message_type", JStr (lit "private"));
        (lit "user_id", user_id);
        (lit "self_id", JNum (lit "10000"));
        (lit "message", JArr segments)].

Definition two_images : replyPayload :=
  mkPayload (Some (lit "abcdefg")) None (Some [lit "https://x/a.png"; lit "https://x/b.png"]).

(** A platform whose [URL] class leaves the socket URL alone and joins
    base and action with a slash. *)
Definition append0 : jstring -> option jstring -> jstring := fun url _ => url.
Definition build0 : jstring -> jstring -> option jstring -> jstring + jstring :=
  fun base action _ => inl (base ++ lit "/" ++ action).

Definition opts_ws : Conn.options :=
  Conn.mkOptions (lit "ws://127.0.0.1:6700") None None.
Definition opts_http : Conn.options :=
  Conn.mkOptions (lit "ws://127.0.0.1:6700") (Some (lit "http://127.0.0.1:5700")) None.

Definition ok_echo (echo : string) : json :=
  JObj [(lit "status", JStr (lit "ok")); (lit "retcode", JNum (lit "0"));
        (lit "echo", JStr (lit echo))].

(** The connection after its socket opened and one action was sent. *)
Definition one_request (opts : Conn.options) : Conn.state :=
  fst (Conn.run append0 build0 opts
         [Conn.InOpen; Conn.InSendAction (lit "get_status") None None]
         (fst (Conn.createOneBotConnection append0 opts))).

Definition account_with (policy : string) (allow : list string) : account :=
  mkAccount (lit "default") (Some (lit policy)) (Some ((fun a => JStr (lit a)) <$> allow)) None.

(** The connection after its socket opened. *)
Definition opened (opts : Conn.options) : Conn.state :=
  fst (Conn.run append0 build0 opts [Conn.InOpen] (fst (Conn.createOneBotConnection append0 opts))).

(** An account-id normalisation that folds the ASCII letters. *)
Definition lower_id (id : jstring) : jstring := fold_case <$> id.

(** A configuration with one account section, keyed [Work]. *)
Definition work_account : Accounts.NapcatConfig :=
  Accounts.mkNapcatConfig
    (Accounts.mkAccountConfig None None (Some (lit "ws://127.0.0.1:6700")) None None None None
       None None None)
    (Some [(lit "Work",
            Some (Accounts.mkAccountConfig None None (Some (lit "ws://10.0.0.2:6700")) None None
                    None None None None None))]).

(** A configuration without account sections. *)
Definition single_account : Accounts.NapcatConfig :=
  Accounts.mkNapcatConfig
    (Accounts.mkAccountConfig None None (Some (lit " ws://127.0.0.1:6700 ")) None None None None
       None None None)
    None.

End Examples.

(** * Properties *)

(** ** Strings *)
Module JsFacts.
Import Js.

Lemma join_nil_concat (l : list jstring) : join [] l = concat l.
Proof.
  induction l as [|p [|q r] IH]; simpl in *.
  - reflexivity.
  - now rewrite app_nil_r.
  - now rewrite IH.
Qed.

Lemma matches_ci_app (p q s : jstring) :
  matches_ci (p ++ q) s = matches_ci p s ≫= matches_ci q.
Proof.
  revert s. induction p as [|a p IH]; intros s; simpl.
  - now destruct q.
  - destruct s as [|b s]; [reflexivity|].
    destruct (fold_case a =? fold_case b); [apply IH | reflexivity].
Qed.

Lemma lit_inj (a b : string) : lit a = lit b -> a = b.
Proof.
  unfold lit. revert b. induction a as [|x a IH]; intros [|y b] E; simpl in E;
    try discriminate; [reflexivity|].
  injection E as E1 E2. f_equal; [|now apply IH].
  rewrite <- (ascii_N_embedding x), <- (ascii_N_embedding y). now rewrite E1.
Qed.

Lemma string_of_uint_inj (d e : Decimal.uint) :
  NilEmpty.string_of_uint d = NilEmpty.string_of_uint e -> d = e.
Proof.
  intros E. apply (f_equal NilEmpty.uint_of_string) in E.
  rewrite !NilEmpty.usu in E. congruence.
Qed.

(** Distinct counters give distinct tokens. *)
Lemma String_N_inj (m n : N) : String_N m = String_N n -> m = n.
Proof.
  intros E. apply lit_inj, string_of_uint_inj in E.
  now apply DecimalN.Unsigned.to_uint_inj.
Qed.

End JsFacts.

(** ** The inbound codec *)
Module CodecFacts.
Import Js Codec JsFacts.

(** The predicate of the source and the wording of the specification pick
    the same references. *)
Lemma isLikelyMediaRef_looks_like_reference (value : jstring) :
  isLikelyMediaRef value = looks_like_reference value.
Proof.
  unfold isLikelyMediaRef, looks_like_reference.
  generalize (trim value). intros t.
  unfold re_media_scheme, has_url_scheme, has_base64_scheme.
  change (lit "http:") with (lit "http" ++ lit ":").
  change (lit "https:") with (lit "http" ++ lit "s" ++ lit ":").
  rewrite !matches_ci_app.
  destruct t as [|c t]; [reflexivity|].
  rewrite bool_decide_eq_false_2 by discriminate.
  assert (Hs : startsWith (c :: t) (lit "/") = (c =? 47)).
  { change (lit "/") with [47]. cbn [startsWith]. rewrite N.eqb_sym. destruct t; apply andb_true_r. }
  rewrite Hs.
  assert (Hd : is_absolute_path (c :: t) = (c =? 47) || re_drive_path (c :: t)).
  { unfold is_absolute_path, re_drive_path.
    destruct t as [|c2 [|c3 t]]; rewrite ?andb_false_r; try reflexivity.
    destruct (c =? 47), (is_ascii_letter c), (c2 =? 58), (c3 =? 92), (c3 =? 47); reflexivity. }
  rewrite Hd. clear Hs Hd.
  set (b1 := (c =? 47)). set (b2 := re_drive_path (c :: t)). clearbody b1 b2.
  destruct (matches_ci (lit "http") (c :: t)) as [r|]; cbn [mbind option_bind];
    rewrite ?matches_ci_app;
    [destruct (matches_ci (lit "s") r) as [r'|]; cbn [mbind option_bind]|];
    change (bool_decide (is_Some (@None jstring))) with false;
    repeat match goal with
           | |- context [bool_decide ?P] => generalize (bool_decide P); intros ?
           end;
    destruct b1, b2; repeat match goal with b : bool |- _ => destruct b end; reflexivity.
Qed.

Lemma segment_step_spec (acc : parts) (segment : json) :
  concat (textParts (segment_step acc segment)) = concat (textParts acc) ++ segment_text segment
  /\ mediaUrls (segment_step acc segment)
     = mediaUrls acc ++ (fst <$> option_list (segment_media segment))
  /\ mediaTypes (segment_step acc segment)
     = mediaTypes acc ++ (snd <$> option_list (segment_media segment)).
Proof.
  unfold segment_step, segment_text, segment_media, reference_field, media_kind.
  unfold prop, is_str, as_string, nullish, jeqb.
  destruct segment as [| | | | |fs]; cbn [andb orb]; rewrite ?app_nil_r; try done.
  destruct (assoc (lit "type") fs) as [[| | |ty| |]|]; cbn [andb orb]; rewrite ?app_nil_r; try done.
  repeat case_bool_decide; subst; try discriminate; cbn [andb orb]; rewrite ?app_nil_r; try done.
  all: destruct (assoc (lit "data") fs) as [[| | | | |d]|]; cbn [andb orb]; rewrite ?app_nil_r; try done.
  - destruct (assoc (lit "text") d) as [[| | |t| |]|]; cbn; rewrite ?app_nil_r; try done.
    now rewrite concat_app; cbn; rewrite app_nil_r.
  - destruct (assoc (lit "url") d) as [[| | |u| |]|];
      try destruct (assoc (lit "file") d) as [[| | |f| |]|];
      cbn; rewrite <- ?isLikelyMediaRef_looks_like_reference;
      change (isLikelyMediaRef []) with false;
      repeat match goal with |- context [isLikelyMediaRef ?x] => destruct (isLikelyMediaRef x) end;
      cbn; rewrite ?app_nil_r; done.
  - destruct (assoc (lit "url") d) as [[| | |u| |]|];
      try destruct (assoc (lit "file") d) as [[| | |f| |]|];
      cbn; rewrite <- ?isLikelyMediaRef_looks_like_reference;
      change (isLikelyMediaRef []) with false;
      repeat match goal with |- context [isLikelyMediaRef ?x] => destruct (isLikelyMediaRef x) end;
      cbn; rewrite ?app_nil_r; done.
  - destruct (assoc (lit "url") d) as [[| | |u| |]|];
      try destruct (assoc (lit "file") d) as [[| | |f| |]|];
      cbn; rewrite <- ?isLikelyMediaRef_looks_like_reference;
      change (isLikelyMediaRef []) with false;
      repeat match goal with |- context [isLikelyMediaRef ?x] => destruct (isLikelyMediaRef x) end;
      cbn; rewrite ?app_nil_r; done.
Qed.

Lemma omap_cons_option_list {A B} (f : A -> option B) (x : A) (l : list A) :
  omap f (x :: l) = option_list (f x) ++ omap f l.
Proof. cbn. now destruct (f x). Qed.

Lemma fold_segment_step (segments : list json) (acc : parts) :
  concat (textParts (fold_left segment_step segments acc))
    = concat (textParts acc) ++ concat (segment_text <$> segments)
  /\ mediaUrls (fold_left segment_step segments acc)
     = mediaUrls acc ++ (fst <$> omap segment_media segments)
  /\ mediaTypes (fold_left segment_step segments acc)
     = mediaTypes acc ++ (snd <$> omap segment_media segments).
Proof.
  revert acc. induction segments as [|seg segments IH]; intros acc.
  - cbn. now rewrite !app_nil_r.
  - cbn [fold_left]. destruct (IH (segment_step acc seg)) as (IH1 & IH2 & IH3).
    destruct (segment_step_spec acc seg) as (S1 & S2 & S3).
    rewrite IH1, IH2, IH3, S1, S2, S3, omap_cons_option_list, !fmap_app.
    rewrite fmap_cons. cbn [concat]. now rewrite <- !app_assoc.
Qed.

(** C5. For a wire message that is a sequence of segments, the text of the
    result is the concatenation, in order, of the texts of the text-typed
    segments, and the media references are, in order, those of the
    image/record/video segments whose url field, or absent that file
    field, looks like a reference (URL scheme, absolute path or base64:),
    with record mapped to audio and image/video to themselves; every other
    segment contributes nothing.  The segments text "hi" and image
    "https://x/y.png" give text "hi" and the one reference
    ("https://x/y.png", "image"). *)
Theorem parseOneBotMessage_segments (segments : list json) :
  text (parseOneBotMessage (Some (JArr segments))) = concat (segment_text <$> segments)
  /\ zip (pm_mediaUrls (parseOneBotMessage (Some (JArr segments))))
         (pm_mediaTypes (parseOneBotMessage (Some (JArr segments))))
     = omap segment_media segments
  /\ length (pm_mediaUrls (parseOneBotMessage (Some (JArr segments))))
     = length (pm_mediaTypes (parseOneBotMessage (Some (JArr segments))))
  /\ (forall r, looks_like_reference r = isLikelyMediaRef r)
  /\ parseOneBotMessage
       (Some (JArr [Examples.text_segment "hi"; Examples.url_segment "image" "https://x/y.png"]))
     = mkParsed (lit "hi") [lit "https://x/y.png"] [lit "image"].
Proof.
  unfold parseOneBotMessage.
  destruct (fold_segment_step segments (mkParts [] [] [])) as (F1 & F2 & F3).
  cbn [text pm_mediaUrls pm_mediaTypes]. rewrite join_nil_concat, F1, F2, F3.
  cbn [textParts mediaUrls mediaTypes concat app].
  split; [reflexivity|]. split; [|split; [|split]].
  - apply zip_fst_snd.
  - now rewrite !length_fmap.
  - intros r. symmetry. apply isLikelyMediaRef_looks_like_reference.
  - vm_compute. reflexivity.
Qed.

End CodecFacts.

(** ** The allow-list *)
Module AccessFacts.
Import Js Access.

Lemma elem_of_set_from (seen l : list jstring) (x : jstring) :
  x ∈ set_from seen l <-> x ∈ seen \/ x ∈ l.
Proof.
  revert seen. induction l as [|y l IH]; intros seen; cbn [set_from].
  - rewrite elem_of_nil. tauto.
  - case_bool_decide as Hy; rewrite IH, ?elem_of_app, ?elem_of_cons, ?elem_of_nil.
    + split; [tauto|]. intros [?|[->|?]]; tauto.
    + tauto.
Qed.

Lemma elem_of_normalizeAllowList (entries : list json) (x : jstring) :
  x ∈ normalizeAllowList entries
  <-> x ≠ [] /\ exists e, e ∈ entries /\ normalizeAllowEntry e = x.
Proof.
  unfold normalizeAllowList.
  rewrite elem_of_set_from, elem_of_nil, list_elem_of_filter, list_elem_of_fmap.
  split.
  - intros [[]|[Hx (e & -> & He)]]. eauto.
  - intros [Hx (e & He & <-)]. right. eauto.
Qed.

Lemma elem_of_effectiveAllowFrom (config stored : list json) (x : jstring) :
  x ∈ effectiveAllowFrom config stored
  <-> x ≠ [] /\ exists e, e ∈ config ++ stored /\ normalizeAllowEntry e = x.
Proof.
  unfold effectiveAllowFrom.
  rewrite elem_of_set_from, elem_of_nil, elem_of_app, !elem_of_normalizeAllowList.
  split.
  - intros [[]|[[Hx (e & He & <-)]|[Hx (e & He & <-)]]];
      (split; [done|]; exists e; rewrite elem_of_app; tauto).
  - intros [Hx (e & He & <-)]. apply elem_of_app in He as [He|He]; right; [left|right]; eauto.
Qed.

Lemma isSenderAllowed_iff (senderId : jstring) (allowFrom : list jstring) :
  isSenderAllowed senderId allowFrom = true
  <-> lit "*" ∈ allowFrom \/ normalizeAllowEntry (JStr senderId) ∈ allowFrom.
Proof.
  unfold isSenderAllowed, includes.
  case_bool_decide as Hstar; [tauto|].
  rewrite bool_decide_eq_true. tauto.
Qed.

End AccessFacts.

(** ** The access policy of the inbound pipeline *)
Module PipelineFacts.
Import Js Codec Access Pipeline JsFacts AccessFacts.

Section Gate.
Variable H : Host.

Lemma resolveMessageId_pure (response : json) (t : list effect) :
  exists id, resolveMessageId H response t = (Ok id, t).
Proof.
  unfold resolveMessageId.
  destruct (prop "message_id" _) as [[]|]; eexists; reflexivity.
Qed.

(** What [sendNapcatText] adds to the trace: nothing when the target is
    not a QQ number, one action otherwise. *)
Lemma sendNapcatText_trace (accountId : option jstring) (to text : jstring) (t : list effect) :
  match parseInt10 H (normalizeTarget to) with
  | None => sendNapcatText H accountId to text t = (Throw (Error (lit "Invalid QQ target: " ++ to)), t)
  | Some userId =>
      exists r,
        sendNapcatText H accountId to text t
        = (r, t ++ [ESendAction accountId (lit "send_private_msg")
                      (JObj [(lit "user_id", JNum userId);
                             (lit "message", JArr [buildTextSegment text])])])
  end.
Proof.
  unfold sendNapcatText, parseUserId.
  destruct (parseInt10 H (normalizeTarget to)) as [userId|]; [|reflexivity].
  unfold bind at 1. unfold ret at 1.
  unfold send_private_msg, sendOneBotAction, bind, history, emit, ret, throw.
  destruct (gateway H t _ _) as [resp|e]; [|eauto].
  destruct resp; [eauto|..];
    (destruct (is_str _ _); [eauto|];
     match goal with |- context [resolveMessageId H ?r ?t'] =>
       destruct (resolveMessageId_pure r t') as [id ->] end;
     eauto).
Qed.

Lemma access_gate_eq (acct : account) (senderId senderName : jstring)
    (proceed : bool -> M unit) (t : list effect) :
  access_gate H acct senderId senderName proceed t =
  let policy := default (lit "open") (dmPolicy acct) in
  let allowed := isSenderAllowed senderId (effective_allow H acct t) in
  let t1 := t ++ [EReadAllowFromStore] in
  if jeqb policy (lit "disabled") then (Ok tt, t1)
  else if negb (jeqb policy (lit "open")) && negb allowed then
    if jeqb policy (lit "pairing") then
      let t2 := t1 ++ [EUpsertPairingRequest senderId senderName] in
      if snd (upsertPairingRequest H t1 senderId)
      then pairing_reply H acct senderId (fst (upsertPairingRequest H t1 senderId)) t2
      else (Ok tt, t2)
    else (Ok tt, t1)
  else proceed (jeqb policy (lit "open") || allowed) t1.
Proof.
  unfold access_gate, effective_allow, effectiveAllowFrom.
  unfold bind at 1. unfold history at 1. unfold bind at 1. unfold emit at 1.
  cbv zeta.
  destruct (jeqb _ (lit "disabled")); [reflexivity|].
  destruct (negb _ && negb _); [|reflexivity].
  destruct (jeqb _ (lit "pairing")); [|reflexivity].
  unfold bind at 1. unfold history at 1. unfold bind at 1. unfold emit at 1.
  destruct (upsertPairingRequest H _ senderId) as [code []]; reflexivity.
Qed.

(** The pairing reply adds at most one action, then the status update. *)
Lemma pairing_reply_trace (acct : account) (senderId code : jstring) (t : list effect) :
  exists r es,
    pairing_reply H acct senderId code t = (r, t ++ es)
    /\ (es = []
        \/ exists a p, es = [ESendAction a (lit "send_private_msg") p]
                       \/ es = [ESendAction a (lit "send_private_msg") p; ELastOutboundAt]).
Proof.
  unfold pairing_reply. unfold bind at 1.
  pose proof (sendNapcatText_trace (Some (accountId acct)) (formatTarget senderId)
                (buildPairingReply H (lit "Your QQ: " ++ senderId) code) t) as S.
  destruct (parseInt10 H _) as [userId|].
  - destruct S as [r ->]. destruct r as [x|e].
    + unfold emit. eexists _, _. split; [now rewrite <- app_assoc|]. right. eauto.
    + eexists _, _. split; [reflexivity|]. right. eauto.
  - rewrite S. exists (Throw (Error (lit "Invalid QQ target: " ++ formatTarget senderId))), [].
    split; [now rewrite app_nil_r | now left].
Qed.

Lemma requested_before_app (id : jstring) (t more : list effect) :
  requested_before id (t ++ more) = requested_before id t || requested_before id more.
Proof. unfold requested_before. apply existsb_app. Qed.

Lemma requested_before_upsert (id name : jstring) :
  requested_before id [EUpsertPairingRequest id name] = true.
Proof. unfold requested_before, jeqb. cbn. now rewrite bool_decide_eq_true_2. Qed.

End Gate.

(** C7 (amended).  Under dmPolicy allowlist the sender of a private message
    is authorized iff the effective allow-list contains the entry "*" or
    contains the sender's identifier normalized like the entries (trimmed,
    one leading qq:/user: prefix stripped, case-insensitively); the
    effective allow-list holds the non-empty normalized entries of the
    configured list and of the persisted store.  An authorized message
    goes on with commandAuthorized set; an unauthorized one ends the
    handler after the store was read: nothing is sent, nothing is
    dispatched.  With the configured list ["123"], sender "qq:123" is
    authorized and sender "456" is not. *)
Theorem allowlist_policy (H : Host) (acct : account) (senderId senderName : jstring)
    (proceed : bool -> M unit) (t : list effect) :
  dmPolicy acct = Some (lit "allowlist") ->
  (isSenderAllowed senderId (effective_allow H acct t) = true
   <-> lit "*" ∈ effective_allow H acct t
       \/ normalizeAllowEntry (JStr senderId) ∈ effective_allow H acct t)
  /\ (forall x, x ∈ effective_allow H acct t
               <-> x ≠ [] /\ exists e, e ∈ default [] (allowFrom acct) ++ stored_entries H t
                                      /\ normalizeAllowEntry e = x)
  /\ (isSenderAllowed senderId (effective_allow H acct t) = true ->
      access_gate H acct senderId senderName proceed t
      = proceed true (t ++ [EReadAllowFromStore]))
  /\ (isSenderAllowed senderId (effective_allow H acct t) = false ->
      access_gate H acct senderId senderName proceed t
      = (Ok tt, t ++ [EReadAllowFromStore]))
  /\ isSenderAllowed (lit "qq:123") (effectiveAllowFrom [JStr (lit "123")] []) = true
  /\ isSenderAllowed (lit "456") (effectiveAllowFrom [JStr (lit "123")] []) = false.
Proof.
  intros Hp. split; [apply isSenderAllowed_iff|].
  split; [intros x; apply elem_of_effectiveAllowFrom|].
  rewrite access_gate_eq, Hp. cbn [default].
  change (jeqb (lit "allowlist") (lit "disabled")) with false.
  change (jeqb (lit "allowlist") (lit "open")) with false.
  change (jeqb (lit "allowlist") (lit "pairing")) with false.
  cbv zeta. cbn [negb andb orb].
  split; [now intros ->|]. split; [now intros ->|].
  split; vm_compute; reflexivity.
Qed.

(** C9.  If the effective allow-list contains the entry "*", every sender
    is authorized under the allowlist and the pairing policy, whatever the
    sender's identifier, and the message goes on to dispatch. *)
Theorem wildcard_authorizes_everyone (H : Host) (acct : account)
    (senderId senderName : jstring) (proceed : bool -> M unit) (t : list effect) :
  dmPolicy acct = Some (lit "allowlist") \/ dmPolicy acct = Some (lit "pairing") ->
  lit "*" ∈ effective_allow H acct t ->
  isSenderAllowed senderId (effective_allow H acct t) = true
  /\ access_gate H acct senderId senderName proceed t
     = proceed true (t ++ [EReadAllowFromStore]).
Proof.
  intros Hp Hstar.
  assert (Ha : isSenderAllowed senderId (effective_allow H acct t) = true).
  { apply isSenderAllowed_iff. now left. }
  split; [exact Ha|].
  rewrite access_gate_eq, Ha. cbv zeta.
  destruct Hp as [-> | ->]; cbn [default].
  - change (jeqb (lit "allowlist") (lit "disabled")) with false.
    change (jeqb (lit "allowlist") (lit "open")) with false. reflexivity.
  - change (jeqb (lit "pairing") (lit "disabled")) with false.
    change (jeqb (lit "pairing") (lit "open")) with false. reflexivity.
Qed.

(** [send_private_msg] in closed form. *)
Lemma send_private_msg_closed (H : Host) (accountId : option jstring) (userId : jstring)
    (message : list json) (t : list effect) :
  send_private_msg H accountId userId message t
  = let t1 := t ++ [private_msg accountId userId message] in
    match gateway H t (lit "send_private_msg")
            (JObj [(lit "user_id", JNum userId); (lit "message", JArr message)]) with
    | Throw err => (Throw err, t1)
    | Ok JNull => (Throw (null_property_error "status"), t1)
    | Ok response =>
        if is_str (prop "status" (Some response)) "failed"
        then (Throw (send_failed response), t1)
        else (Ok (mkSent
                    match id_string (prop "message_id" (prop "data" (Some response))) with
                    | Some id => id
                    | None => now H t1
                    end userId), t1)
    end.
Proof.
  cbv zeta. unfold send_private_msg, sendOneBotAction, bind, history, emit, ret, throw,
    private_msg.
  destruct (gateway H t _ _) as [response|err]; [|reflexivity].
  destruct response; [reflexivity|..];
    (destruct (is_str _ _); [reflexivity|];
     unfold resolveMessageId, id_string;
     destruct (prop "message_id" _) as [[]|]; reflexivity).
Qed.

Lemma sendNapcatText_unfold (H : Host) (accountId : option jstring) (to text : jstring)
    (t : list effect) :
  sendNapcatText H accountId to text t
  = match parseInt10 H (normalizeTarget to) with
    | Some userId => send_private_msg H accountId userId [buildTextSegment text] t
    | None => (Throw (Error (lit "Invalid QQ target: " ++ to)), t)
    end.
Proof.
  unfold sendNapcatText, parseUserId.
  destruct (parseInt10 H (normalizeTarget to)); reflexivity.
Qed.

(** The access gate under the pairing policy, for a sender that is not
    allowed. *)
Lemma access_gate_pairing (H : Host) (acct : account) (senderId senderName : jstring)
    (proceed : bool -> M unit) (t : list effect) :
  dmPolicy acct = Some (lit "pairing") ->
  isSenderAllowed senderId (effective_allow H acct t) = false ->
  access_gate H acct senderId senderName proceed t
  = let t2 := t ++ [EReadAllowFromStore; EUpsertPairingRequest senderId senderName] in
    let answer := upsertPairingRequest H (t ++ [EReadAllowFromStore]) senderId in
    if snd answer then pairing_reply H acct senderId (fst answer) t2 else (Ok tt, t2).
Proof.
  intros Hp Hu. rewrite access_gate_eq, Hp, Hu. cbn [default].
  change (jeqb (lit "pairing") (lit "disabled")) with false.
  change (jeqb (lit "pairing") (lit "open")) with false.
  change (jeqb (lit "pairing") (lit "pairing")) with true.
  cbv zeta. cbn [negb andb]. now rewrite <- !app_assoc.
Qed.

(** C8 (amended).  Under dmPolicy pairing a message of an unauthorized
    sender makes one pairing-request upsert.  When the upsert answers that
    the request is not new, nothing else happens.  When it answers that
    the request is new: if the identifier of the sender parses as a QQ
    number, exactly one send_private_msg action carries the pairing reply
    to that number, followed by the status update when the gateway accepts
    it, the handler throwing otherwise; if the identifier does not parse,
    the handler throws "Invalid QQ target" and no reply is sent.  In no
    case does the rest of the handler (dispatch) run.  With the pairing
    store of the specification the request of a first-time sender is new,
    and any later message of that sender, while still unauthorized, only
    repeats the upsert. *)
Theorem pairing_policy (H : Host) (acct : account) (senderId senderName : jstring)
    (proceed : bool -> M unit) (t : list effect) :
  dmPolicy acct = Some (lit "pairing") ->
  isSenderAllowed senderId (effective_allow H acct t) = false ->
  let t2 := t ++ [EReadAllowFromStore; EUpsertPairingRequest senderId senderName] in
  let answer := upsertPairingRequest H (t ++ [EReadAllowFromStore]) senderId in
  let reply :=
    [buildTextSegment (buildPairingReply H (lit "Your QQ: " ++ senderId) (fst answer))] in
  (snd answer = false ->
   access_gate H acct senderId senderName proceed t = (Ok tt, t2))
  /\ (snd answer = true ->
      parseInt10 H (normalizeTarget (formatTarget senderId)) = None ->
      access_gate H acct senderId senderName proceed t
      = (Throw (lit "Error: Invalid QQ target: qq:" ++ senderId), t2))
  /\ (forall userId,
        snd answer = true ->
        parseInt10 H (normalizeTarget (formatTarget senderId)) = Some userId ->
        let sent := t2 ++ [private_msg (Some (accountId acct)) userId reply] in
        access_gate H acct senderId senderName proceed t
        = match gateway H t2 (lit "send_private_msg")
                  (JObj [(lit "user_id", JNum userId);
                         (lit "message", JArr reply)]) with
          | Throw err => (Throw err, sent)
          | Ok JNull =>
              (Throw (lit "TypeError: Cannot read properties of null (reading 'status')"),
               sent)
          | Ok response =>
              if is_str (prop "status" (Some response)) "failed"
              then (Throw (send_failed response), sent)
              else (Ok tt, sent ++ [ELastOutboundAt])
          end)
  /\ (forall proceed',
        access_gate H acct senderId senderName proceed' t
        = access_gate H acct senderId senderName proceed t)
  /\ (forall code,
        upsertPairingRequest H = spec_upsertPairingRequest code ->
        (requested_before senderId t = false -> answer = (code, true))
        /\ (forall r t' more name' proceed',
              access_gate H acct senderId senderName proceed t = (r, t') ->
              isSenderAllowed senderId (effective_allow H acct (t' ++ more)) = false ->
              access_gate H acct senderId name' proceed' (t' ++ more)
              = (Ok tt, (t' ++ more)
                        ++ [EReadAllowFromStore; EUpsertPairingRequest senderId name']))).
Proof.
  intros Hp Hna t2 answer reply.
  pose proof (access_gate_pairing H acct senderId senderName proceed t Hp Hna) as E.
  cbv zeta in E. fold t2 in E. fold answer in E.
  assert (R : pairing_reply H acct senderId (fst answer) t2
              = match parseInt10 H (normalizeTarget (formatTarget senderId)) with
                | None => (Throw (Error (lit "Invalid QQ target: " ++ formatTarget senderId)), t2)
                | Some userId =>
                    match send_private_msg H (Some (accountId acct)) userId reply t2 with
                    | (Ok _, t3) => (Ok tt, t3 ++ [ELastOutboundAt])
                    | (Throw err, t3) => (Throw err, t3)
                    end
                end).
  { unfold pairing_reply. unfold bind at 1. rewrite sendNapcatText_unfold.
    destruct (parseInt10 H _) as [userId|]; [|reflexivity].
    unfold reply. destruct (send_private_msg H _ _ _ _) as [[x|e] t3]; reflexivity. }
  split; [|split; [|split; [|split]]].
  - intros Ha. now rewrite E, Ha.
  - intros Ha Hu. now rewrite E, Ha, R, Hu.
  - intros userId Ha Hu sent. rewrite E, Ha, R, Hu, send_private_msg_closed. cbv zeta.
    fold sent. destruct (gateway H t2 _ _) as [response|err]; [|reflexivity].
    destruct response; try reflexivity; destruct (is_str _ _); reflexivity.
  - intros proceed'. rewrite E.
    now rewrite (access_gate_pairing H acct senderId senderName proceed' t Hp Hna).
  - intros code Hs. split.
    + intros Hfirst. subst answer. rewrite Hs. unfold spec_upsertPairingRequest.
      now rewrite requested_before_app, Hfirst.
    + intros r t' more name' proceed' Hrun Hna'.
      assert (Hin : exists es, t' = t2 ++ es).
      { rewrite E in Hrun. destruct (snd answer).
        - destruct (pairing_reply_trace H acct senderId (fst answer) t2) as (r0 & es & Hr & _).
          rewrite Hr in Hrun. injection Hrun as _ <-. eauto.
        - injection Hrun as _ <-. exists []. now rewrite app_nil_r. }
      destruct Hin as [es ->].
      rewrite (access_gate_pairing H acct senderId name' proceed' _ Hp Hna'). cbv zeta.
      rewrite Hs. unfold spec_upsertPairingRequest. cbn [fst snd].
      unfold t2.
      replace (t ++ [EReadAllowFromStore; EUpsertPairingRequest senderId senderName])
        with ((t ++ [EReadAllowFromStore]) ++ [EUpsertPairingRequest senderId senderName])
        by now rewrite <- app_assoc.
      rewrite !requested_before_app, requested_before_upsert.
      rewrite orb_true_r. reflexivity.
Qed.

Lemma resolveMediaSegmentType_eq (H : Host) (mediaUrl : jstring) (t : list effect) :
  resolveMediaSegmentType H mediaUrl t =
  match matches_ci (lit "base64://") mediaUrl with
  | Some _ => (Ok (Some (lit "image")), t)
  | None => (Ok (wire_segment_type (mediaKindFromMime H (detectMime H mediaUrl))),
             t ++ [EDetectMime mediaUrl])
  end.
Proof.
  unfold resolveMediaSegmentType, wire_segment_type.
  destruct (matches_ci (lit "base64://") mediaUrl) as [r|].
  - rewrite bool_decide_eq_true_2 by eauto. reflexivity.
  - rewrite bool_decide_eq_false_2 by (intros [? ?]; discriminate).
    unfold bind, emit, ret, jeqb.
    destruct (mediaKindFromMime H (detectMime H mediaUrl)) as [k|].
    + repeat case_bool_decide; simplify_eq; try reflexivity; try congruence.
    + repeat case_bool_decide; simplify_eq; reflexivity.
Qed.

(** C6 (amended).  A media reference that starts with base64:// (in any
    case) is classified as image without a MIME-detection call; any other
    reference is classified by the injected detection, image/audio/video
    becoming the wire segment types image/record/video and anything else
    no classification.  When no classification results, the media send is
    the plain-text send of the caption, a line break and the raw
    reference (the reference alone when the caption is empty): one
    send_private_msg action with a single text segment. *)
Theorem media_classification (H : Host) (accountId : option jstring)
    (to text mediaUrl : jstring) (t : list effect) :
  (is_Some (matches_ci (lit "base64://") mediaUrl) ->
   resolveMediaSegmentType H mediaUrl t = (Ok (Some (lit "image")), t))
  /\ (matches_ci (lit "base64://") mediaUrl = None ->
      resolveMediaSegmentType H mediaUrl t
      = (Ok (wire_segment_type (mediaKindFromMime H (detectMime H mediaUrl))),
         t ++ [EDetectMime mediaUrl]))
  /\ (forall t',
        resolveMediaSegmentType H mediaUrl t = (Ok None, t') ->
        sendNapcatMedia H accountId to text mediaUrl t
        = sendNapcatText H accountId to (caption_and_reference text mediaUrl) t'
        /\ forall userId,
             parseInt10 H (normalizeTarget to) = Some userId ->
             exists r,
               sendNapcatMedia H accountId to text mediaUrl t
               = (r, t' ++ [ESendAction accountId (lit "send_private_msg")
                              (JObj [(lit "user_id", JNum userId);
                                     (lit "message",
                                      JArr [buildTextSegment
                                              (caption_and_reference text mediaUrl)])])])).
Proof.
  rewrite resolveMediaSegmentType_eq.
  split; [intros [r ->]; reflexivity|].
  split; [intros ->; reflexivity|].
  intros t' Hr.
  assert (E : sendNapcatMedia H accountId to text mediaUrl t
              = sendNapcatText H accountId to (caption_and_reference text mediaUrl) t').
  { unfold sendNapcatMedia. unfold bind at 1.
    rewrite resolveMediaSegmentType_eq, Hr.
    unfold caption_and_reference. now destruct text. }
  split; [exact E|].
  intros userId Hu. rewrite E.
  pose proof (sendNapcatText_trace H accountId to (caption_and_reference text mediaUrl) t') as S.
  now rewrite Hu in S.
Qed.

Section Deliver.
Variable H : Host.
Variable route_accountId : option jstring.
Variable to : jstring.
Variable textLimit : N.

Lemma media_loop_rest (caption : jstring) (l : list jstring) (t : list effect) :
  media_loop H route_accountId to caption false l t = for_each l (send_media H route_accountId to []) t.
Proof.
  revert t. induction l as [|u l IH]; intros t; [reflexivity|].
  cbn [media_loop for_each]. unfold send_media, bind.
  destruct (sendNapcatMedia H route_accountId to [] u t) as [[x|e] t1]; [|reflexivity].
  destruct (emit ELastOutboundAt t1) as [[[]|e] t2]; [apply IH | reflexivity].
Qed.

Lemma media_loop_first (caption m : jstring) (ms : list jstring) (t : list effect) :
  media_loop H route_accountId to caption true (m :: ms) t
  = (send_media H route_accountId to caption m ;;
     for_each ms (send_media H route_accountId to [])) t.
Proof.
  cbn [media_loop]. unfold send_media, bind.
  destruct (sendNapcatMedia H route_accountId to caption m t) as [[x|e] t1]; [|reflexivity].
  destruct (emit ELastOutboundAt t1) as [[[]|e] t2]; [apply media_loop_rest | reflexivity].
Qed.

End Deliver.

Lemma for_each_trace {A} (l : list A) (body : A -> M unit) (f : A -> list effect) :
  (forall x t, body x t = (Ok tt, t ++ f x)) ->
  forall t, for_each l body t = (Ok tt, t ++ flat_map f l).
Proof.
  intros Hb. induction l as [|x l IH]; intros t; cbn [for_each flat_map].
  - unfold ret. now rewrite app_nil_r.
  - unfold bind. rewrite Hb, IH. now rewrite <- app_assoc.
Qed.

Section Accepted.
Variable H : Host.
Hypothesis Hacc : accepts H.
Variable accountId : option jstring.
Variable to userId : jstring.
Hypothesis Hto : parseInt10 H (normalizeTarget to) = Some userId.

Lemma send_private_msg_accepted (message : list json) (t : list effect) :
  exists id,
    send_private_msg H accountId userId message t
    = (Ok (mkSent id userId), t ++ [private_msg accountId userId message]).
Proof.
  rewrite send_private_msg_closed. cbv zeta.
  destruct (Hacc t (lit "send_private_msg")
              (JObj [(lit "user_id", JNum userId); (lit "message", JArr message)]))
    as (response & -> & Hn & ->).
  destruct response; [now contradiction Hn|..]; eauto.
Qed.

Lemma sendNapcatText_accepted (text : jstring) (t : list effect) :
  exists id,
    sendNapcatText H accountId to text t
    = (Ok (mkSent id userId), t ++ [private_msg accountId userId [buildTextSegment text]]).
Proof. rewrite sendNapcatText_unfold, Hto. apply send_private_msg_accepted. Qed.

Lemma sendNapcatMedia_accepted (caption mediaUrl : jstring) (t : list effect) :
  exists id,
    sendNapcatMedia H accountId to caption mediaUrl t
    = (Ok (mkSent id userId), t ++ media_effects H accountId userId caption mediaUrl).
Proof.
  unfold sendNapcatMedia, media_effects. unfold bind at 1.
  rewrite resolveMediaSegmentType_eq.
  destruct (matches_ci (lit "base64://") mediaUrl) as [rest|].
  - unfold parseUserId. rewrite Hto. unfold bind, ret.
    apply send_private_msg_accepted.
  - destruct (wire_segment_type _) as [type|].
    + unfold parseUserId. rewrite Hto. unfold bind, ret.
      destruct (send_private_msg_accepted (media_message caption type mediaUrl)
                  (t ++ [EDetectMime mediaUrl])) as [id E].
      exists id. unfold media_message in *. rewrite E. now rewrite <- app_assoc.
    + destruct (sendNapcatText_accepted (caption_and_reference caption mediaUrl)
                  (t ++ [EDetectMime mediaUrl])) as [id E].
      exists id.
      replace (t ++ [EDetectMime mediaUrl;
                     private_msg accountId userId
                       [buildTextSegment (caption_and_reference caption mediaUrl)]])
        with ((t ++ [EDetectMime mediaUrl])
              ++ [private_msg accountId userId
                    [buildTextSegment (caption_and_reference caption mediaUrl)]])
        by now rewrite <- app_assoc.
      rewrite <- E. unfold caption_and_reference. now destruct caption.
Qed.

Variable textLimit : N.

Lemma send_media_accepted (caption mediaUrl : jstring) (t : list effect) :
  send_media H accountId to caption mediaUrl t
  = (Ok tt, t ++ (media_effects H accountId userId caption mediaUrl ++ [ELastOutboundAt])).
Proof.
  unfold send_media, bind. destruct (sendNapcatMedia_accepted caption mediaUrl t) as [id ->].
  unfold emit. now rewrite <- app_assoc.
Qed.

Lemma sendTextChunks_accepted (text : jstring) (t : list effect) :
  sendTextChunks H accountId to textLimit text t
  = (Ok tt,
     t ++ flat_map
            (fun chunk =>
               match chunk with
               | [] => []
               | _ => [private_msg accountId userId
                         [buildTextSegment (sanitizeNapcatText H chunk)];
                       ELastOutboundAt]
               end)
            (match chunkTextWithMode H text textLimit with
             | [] => [text]
             | _ => chunkTextWithMode H text textLimit
             end)).
Proof.
  unfold sendTextChunks. apply for_each_trace. intros [|c chunk] t'.
  - unfold ret. now rewrite app_nil_r.
  - unfold bind. destruct (sendNapcatText_accepted (sanitizeNapcatText H (c :: chunk)) t')
      as [id ->].
    unfold emit. now rewrite <- app_assoc.
Qed.

End Accepted.


(** *** The theorems at concrete inputs *)

Lemma allowlist_policy_witness :
  dmPolicy (Examples.account_with "allowlist" ["123"%string]) = Some (lit "allowlist")
  /\ access_gate Examples.host0 (Examples.account_with "allowlist" ["123"%string])
       (lit "456") (lit "456") (fun _ => ret tt) []
     = (Ok tt, [EReadAllowFromStore]).
Proof.
  split; [reflexivity|].
  apply (allowlist_policy Examples.host0 (Examples.account_with "allowlist" ["123"%string])
           (lit "456") (lit "456") (fun _ => ret tt) [] eq_refl).
  vm_compute. reflexivity.
Defined.

(** With the allow-list ["*"] the sender "456" is authorized although "456"
    is not an entry of the list. *)
Lemma allowlist_wildcard_counterexample :
  ~ (isSenderAllowed (lit "456") (effectiveAllowFrom [JStr (lit "*")] []) = true
     <-> normalizeAllowEntry (JStr (lit "456")) ∈ effectiveAllowFrom [JStr (lit "*")] []).
Proof.
  intros [Hin _]. specialize (Hin eq_refl). vm_compute in Hin.
  apply list_elem_of_singleton in Hin. discriminate Hin.
Qed.

Lemma wildcard_authorizes_everyone_witness :
  lit "*" ∈ effective_allow Examples.host0 (Examples.account_with "pairing" ["*"%string]) []
  /\ access_gate Examples.host0 (Examples.account_with "pairing" ["*"%string])
       (lit "456") (lit "456") (fun _ => ret tt) []
     = (Ok tt, [EReadAllowFromStore]).
Proof.
  assert (Hstar : lit "*" ∈ effective_allow Examples.host0
                               (Examples.account_with "pairing" ["*"%string]) []).
  { vm_compute. apply list_elem_of_singleton. reflexivity. }
  split; [exact Hstar|].
  apply (wildcard_authorizes_everyone Examples.host0 (Examples.account_with "pairing" ["*"%string])
           (lit "456") (lit "456") (fun _ => ret tt) [] (or_intror eq_refl) Hstar).
Defined.

Lemma pairing_policy_witness :
  dmPolicy (Examples.account_with "pairing" ["123"%string]) = Some (lit "pairing")
  /\ isSenderAllowed (lit "456")
       (effective_allow Examples.host0 (Examples.account_with "pairing" ["123"%string]) []) = false
  /\ access_gate Examples.host0 (Examples.account_with "pairing" ["123"%string])
       (lit "456") (lit "Ann") (fun _ => ret tt) []
     = (Ok tt,
        [EReadAllowFromStore;
         EUpsertPairingRequest (lit "456") (lit "Ann");
         private_msg (Some (lit "default")) (lit "456")
           [buildTextSegment (lit "Your QQ: 456 code K7F2")];
         ELastOutboundAt]).
Proof.
  assert (Hp : dmPolicy (Examples.account_with "pairing" ["123"%string]) = Some (lit "pairing"))
    by reflexivity.
  assert (Hn : isSenderAllowed (lit "456")
                 (effective_allow Examples.host0
                    (Examples.account_with "pairing" ["123"%string]) []) = false)
    by (vm_compute; reflexivity).
  assert (Ha : snd (upsertPairingRequest Examples.host0 ([] ++ [EReadAllowFromStore])
                      (lit "456")) = true) by (vm_compute; reflexivity).
  assert (Hu : parseInt10 Examples.host0 (normalizeTarget (formatTarget (lit "456")))
               = Some (lit "456")) by (vm_compute; reflexivity).
  split; [exact Hp|]. split; [exact Hn|].
  pose proof (pairing_policy Examples.host0 (Examples.account_with "pairing" ["123"%string])
                (lit "456") (lit "Ann") (fun _ => ret tt) [] Hp Hn) as P.
  cbv zeta in P. destruct P as (_ & _ & P & _).
  specialize (P (lit "456") Ha Hu).
  vm_compute in P. vm_compute. exact P.
Defined.

(** A sender whose identifier is not a number: the request is new, the
    upsert is recorded, and the handler throws before any reply is sent. *)
Lemma pairing_reply_not_sent_counterexample :
  snd (upsertPairingRequest Examples.host0 [EReadAllowFromStore] (lit "abc")) = true
  /\ handlePrivateMessage Examples.host0 (Examples.account_with "pairing" ["123"%string])
       (Examples.private_message (JStr (lit "abc")) [Examples.text_segment "hello"]) []
     = (Throw (lit "Error: Invalid QQ target: qq:abc"),
        [EReadAllowFromStore; EUpsertPairingRequest (lit "abc") (lit "abc")]).
Proof. vm_compute. split; reflexivity. Qed.

(** Policy allowlist with the configured list ["123"]: the message of
    "qq:123" is recorded and dispatched, the message of "456" ends after
    the store was read. *)
Example allowlist_two_senders :
  let acct := Examples.account_with "allowlist" ["123"%string] in
  snd (handlePrivateMessage Examples.host0 acct
         (Examples.private_message (JStr (lit "qq:123")) [Examples.text_segment "hello"]) [])
  = [EReadAllowFromStore; ERecordInboundSession (lit "dm:qq:123"); ELastInboundAt;
     EDispatch (lit "qq:123") (lit "hello") (lit "hello") true [] [];
     EMarkDispatchIdle]
  /\ snd (handlePrivateMessage Examples.host0 acct
            (Examples.private_message (JNum (lit "456")) [Examples.text_segment "hello"]) [])
     = [EReadAllowFromStore].
Proof. vm_compute. split; reflexivity. Qed.

(** The first message of sender 456 is answered by the pairing reply, the
    second one is not. *)
Example pairing_two_messages :
  let acct := Examples.account_with "pairing" ["123"%string] in
  let event := Examples.private_message (JNum (lit "456")) [Examples.text_segment "hello"] in
  let first := handlePrivateMessage Examples.host0 acct event [] in
  let second := handlePrivateMessage Examples.host0 acct event (snd first) in
  snd first
  = [EReadAllowFromStore; EUpsertPairingRequest (lit "456") (lit "456");
     ESendAction (Some (lit "default")) (lit "send_private_msg")
       (JObj [(lit "user_id", JNum (lit "456"));
              (lit "message", JArr [buildTextSegment (lit "Your QQ: 456 code K7F2")])]);
     ELastOutboundAt]
  /\ snd second
     = snd first ++ [EReadAllowFromStore; EUpsertPairingRequest (lit "456") (lit "456")].
Proof. vm_compute. split; reflexivity. Qed.

Lemma media_classification_witness :
  is_Some (matches_ci (lit "base64://") (lit "BASE64://iVBORw0KGgo="))
  /\ resolveMediaSegmentType Examples.host0 (lit "BASE64://iVBORw0KGgo=") []
     = (Ok (Some (lit "image")), []).
Proof.
  assert (Hb : is_Some (matches_ci (lit "base64://") (lit "BASE64://iVBORw0KGgo="))).
  { vm_compute. eauto. }
  split; [exact Hb|].
  exact (proj1 (media_classification Examples.host0 None (lit "qq:1") [] _ []) Hb).
Defined.

(** A reference in the base64: scheme without the two slashes is handed
    to MIME detection, and is not an image when detection knows no kind. *)
Lemma base64_without_slashes_counterexample :
  has_base64_scheme (lit "base64:iVBORw0KGgo=") = true
  /\ resolveMediaSegmentType Examples.host0 (lit "base64:iVBORw0KGgo=") []
     = (Ok None, [EDetectMime (lit "base64:iVBORw0KGgo=")]).
Proof. vm_compute. split; reflexivity. Qed.


End PipelineFacts.

(** ** The connection *)
Module ConnFacts.
Import Js Conn JsFacts.

(** *** The [Map] operations *)
Lemma Map_delete_filter {A} (k : jstring) (m : list (jstring * A)) :
  Map_delete k m = filter (fun kv => fst kv ≠ k) m.
Proof.
  induction m as [|[k' v] m IH]; [reflexivity|].
  cbn [Map_delete]. unfold jeqb. rewrite IH.
  case_bool_decide as E.
  - subst. rewrite filter_cons_False; [reflexivity|]. cbn. tauto.
  - rewrite filter_cons_True; [reflexivity|]. cbn. congruence.
Qed.

Lemma elem_of_Map_delete {A} (k : jstring) (m : list (jstring * A)) (kv : jstring * A) :
  kv ∈ Map_delete k m <-> fst kv ≠ k /\ kv ∈ m.
Proof. rewrite Map_delete_filter, list_elem_of_filter. reflexivity. Qed.

Lemma Map_delete_sublist {A} (k : jstring) (m : list (jstring * A)) :
  Map_delete k m `sublist_of` m.
Proof. rewrite Map_delete_filter. apply sublist_filter. Qed.

Lemma assoc_elem_of {A} (k : jstring) (v : A) (m : list (jstring * A)) :
  assoc k m = Some v -> (k, v) ∈ m.
Proof.
  induction m as [|[k' v'] m IH]; cbn [assoc]; [discriminate|].
  unfold jeqb. case_bool_decide as E.
  - intros [= ->]. subst. left.
  - intros Hm. right. auto.
Qed.

Lemma assoc_None {A} (k : jstring) (m : list (jstring * A)) :
  assoc k m = None <-> k ∉ fst <$> m.
Proof.
  induction m as [|[k' v'] m IH]; cbn [assoc].
  - split; [intros _; apply not_elem_of_nil | reflexivity].
  - unfold jeqb. rewrite fmap_cons, not_elem_of_cons. cbn [fst].
    case_bool_decide as E; [|tauto]. split; [discriminate | tauto].
Qed.

Lemma elem_of_assoc {A} (k : jstring) (v : A) (m : list (jstring * A)) :
  NoDup (fst <$> m) -> (k, v) ∈ m -> assoc k m = Some v.
Proof.
  induction m as [|[k' v'] m IH]; intros Hnd Hin.
  - now apply elem_of_nil in Hin.
  - rewrite fmap_cons in Hnd. apply NoDup_cons in Hnd as [Hk Hnd].
    cbn [assoc]. unfold jeqb. apply elem_of_cons in Hin as [[= <- <-]|Hin].
    + now rewrite bool_decide_eq_true_2.
    + case_bool_decide as E; [|auto]. subst. exfalso. apply Hk.
      now apply (list_elem_of_fmap_2 fst) in Hin.
Qed.

Lemma assoc_Map_delete_ne {A} (k k' : jstring) (m : list (jstring * A)) :
  k ≠ k' -> assoc k' (Map_delete k m) = assoc k' m.
Proof.
  intros Hne. induction m as [|[k2 v2] m IH]; [reflexivity|].
  cbn [Map_delete assoc]. unfold jeqb.
  repeat case_bool_decide; subst; cbn [assoc]; unfold jeqb;
    rewrite ?bool_decide_eq_true_2, ?bool_decide_eq_false_2 by congruence; congruence.
Qed.

Lemma assoc_Map_delete_eq {A} (k : jstring) (m : list (jstring * A)) :
  assoc k (Map_delete k m) = None.
Proof.
  apply assoc_None. intros Hin. apply list_elem_of_fmap_1 in Hin as ([k' v] & -> & Hin).
  apply elem_of_Map_delete in Hin as [Hne _]. now apply Hne.
Qed.

Lemma Map_set_fresh {A} (k : jstring) (v : A) (m : list (jstring * A)) :
  k ∉ fst <$> m -> Map_set k v m = m ++ [(k, v)].
Proof.
  induction m as [|[k' v'] m IH]; [reflexivity|].
  rewrite fmap_cons, not_elem_of_cons. intros [Hne Hm]. cbn [Map_set fst] in *.
  unfold jeqb. rewrite bool_decide_eq_false_2 by exact Hne. now rewrite IH.
Qed.

(** *** [cleanupPending] *)
Lemma for_of_cons {A} (x : A) (l : list A) (body : A -> handler) (c : state) :
  for_of (x :: l) body c
  = (fst (for_of l body (fst (body x c))), snd (body x c) ++ snd (for_of l body (fst (body x c)))).
Proof.
  unfold for_of. cbn [fold_right]. unfold seq at 1.
  destruct (body x c) as [c1 e1]. cbn [fst snd].
  now destruct (fold_right (fun x k => body x >> k) skip l c1).
Qed.

Lemma cleanup_loop (reason : string) (entries : list (jstring * pendingEntry)) (c : state) :
  for_of entries (fun '(echo, entry) =>
      clearTimeout (timeout entry) >> reject (waiter entry) (lit reason) >> pending_delete echo) c
  = (mkState (delete_all entries (pending c)) (ws c) (stopped c) (echoCounter c)
       (reconnectAttempts c) (clear_all entries (timers c)) (nextTimer c)
       (reject_all reason entries (promises c)) (calls c) (nextCall c),
     cleanup_effects reason entries).
Proof.
  revert c. induction entries as [|[echo entry] entries IH]; intros c.
  - now destruct c.
  - rewrite for_of_cons, IH. destruct c. reflexivity.
Qed.

Lemma delete_all_cons kv (entries p : list (jstring * pendingEntry)) :
  delete_all (kv :: entries) p = delete_all entries (Map_delete (fst kv) p).
Proof. reflexivity. Qed.

Lemma clear_all_cons kv (entries : list (jstring * pendingEntry)) (tm : gmap N timerCallback) :
  clear_all (kv :: entries) tm = clear_all entries (delete (timeout (snd kv)) tm).
Proof. reflexivity. Qed.

Lemma reject_all_cons (reason : string) kv (entries : list (jstring * pendingEntry))
    (pm : gmap N settlement) :
  reject_all reason (kv :: entries) pm
  = reject_all reason entries (settle_in (waiter (snd kv)) (Rejected (lit reason)) pm).
Proof. reflexivity. Qed.

Lemma elem_of_delete_all (entries p : list (jstring * pendingEntry)) kv :
  kv ∈ delete_all entries p <-> kv ∈ p /\ fst kv ∉ fst <$> entries.
Proof.
  revert p. induction entries as [|[k v] entries IH]; intros p.
  - rewrite fmap_nil. split; [intros ?; split; [done|apply not_elem_of_nil] | tauto].
  - rewrite delete_all_cons, IH, elem_of_Map_delete, fmap_cons, not_elem_of_cons. cbn [fst]. tauto.
Qed.

Lemma delete_all_self (entries : list (jstring * pendingEntry)) :
  delete_all entries entries = [].
Proof.
  destruct (delete_all entries entries) as [|kv l] eqn:E; [reflexivity|].
  assert (Hin : kv ∈ delete_all entries entries) by (rewrite E; left).
  apply elem_of_delete_all in Hin as [Hin Hout]. exfalso. apply Hout.
  now apply list_elem_of_fmap_2.
Qed.

Lemma cleanupPending_eq (reason : string) (c : state) :
  cleanupPending reason c = (cleaned reason c, cleanup_effects reason (pending c)).
Proof.
  unfold cleanupPending, reading. rewrite cleanup_loop, delete_all_self. reflexivity.
Qed.

Lemma lookup_clear_all (entries : list (jstring * pendingEntry)) (tm : gmap N timerCallback)
    (h : N) :
  clear_all entries tm !! h
  = if decide (h ∈ (fun kv => timeout (snd kv)) <$> entries) then None else tm !! h.
Proof.
  revert tm. induction entries as [|[k v] entries IH]; intros tm.
  - rewrite decide_False; [reflexivity | apply not_elem_of_nil].
  - rewrite clear_all_cons, IH, fmap_cons. cbn [snd].
    destruct (decide (h = timeout v)) as [->|Hne].
    + rewrite (decide_True (P := timeout v ∈ timeout v :: _)) by left.
      case_decide; [reflexivity | apply lookup_delete_eq].
    + rewrite lookup_delete_ne by congruence.
      destruct (decide (h ∈ (fun kv => timeout (snd kv)) <$> entries)) as [Hin|Hout].
      * rewrite decide_True by now right. reflexivity.
      * rewrite decide_False; [reflexivity|]. rewrite not_elem_of_cons. tauto.
Qed.

Lemma lookup_settle_in (p w : N) (s : settlement) (pm : gmap N settlement) :
  settle_in p s pm !! w
  = match pm !! w with
    | Some s' => Some s'
    | None => if decide (w = p) then Some s else None
    end.
Proof.
  unfold settle_in. destruct (pm !! p) as [s0|] eqn:Ep.
  - destruct (pm !! w) eqn:Ew; [reflexivity|]. case_decide; [congruence | reflexivity].
  - rewrite lookup_insert. case_decide as E; subst.
    + rewrite decide_True by reflexivity. now rewrite Ep.
    + rewrite decide_False by congruence. now destruct (pm !! w).
Qed.

Lemma lookup_reject_all (reason : string) (entries : list (jstring * pendingEntry))
    (pm : gmap N settlement) (w : N) :
  reject_all reason entries pm !! w
  = match pm !! w with
    | Some s => Some s
    | None => if decide (w ∈ (fun kv => waiter (snd kv)) <$> entries)
              then Some (Rejected (lit reason)) else None
    end.
Proof.
  revert pm. induction entries as [|[k v] entries IH]; intros pm.
  - rewrite decide_False by apply not_elem_of_nil. cbn. now destruct (pm !! w).
  - rewrite reject_all_cons, IH, lookup_settle_in, fmap_cons. cbn [snd].
    destruct (pm !! w) as [s|]; [reflexivity|].
    destruct (decide (w = waiter v)) as [->|Hne].
    + rewrite (decide_True (P := waiter v ∈ waiter v :: _)) by left. reflexivity.
    + destruct (decide (w ∈ (fun kv => waiter (snd kv)) <$> entries)) as [Hin|Hout].
      * rewrite decide_True by now right. reflexivity.
      * rewrite decide_False; [reflexivity|]. rewrite not_elem_of_cons. tauto.
Qed.

(** *** The shape of every step *)
Lemma frame_refl (c : state) : frame c c.
Proof. unfold frame. repeat split; auto; lia. Qed.

Lemma frame_trans (c1 c2 c3 : state) : frame c1 c2 -> frame c2 c3 -> frame c1 c3.
Proof.
  intros (P1 & Q1 & T1 & E1 & H1) (P2 & Q2 & T2 & E2 & H2).
  unfold frame. repeat split; try congruence; try lia. eauto.
Qed.

Ltac frame_fields :=
  unfold frame; cbn;
  repeat split; try reflexivity; try lia;
  try (intros ? ? ? ?; rewrite ?lookup_insert, ?lookup_delete;
       repeat case_decide; try discriminate; try tauto).

Lemma on_open_shape (c : state) : step_shape c (on_open c).
Proof.
  unfold on_open, seq, modify, out. destruct c; cbn.
  apply shape_frame; [frame_fields | reflexivity].
Qed.

Lemma on_closing_shape (c : state) : step_shape c (on_closing c).
Proof.
  unfold on_closing, modify. destruct c; cbn.
  apply shape_frame; [frame_fields | reflexivity].
Qed.

Lemma on_error_shape (c : state) : step_shape c (on_error c).
Proof. apply shape_frame; [apply frame_refl | reflexivity]. Qed.

Lemma on_message_match (payload : json) (entry : pendingEntry) (c : state) :
  isEventPayload payload = false ->
  is_object payload && has_key "echo" payload = true ->
  assoc (echo_of payload) (pending c) = Some entry ->
  on_message (Some payload) c
  = (request_done (echo_of payload) entry (Fulfilled payload) c,
     [EClearTimeout (timeout entry); EResolve (waiter entry) payload]).
Proof.
  intros He Ho Ha. unfold on_message. rewrite He, Ho.
  unfold reading. rewrite Ha.
  unfold clearTimeout, pending_delete, resolve, settle, reading, seq, modify, out.
  destruct c; reflexivity.
Qed.

Lemma on_message_drop (payload : json) (c : state) :
  isEventPayload payload = false ->
  is_object payload && has_key "echo" payload = false
  \/ assoc (echo_of payload) (pending c) = None ->
  on_message (Some payload) c = (c, []).
Proof.
  intros He Hd. unfold on_message. rewrite He.
  destruct (is_object payload && has_key "echo" payload); [|reflexivity].
  destruct Hd as [Hd|Hd]; [discriminate|]. unfold reading. now rewrite Hd.
Qed.

Lemma on_message_shape (frame : option json) (c : state) : step_shape c (on_message frame c).
Proof.
  destruct frame as [payload|].
  - destruct (isEventPayload payload) eqn:He.
    + unfold on_message. rewrite He. apply shape_frame; [apply frame_refl | reflexivity].
    + destruct (is_object payload && has_key "echo" payload) eqn:Ho.
      * destruct (assoc (echo_of payload) (pending c)) as [entry|] eqn:Ha.
        -- rewrite (on_message_match _ _ _ He Ho Ha).
           apply shape_done.
           ++ intros _. now apply assoc_elem_of.
           ++ intros w. unfold settlements. cbn. now destruct (w =? waiter entry).
        -- rewrite on_message_drop by auto.
           apply shape_frame; [apply frame_refl | reflexivity].
      * rewrite on_message_drop by auto.
        apply shape_frame; [apply frame_refl | reflexivity].
  - apply shape_frame; [apply frame_refl | reflexivity].
Qed.

Lemma stop_eq (c : state) :
  stop c
  = (with_ws None (cleaned "WebSocket stopped" (with_stopped true c)),
     cleanup_effects "WebSocket stopped" (pending c)
     ++ match ws c with Some _ => [EWsClose] | None => [] end).
Proof.
  unfold stop. unfold seq at 1, modify at 1. unfold seq at 1.
  rewrite cleanupPending_eq. unfold seq, reading, modify, out, skip.
  destruct c as [p [w|] st e r t n q k m]; cbn; now rewrite ?app_nil_r.
Qed.

Lemma stop_shape (c : state) : step_shape c (stop c).
Proof.
  rewrite stop_eq.
  rewrite <- (app_nil_l (cleanup_effects _ _ ++ _)).
  apply (shape_cleanup c "WebSocket stopped" (with_stopped true c)).
  - destruct c; frame_fields.
  - destruct c; frame_fields.
  - reflexivity.
  - now destruct (ws c).
Qed.

Lemma cleaned_empty (reason : string) (c : state) :
  pending c = [] -> cleaned reason c = c.
Proof. destruct c; cbn. now intros ->. Qed.

Lemma on_close_running (c : state) :
  stopped c = false ->
  on_close false c
  = (scheduled (cleaned "WebSocket closed" (with_ws None c)),
     [EOnDisconnected] ++ cleanup_effects "WebSocket closed" (pending c)
     ++ [ESetTimeout (nextTimer c) Connect (reconnect_delay (reconnectAttempts c))]).
Proof.
  intros Hs. unfold on_close.
  unfold seq at 1, modify at 1. unfold seq at 1, out at 1. unfold seq at 1, skip at 1.
  unfold seq at 1. rewrite cleanupPending_eq.
  unfold reading, setTimeout, reading, seq, modify, out.
  destruct c as [p w st e r t n q k m]; cbn in *. subst st. cbn.
  now rewrite ?app_nil_r.
Qed.

Lemma on_close_stopped (c : state) :
  stopped c = true ->
  on_close false c
  = (cleaned "WebSocket closed" (with_ws None c),
     [EOnDisconnected] ++ cleanup_effects "WebSocket closed" (pending c)).
Proof.
  intros Hs. unfold on_close.
  unfold seq at 1, modify at 1. unfold seq at 1, out at 1. unfold seq at 1, skip at 1.
  unfold seq at 1. rewrite cleanupPending_eq.
  unfold reading, skip.
  destruct c as [p w st e r t n q k m]; cbn in *. subst st. cbn.
  now rewrite ?app_nil_r.
Qed.

Lemma on_close_stopping (c : state) :
  on_close true c
  = (with_ws None (cleaned "WebSocket stopped" (with_stopped true c)),
     [EOnDisconnected] ++ cleanup_effects "WebSocket stopped" (pending c)).
Proof.
  unfold on_close.
  unfold seq at 1, modify at 1. unfold seq at 1, out at 1. unfold seq at 1.
  rewrite stop_eq. unfold seq at 1. rewrite cleanupPending_eq.
  unfold reading, skip.
  destruct c as [p w st e r t n q k m]; cbn. now rewrite ?app_nil_r.
Qed.

Lemma on_close_shape (b : bool) (c : state) : step_shape c (on_close b c).
Proof.
  destruct b.
  - rewrite on_close_stopping.
    rewrite <- (app_nil_r (cleanup_effects _ _)).
    apply (shape_cleanup c "WebSocket stopped" (with_stopped true c));
      try reflexivity; destruct c; frame_fields.
  - destruct (stopped c) eqn:Hs.
    + rewrite on_close_stopped by exact Hs.
      rewrite <- (app_nil_r (cleanup_effects _ _)).
      apply (shape_cleanup c "WebSocket closed" (with_ws None c));
        try reflexivity; destruct c; frame_fields.
    + rewrite on_close_running by exact Hs.
      apply (shape_cleanup c "WebSocket closed" (with_ws None c));
        try reflexivity; destruct c; frame_fields.
Qed.

Section Shapes.
Variable appendAccessToken : jstring -> option jstring -> jstring.
Variable buildHttpUrl : jstring -> jstring -> option jstring -> jstring + jstring.
Variable opts : options.

Lemma connect_shape (c : state) : step_shape c (connect appendAccessToken opts c).
Proof.
  unfold connect, reading, skip, seq, modify, out. destruct c as [p w [] e r t n q k m]; cbn.
  - apply shape_frame; [apply frame_refl | reflexivity].
  - apply shape_frame; [frame_fields | reflexivity].
Qed.

Lemma on_timer_request (h : N) (echo : jstring) (w : N) (action : jstring) (c : state) :
  timers c !! h = Some (RequestTimeout echo w action) ->
  on_timer appendAccessToken opts h c
  = (request_done echo (mkEntry w h) (Rejected (timeout_error action)) c,
     [EReject w (timeout_error action)]).
Proof.
  intros Ht. unfold on_timer, reading. rewrite Ht.
  unfold pending_delete, reject, settle, seq, modify, out. destruct c; reflexivity.
Qed.

Lemma on_timer_shape (h : N) (c : state) : step_shape c (on_timer appendAccessToken opts h c).
Proof.
  destruct (timers c !! h) as [[echo w action|]|] eqn:Ht.
  - rewrite (on_timer_request _ _ _ _ _ Ht). apply shape_done.
    + intros (_ & _ & _ & Htm & _). eapply Htm, Ht.
    + intros w'. unfold settlements. cbn. now destruct (w' =? w).
  - unfold on_timer, reading. rewrite Ht.
    unfold connect, reading, skip, seq, modify, out.
    destruct c as [p w [] e r t n q k m]; cbn in *.
    + apply shape_frame; [frame_fields | reflexivity].
    + apply shape_frame; [frame_fields | reflexivity].
  - unfold on_timer, reading. rewrite Ht. apply shape_frame; [apply frame_refl | reflexivity].
Qed.

Lemma sendActionHttp_shape (call : N) (action : jstring) (params : option json) (c : state) :
  step_shape c (sendActionHttp buildHttpUrl opts call action params c).
Proof.
  unfold sendActionHttp, fail_call, end_call, set_call, seq, modify, out.
  destruct (negb (truthy (httpUrl opts))); [|destruct (buildHttpUrl _ _ _)];
    destruct c; cbn; (apply shape_frame; [frame_fields | reflexivity]).
Qed.

Lemma sendAction_catch_shape (call : N) (action : jstring) (params : option json)
    (err : jstring) (c : state) :
  step_shape c (sendAction_catch buildHttpUrl opts call action params err c).
Proof.
  unfold sendAction_catch, sendActionHttp, fail_call, end_call, set_call, seq, modify, out.
  destruct (truthy (httpUrl opts)); cbn [negb];
    [destruct (buildHttpUrl _ _ _)|];
    destruct c; cbn; (apply shape_frame; [frame_fields | reflexivity]).
Qed.

(** [sendAction] on an open socket registers the request; [ws.send]
    follows unless it throws. *)

Lemma sendAction_open (action : jstring) (params : option json)
    (send_throws : option jstring) (c : state) :
  isConnected c = true ->
  sendAction buildHttpUrl opts action params send_throws c
  = (registered action
       (match send_throws with
        | Some err => WsThrew action params err
        | None => AwaitWs action params
        end) c,
     ESetTimeout (nextTimer c)
       (RequestTimeout (String_N (echoCounter c + 1)) (nextCall c) action) REQUEST_TIMEOUT_MS
     :: match send_throws with
        | Some _ => []
        | None => [EWsSend action params (String_N (echoCounter c + 1))]
        end).
Proof.
  intros Hc. unfold sendAction, reading. rewrite Hc.
  unfold sendActionWs, reading, seq at 1, modify at 1. unfold isConnected in *.
  destruct c as [p w st e r t n q k m]. cbn in Hc |- *.
  destruct w as [[]|]; try discriminate. cbn.
  destruct send_throws; reflexivity.
Qed.

Lemma sendAction_closed (action : jstring) (params : option json)
    (send_throws : option jstring) (c : state) :
  isConnected c = false ->
  sendAction buildHttpUrl opts action params send_throws c
  = (fst (sendActionHttp buildHttpUrl opts (nextCall c) action params
            (with_calls (calls c) (N.succ (nextCall c)) c)),
     snd (sendActionHttp buildHttpUrl opts (nextCall c) action params
            (with_calls (calls c) (N.succ (nextCall c)) c))).
Proof.
  intros Hc. unfold sendAction, reading. rewrite Hc.
  unfold seq at 1, modify at 1.
  now destruct (sendActionHttp _ _ _ _ _ _).
Qed.

Lemma sendAction_shape (action : jstring) (params : option json)
    (send_throws : option jstring) (c : state) :
  step_shape c (sendAction buildHttpUrl opts action params send_throws c).
Proof.
  destruct (isConnected c) eqn:Hc.
  - rewrite sendAction_open by exact Hc. apply shape_registered.
    now destruct send_throws.
  - rewrite sendAction_closed by exact Hc.
    unfold sendActionHttp, fail_call, end_call, set_call, seq, modify, out.
    destruct (negb (truthy (httpUrl opts))); [|destruct (buildHttpUrl _ _ _)];
      destruct c; cbn; (apply shape_frame; [frame_fields | reflexivity]).
Qed.

Lemma sendAction_resume_shape (call : N) (c : state) :
  step_shape c (sendAction_resume buildHttpUrl opts call c).
Proof.
  unfold sendAction_resume, reading.
  destruct (calls c !! call) as [[a p|a p e|a]|].
  - destruct (promises c !! call) as [[v|e]|].
    + unfold fulfil, end_call, seq, modify, out. destruct c; cbn.
      apply shape_frame; [frame_fields | reflexivity].
    + apply sendAction_catch_shape.
    + apply shape_frame; [apply frame_refl | reflexivity].
  - apply sendAction_catch_shape.
  - apply shape_frame; [apply frame_refl | reflexivity].
  - apply shape_frame; [apply frame_refl | reflexivity].
Qed.

Lemma on_fetch_done_shape (call : N) (r : fetchResult) (c : state) :
  step_shape c (on_fetch_done call r c).
Proof.
  unfold on_fetch_done, reading.
  destruct (calls c !! call) as [[a p|a p e|a]|];
    try (apply shape_frame; [apply frame_refl | reflexivity]).
  unfold fail_call, fulfil, end_call, seq, modify, out.
  destruct r; destruct c; cbn; (apply shape_frame; [frame_fields | reflexivity]).
Qed.

(** The close handler while the connection runs on. *)

(** The close handler after [stop()]. *)

(** The close handler whose [onDisconnected] callback calls [stop()]. *)

Lemma step_has_shape (i : input) (c : state) :
  step_shape c (step appendAccessToken buildHttpUrl opts i c).
Proof.
  destruct i; cbn [step].
  - apply on_open_shape.
  - apply on_closing_shape.
  - apply on_close_shape.
  - apply on_error_shape.
  - apply on_message_shape.
  - apply on_timer_shape.
  - apply sendAction_shape.
  - apply sendAction_resume_shape.
  - apply on_fetch_done_shape.
  - apply stop_shape.
Qed.

End Shapes.

(** *** The invariant *)
Lemma NoDup_fmap_elem_inj {A B} (f : A -> B) (l : list A) (x y : A) :
  NoDup (f <$> l) -> x ∈ l -> y ∈ l -> f x = f y -> x = y.
Proof.
  induction l as [|z l IH]; intros Hnd Hx Hy Hf.
  - now apply elem_of_nil in Hx.
  - rewrite fmap_cons in Hnd. apply NoDup_cons in Hnd as [Hz Hnd].
    apply elem_of_cons in Hx as [->|Hx]; apply elem_of_cons in Hy as [->|Hy].
    + reflexivity.
    + exfalso. apply Hz. rewrite Hf. now apply list_elem_of_fmap_2.
    + exfalso. apply Hz. rewrite <- Hf. now apply list_elem_of_fmap_2.
    + now apply IH.
Qed.

Lemma wf_frame (c c' : state) : frame c c' -> wf c -> wf c'.
Proof.
  intros (P & Q & T & He & Hn) (W1 & W2 & W3 & W4 & W5).
  unfold wf. rewrite P, Q.
  split; [exact W1|]. split; [exact W2|]. split; [|split].
  - intros echo entry Hin. destruct (W3 _ _ Hin) as (Hp & Hc & k & Hk & Hle).
    split; [exact Hp|]. split; [lia|]. exists k. split; [exact Hk | lia].
  - intros h echo w a Ht. apply T in Ht. now apply W4 in Ht.
  - intros w s Hs. apply W5 in Hs. lia.
Qed.

Lemma wf_cleaned (reason : string) (c : state) : wf c -> wf (cleaned reason c).
Proof.
  intros (W1 & W2 & W3 & W4 & W5). unfold wf, cleaned. cbn.
  split; [apply NoDup_nil_2|]. split; [apply NoDup_nil_2|]. split; [|split].
  - intros echo entry Hin. now apply elem_of_nil in Hin.
  - intros h echo w a. rewrite lookup_clear_all. case_decide as Hh; [discriminate|].
    intros Ht. apply W4 in Ht. exfalso. apply Hh.
    now apply (list_elem_of_fmap_2 (fun kv => timeout (snd kv))) in Ht.
  - intros w s. rewrite lookup_reject_all.
    destruct (promises c !! w) as [s'|] eqn:Ew.
    + intros _. now apply W5 in Ew.
    + case_decide as Hw; [|discriminate]. intros _.
      apply list_elem_of_fmap_1 in Hw as ([echo entry] & -> & Hin).
      now apply W3 in Hin.
Qed.

Lemma wf_request_done (echo : jstring) (entry : pendingEntry) (s : settlement) (c : state) :
  wf c -> (echo, entry) ∈ pending c -> wf (request_done echo entry s c).
Proof.
  intros (W1 & W2 & W3 & W4 & W5) Hin. unfold wf, request_done. cbn.
  split; [|split; [|split; [|split]]].
  - eapply sublist_NoDup; [exact W1|]. apply fmap_sublist, Map_delete_sublist.
  - eapply sublist_NoDup; [exact W2|]. apply fmap_sublist, Map_delete_sublist.
  - intros echo' entry' Hin'. apply elem_of_Map_delete in Hin' as [Hne Hin']. cbn in Hne.
    destruct (W3 _ _ Hin') as (Hp & Hc & Hk). split; [|split; assumption].
    rewrite lookup_settle_in, Hp. rewrite decide_False; [reflexivity|].
    intros Hw. apply Hne.
    assert (Heq : (echo', entry') = (echo, entry)).
    { apply (NoDup_fmap_elem_inj (fun kv => waiter (snd kv)) (pending c)); assumption. }
    congruence.
  - intros h echo' w a Ht. apply lookup_delete_Some in Ht as [Hh Ht].
    apply W4 in Ht. apply elem_of_Map_delete. split; [|assumption]. cbn.
    intros ->. apply Hh.
    assert (Heq : (echo, mkEntry w h) = (echo, entry)).
    { apply (NoDup_fmap_elem_inj fst (pending c)); auto. }
    injection Heq as <-. reflexivity.
  - intros w s'. rewrite lookup_settle_in.
    destruct (promises c !! w) as [s0|] eqn:Ew.
    + intros _. now apply W5 in Ew.
    + case_decide as Hw; [|discriminate]. subst w. intros _. now apply W3 in Hin.
Qed.

Lemma fresh_echo (c : state) :
  wf c -> String_N (echoCounter c + 1) ∉ fst <$> pending c.
Proof.
  intros (_ & _ & W3 & _) Hin.
  apply list_elem_of_fmap_1 in Hin as ([echo entry] & Heq & Hin). cbn in Heq. subst echo.
  destruct (W3 _ _ Hin) as (_ & _ & k & Hk & Hle).
  apply String_N_inj in Hk. lia.
Qed.

Lemma wf_registered (action : jstring) (st : callState) (c : state) :
  wf c -> wf (registered action st c).
Proof.
  intros W. pose proof (fresh_echo c W) as Hfresh.
  destruct W as (W1 & W2 & W3 & W4 & W5). unfold wf, registered. cbn.
  rewrite (Map_set_fresh _ _ _ Hfresh), !fmap_app. cbn.
  split; [|split; [|split; [|split]]].
  - apply NoDup_app. split; [exact W1|]. split; [|apply NoDup_singleton].
    intros x Hx Hx'. apply list_elem_of_singleton in Hx'. now subst.
  - apply NoDup_app. split; [exact W2|]. split; [|apply NoDup_singleton].
    intros x Hx Hx'. apply list_elem_of_singleton in Hx'. subst.
    apply list_elem_of_fmap_1 in Hx as ([echo entry] & Heq & Hin).
    apply W3 in Hin as (_ & Hlt & _). cbn in Heq. lia.
  - intros echo entry Hin. apply elem_of_app in Hin as [Hin|Hin].
    + destruct (W3 _ _ Hin) as (Hp & Hc & k & Hk & Hle).
      split; [exact Hp|]. split; [lia|]. exists k. split; [exact Hk | lia].
    + apply list_elem_of_singleton in Hin. injection Hin as -> ->. cbn.
      split; [|split; [lia|]].
      * destruct (promises c !! nextCall c) as [s|] eqn:E; [|reflexivity].
        apply W5 in E. lia.
      * exists (echoCounter c + 1). split; [reflexivity | lia].
  - intros h echo w a. rewrite lookup_insert. case_decide as Hh.
    + intros [= <- <- <-]. subst h. apply elem_of_app. right. left.
    + intros Ht. apply elem_of_app. left. now apply W4 in Ht.
  - intros w s Hs. apply W5 in Hs. lia.
Qed.

(** *** Counting settlements *)
Lemma settlements_app (w : N) (a b : list output) :
  settlements w (a ++ b) = (settlements w a + settlements w b)%nat.
Proof. unfold settlements. now rewrite List.filter_app, length_app. Qed.

Lemma settlements_no_settle (w : N) (es : list output) :
  no_settle es = true -> settlements w es = 0%nat.
Proof.
  unfold settlements, no_settle. induction es as [|e es IH]; [reflexivity|].
  cbn [forallb List.filter]. intros Hb. apply andb_true_iff in Hb as [He Hes].
  destruct e; try discriminate; cbn [is_settle]; auto.
Qed.

Lemma settlements_cleanup (w : N) (reason : string) (entries : list (jstring * pendingEntry)) :
  NoDup ((fun kv => waiter (snd kv)) <$> entries) ->
  settlements w (cleanup_effects reason entries)
  = if decide (w ∈ (fun kv => waiter (snd kv)) <$> entries) then 1%nat else 0%nat.
Proof.
  induction entries as [|[echo entry] entries IH]; intros Hnd.
  - rewrite decide_False by apply not_elem_of_nil. reflexivity.
  - rewrite fmap_cons in Hnd |- *. apply NoDup_cons in Hnd as [Hnew Hnd]. cbn [snd] in *.
    change (cleanup_effects reason ((echo, entry) :: entries))
      with ([EClearTimeout (timeout entry); EReject (waiter entry) (lit reason)]
            ++ cleanup_effects reason entries).
    rewrite settlements_app, (IH Hnd). unfold settlements at 1. cbn.
    destruct (N.eqb_spec w (waiter entry)) as [->|Hne].
    + rewrite (decide_True (P := waiter entry ∈ waiter entry :: _)) by left.
      now rewrite decide_False by exact Hnew.
    + destruct (decide (w ∈ (fun kv => waiter (snd kv)) <$> entries)) as [Hin|Hout].
      * rewrite decide_True by now right. reflexivity.
      * rewrite decide_False; [reflexivity|]. rewrite not_elem_of_cons. tauto.
Qed.

(** What one step does to the invariant and to each promise: it is settled
    at most once, never when it was settled before, and stays settled. *)
Lemma shape_sound (c : state) (r : state * list output) :
  wf c -> step_shape c r ->
  wf (fst r)
  /\ forall w,
       (settlements w (snd r) <= 1)%nat
       /\ (is_Some (promises c !! w) -> settlements w (snd r) = 0%nat)
       /\ (settlements w (snd r) <> 0%nat -> is_Some (promises (fst r) !! w))
       /\ (is_Some (promises c !! w) -> is_Some (promises (fst r) !! w)).
Proof.
  intros W S. destruct S as [c' es F Q | echo entry s es Hin Hs | action st es Q
                            | reason c0 c' pre post F0 F1 Q1 Q2]; cbn [fst snd].
  - split; [now apply (wf_frame c)|]. intros w.
    rewrite (settlements_no_settle _ _ Q). destruct F as (_ & -> & _).
    repeat split; auto. congruence.
  - specialize (Hin W). split; [now apply wf_request_done|]. intros w. rewrite Hs.
    destruct W as (_ & _ & W3 & _). destruct (W3 _ _ Hin) as (Hp & _).
    unfold request_done. cbn. rewrite lookup_settle_in.
    destruct (N.eqb_spec w (waiter entry)) as [->|Hne].
    + rewrite Hp. rewrite decide_True by reflexivity.
      repeat split; eauto. intros [x Hx]. discriminate.
    + repeat split; auto; try congruence.
      destruct (promises c !! w); [eauto | intros [x Hx]; discriminate].
  - split; [now apply wf_registered|]. intros w.
    rewrite (settlements_no_settle _ _ Q). unfold registered. cbn.
    repeat split; auto. congruence.
  - split; [apply (wf_frame (cleaned reason c0)); [exact F1|];
            apply wf_cleaned, (wf_frame c); assumption|].
    intros w. rewrite !settlements_app, (settlements_no_settle _ _ Q1),
                (settlements_no_settle _ _ Q2), Nat.add_0_l, Nat.add_0_r.
    destruct W as (_ & W2 & W3 & _). rewrite (settlements_cleanup _ _ _ W2).
    destruct F0 as (P0 & Q0 & _). destruct F1 as (_ & Qc & _).
    rewrite Qc. unfold cleaned. cbn. rewrite lookup_reject_all, P0, Q0.
    destruct (decide (w ∈ (fun kv => waiter (snd kv)) <$> pending c)) as [Hw|Hw].
    + apply list_elem_of_fmap_1 in Hw as ([echo entry] & -> & Hin).
      destruct (W3 _ _ Hin) as (Hp & _). cbn [snd]. rewrite Hp.
      repeat split; eauto. intros [x Hx]. discriminate.
    + repeat split; auto; try congruence.
      destruct (promises c !! w); [eauto | intros [x Hx]; discriminate].
Qed.

Section Runs.
Variable appendAccessToken : jstring -> option jstring -> jstring.
Variable buildHttpUrl : jstring -> jstring -> option jstring -> jstring + jstring.
Variable opts : options.


Lemma run_cons (i : input) (ins : list input) (c : state) :
  run appendAccessToken buildHttpUrl opts (i :: ins) c
  = (fst (run appendAccessToken buildHttpUrl opts ins (fst (step appendAccessToken buildHttpUrl opts i c))), snd (step appendAccessToken buildHttpUrl opts i c) ++ snd (run appendAccessToken buildHttpUrl opts ins (fst (step appendAccessToken buildHttpUrl opts i c)))).
Proof. apply for_of_cons. Qed.

Lemma run_sound (ins : list input) (c : state) :
  wf c ->
  wf (fst (run appendAccessToken buildHttpUrl opts ins c))
  /\ forall w,
       (settlements w (snd (run appendAccessToken buildHttpUrl opts ins c)) <= 1)%nat
       /\ (is_Some (promises c !! w) -> settlements w (snd (run appendAccessToken buildHttpUrl opts ins c)) = 0%nat)
       /\ (settlements w (snd (run appendAccessToken buildHttpUrl opts ins c)) <> 0%nat -> is_Some (promises (fst (run appendAccessToken buildHttpUrl opts ins c)) !! w))
       /\ (is_Some (promises c !! w) -> is_Some (promises (fst (run appendAccessToken buildHttpUrl opts ins c)) !! w)).
Proof.
  revert c. induction ins as [|i ins IH]; intros c W.
  - cbn. split; [exact W|]. intros w. repeat split; auto. intros []. reflexivity.
  - rewrite run_cons. cbn [fst snd].
    destruct (shape_sound c _ W (step_has_shape appendAccessToken buildHttpUrl opts i c))
      as [W1 S1].
    destruct (IH _ W1) as [W2 S2]. split; [exact W2|]. intros w.
    destruct (S1 w) as (A1 & A2 & A3 & A4). destruct (S2 w) as (B1 & B2 & B3 & B4).
    rewrite settlements_app.
    destruct (Nat.eq_dec (settlements w (snd (step appendAccessToken buildHttpUrl opts i c))) 0%nat) as [Z|NZ].
    + rewrite Z. cbn [Nat.add]. split; [exact B1|]. split; [|split]; auto.
    + rewrite (B2 (A3 NZ)), Nat.add_0_r. split; [exact A1|]. split; [exact A2|].
      split; auto.
Qed.

Lemma wf_fresh : wf fresh.
Proof.
  unfold wf, fresh. cbn.
  split; [apply NoDup_nil_2|]. split; [apply NoDup_nil_2|]. split; [|split].
  - intros echo entry Hin. now apply elem_of_nil in Hin.
  - intros h echo w a Ht. now rewrite lookup_empty in Ht.
  - intros w s Hs. now rewrite lookup_empty in Hs.
Qed.

Lemma wf_reachable (c : state) : reachable appendAccessToken buildHttpUrl opts c -> wf c.
Proof.
  intros [ins ->]. apply run_sound.
  destruct (shape_sound fresh _ wf_fresh (connect_shape appendAccessToken buildHttpUrl opts fresh)) as [W _].
  exact W.
Qed.

End Runs.

(** *** Running connections *)
Section Fields.
Variable appendAccessToken : jstring -> option jstring -> jstring.
Variable buildHttpUrl : jstring -> jstring -> option jstring -> jstring + jstring.
Variable opts : options.

Lemma on_message_fields (frame : option json) (c : state) :
  stopped (fst (on_message frame c)) = stopped c
  /\ reconnectAttempts (fst (on_message frame c)) = reconnectAttempts c.
Proof.
  destruct frame as [payload|]; [|now unfold on_message].
  destruct (isEventPayload payload) eqn:He; [unfold on_message; now rewrite He|].
  destruct (is_object payload && has_key "echo" payload) eqn:Ho;
    [|now rewrite on_message_drop by auto].
  destruct (assoc (echo_of payload) (pending c)) as [entry|] eqn:Ha;
    [|now rewrite on_message_drop by auto].
  rewrite (on_message_match _ _ _ He Ho Ha). now destruct c.
Qed.

Lemma on_timer_fields (h : N) (c : state) :
  stopped (fst (on_timer appendAccessToken opts h c)) = stopped c
  /\ reconnectAttempts (fst (on_timer appendAccessToken opts h c)) = reconnectAttempts c.
Proof.
  destruct (timers c !! h) as [[echo w action|]|] eqn:Ht.
  - erewrite on_timer_request by exact Ht. now destruct c.
  - unfold on_timer, reading. rewrite Ht.
    unfold connect, reading, skip, seq, modify, out.
    now destruct c as [p w [] e r t n q k m].
  - unfold on_timer, reading. rewrite Ht. now destruct c.
Qed.

Lemma sendActionHttp_fields (call : N) (action : jstring) (params : option json) (c : state) :
  stopped (fst (sendActionHttp buildHttpUrl opts call action params c)) = stopped c
  /\ reconnectAttempts (fst (sendActionHttp buildHttpUrl opts call action params c))
     = reconnectAttempts c.
Proof.
  unfold sendActionHttp, fail_call, end_call, set_call, seq, modify, out.
  destruct (negb (truthy (httpUrl opts))); [|destruct (buildHttpUrl _ _ _)];
    now destruct c.
Qed.

Lemma sendAction_catch_fields (call : N) (action : jstring) (params : option json)
    (err : jstring) (c : state) :
  stopped (fst (sendAction_catch buildHttpUrl opts call action params err c)) = stopped c
  /\ reconnectAttempts (fst (sendAction_catch buildHttpUrl opts call action params err c))
     = reconnectAttempts c.
Proof.
  unfold sendAction_catch, sendActionHttp, fail_call, end_call, set_call, seq, modify, out.
  destruct (truthy (httpUrl opts)); cbn [negb]; [destruct (buildHttpUrl _ _ _)|];
    now destruct c.
Qed.

Lemma sendAction_fields (action : jstring) (params : option json)
    (send_throws : option jstring) (c : state) :
  stopped (fst (sendAction buildHttpUrl opts action params send_throws c)) = stopped c
  /\ reconnectAttempts (fst (sendAction buildHttpUrl opts action params send_throws c))
     = reconnectAttempts c.
Proof.
  destruct (isConnected c) eqn:Hc.
  - rewrite sendAction_open by exact Hc. destruct c, send_throws; auto.
  - rewrite sendAction_closed by exact Hc. cbn [fst snd].
    destruct (sendActionHttp_fields (nextCall c) action params
                (with_calls (calls c) (N.succ (nextCall c)) c)) as (-> & ->).
    now destruct c.
Qed.

Lemma sendAction_resume_fields (call : N) (c : state) :
  stopped (fst (sendAction_resume buildHttpUrl opts call c)) = stopped c
  /\ reconnectAttempts (fst (sendAction_resume buildHttpUrl opts call c)) = reconnectAttempts c.
Proof.
  unfold sendAction_resume, reading.
  destruct (calls c !! call) as [[a p|a p e|a]|]; auto using sendAction_catch_fields.
  destruct (promises c !! call) as [[v|e]|]; auto using sendAction_catch_fields.
Qed.

Lemma on_fetch_done_fields (call : N) (r : fetchResult) (c : state) :
  stopped (fst (on_fetch_done call r c)) = stopped c
  /\ reconnectAttempts (fst (on_fetch_done call r c)) = reconnectAttempts c.
Proof.
  unfold on_fetch_done, reading.
  destruct (calls c !! call) as [[a p|a p e|a]|]; auto.
  unfold fail_call, fulfil, end_call, seq, modify, out. destruct r; now destruct c.
Qed.

(** While it runs on, the connection counts its closures. *)
Lemma step_running (i : input) (c : state) :
  keeps_running i = true ->
  stopped c = false ->
  stopped (fst (step appendAccessToken buildHttpUrl opts i c)) = false
  /\ reconnectAttempts (fst (step appendAccessToken buildHttpUrl opts i c))
     = reconnectAttempts c + N.of_nat (closures [i]).
Proof.
  intros Hi Hs. destruct i as [| |b| |frame|h|a p t|call|call r|]; cbn [step];
    try discriminate; try (change (N.of_nat (closures [_])) with 0); rewrite ?N.add_0_r.
  - now destruct c.
  - destruct b; [discriminate|]. rewrite on_close_running by exact Hs.
    destruct c; cbn in *. split; [auto | lia].
  - now split.
  - destruct (on_message_fields frame c) as (-> & ->). now split.
  - destruct (on_timer_fields h c) as (-> & ->). now split.
  - destruct (sendAction_fields a p t c) as (-> & ->). now split.
  - destruct (sendAction_resume_fields call c) as (-> & ->). now split.
  - destruct (on_fetch_done_fields call r c) as (-> & ->). now split.
Qed.

Lemma closures_cons (i : input) (ins : list input) :
  closures (i :: ins) = (closures [i] + closures ins)%nat.
Proof. unfold closures. cbn. now destruct i. Qed.

Lemma run_running (ins : list input) (c : state) :
  forallb keeps_running ins = true ->
  stopped c = false ->
  stopped (fst (run appendAccessToken buildHttpUrl opts ins c)) = false
  /\ reconnectAttempts (fst (run appendAccessToken buildHttpUrl opts ins c))
     = reconnectAttempts c + N.of_nat (closures ins).
Proof.
  revert c. induction ins as [|i ins IH]; intros c Hk Hs.
  - cbn. split; [exact Hs | lia].
  - cbn [forallb] in Hk. apply andb_true_iff in Hk as [Hi Hk].
    rewrite run_cons. cbn [fst].
    destruct (step_running i c Hi Hs) as [H1 H2]. destruct (IH _ Hk H1) as [H3 H4].
    split; [exact H3|]. rewrite (closures_cons i ins), Nat2N.inj_add, H4, H2. lia.
Qed.

End Fields.

(** *** Stopped connections *)
Lemma torn_down_stop (c : state) : wf c -> torn_down (fst (stop c)).
Proof.
  intros (_ & _ & _ & W4 & _). rewrite stop_eq. unfold torn_down. cbn.
  split; [now destruct c|]. split; [reflexivity|]. split; [reflexivity|].
  intros h echo w a. rewrite lookup_clear_all. case_decide as Hh; [discriminate|].
  destruct c; cbn in *. intros Ht. apply W4 in Ht. apply Hh.
  now apply (list_elem_of_fmap_2 (fun kv => timeout (snd kv))) in Ht.
Qed.

Ltac torn_fields :=
  unfold torn_down; cbn; repeat split; auto;
  try (intros ? ? ? ?; rewrite ?lookup_delete; try case_decide; auto; discriminate).

Section Torn.
Variable appendAccessToken : jstring -> option jstring -> jstring.
Variable buildHttpUrl : jstring -> jstring -> option jstring -> jstring + jstring.
Variable opts : options.

Lemma sendActionHttp_torn (call : N) (action : jstring) (params : option json) (c : state) :
  torn_down c ->
  torn_down (fst (sendActionHttp buildHttpUrl opts call action params c))
  /\ idle (snd (sendActionHttp buildHttpUrl opts call action params c)) = true.
Proof.
  intros (T1 & T2 & T3 & T4).
  unfold sendActionHttp, fail_call, end_call, set_call, seq, modify, out.
  destruct (negb (truthy (httpUrl opts))); [|destruct (buildHttpUrl _ _ _)];
    destruct c; cbn in *; subst; (split; [torn_fields | reflexivity]).
Qed.

Lemma sendAction_catch_torn (call : N) (action : jstring) (params : option json)
    (err : jstring) (c : state) :
  torn_down c ->
  torn_down (fst (sendAction_catch buildHttpUrl opts call action params err c))
  /\ idle (snd (sendAction_catch buildHttpUrl opts call action params err c)) = true.
Proof.
  intros (T1 & T2 & T3 & T4).
  unfold sendAction_catch, sendActionHttp, fail_call, end_call, set_call, seq, modify, out.
  destruct (truthy (httpUrl opts)); cbn [negb]; [destruct (buildHttpUrl _ _ _)|];
    destruct c; cbn in *; subst; (split; [torn_fields | reflexivity]).
Qed.

(** After [stop()] no handler touches the socket, a timer or a promise. *)
Lemma step_torn (i : input) (c : state) :
  torn_down c ->
  torn_down (fst (step appendAccessToken buildHttpUrl opts i c))
  /\ idle (snd (step appendAccessToken buildHttpUrl opts i c)) = true.
Proof.
  intros T. pose proof T as (T1 & T2 & T3 & T4).
  destruct i as [| |b| |frame|h|a p t|call|call r|]; cbn [step].
  - unfold on_open, seq, modify, out. destruct c; cbn in *; subst.
    split; [torn_fields | reflexivity].
  - unfold on_closing, modify. destruct c; cbn in *; subst.
    split; [torn_fields | reflexivity].
  - destruct b.
    + rewrite on_close_stopping, T3. destruct c; cbn in *; subst.
      split; [torn_fields | reflexivity].
    + rewrite on_close_stopped, T3 by exact T1. destruct c; cbn in *; subst.
      split; [torn_fields | reflexivity].
  - split; [exact T | reflexivity].
  - destruct frame as [payload|]; [|split; [exact T | reflexivity]].
    destruct (isEventPayload payload) eqn:He.
    + unfold on_message. rewrite He. split; [exact T | reflexivity].
    + rewrite on_message_drop; [split; [exact T | reflexivity] | exact He |].
      right. now rewrite T3.
  - unfold on_timer, reading.
    destruct (timers c !! h) as [[echo w action|]|] eqn:Ht.
    + now apply T4 in Ht.
    + unfold connect, reading, skip, seq, modify, out. destruct c; cbn in *; subst. cbn.
      split; [torn_fields | reflexivity].
    + split; [exact T | reflexivity].
  - rewrite sendAction_closed by (unfold isConnected; now rewrite T2). cbn [fst snd].
    apply sendActionHttp_torn. destruct c; cbn in *; subst. torn_fields.
  - unfold sendAction_resume, reading.
    destruct (calls c !! call) as [[a p|a p e|a]|];
      try (split; [exact T | reflexivity]); try now apply sendAction_catch_torn.
    destruct (promises c !! call) as [[v|e]|];
      try (split; [exact T | reflexivity]); try now apply sendAction_catch_torn.
  - unfold on_fetch_done, reading.
    destruct (calls c !! call) as [[a p|a p e|a]|]; try (split; [exact T | reflexivity]).
    unfold fail_call, fulfil, end_call, seq, modify, out.
    destruct r; destruct c; cbn in *; subst; (split; [torn_fields | reflexivity]).
  - rewrite stop_eq, T3, T2. destruct c; cbn in *; subst.
    split; [torn_fields | reflexivity].
Qed.

Lemma run_torn (ins : list input) (c : state) :
  torn_down c ->
  torn_down (fst (run appendAccessToken buildHttpUrl opts ins c))
  /\ idle (snd (run appendAccessToken buildHttpUrl opts ins c)) = true.
Proof.
  revert c. induction ins as [|i ins IH]; intros c T; [now split|].
  rewrite run_cons. cbn [fst snd].
  destruct (step_torn i c T) as [T1 I1]. destruct (IH _ T1) as [T2 I2].
  split; [exact T2|]. unfold idle in *. now rewrite forallb_app, I1, I2.
Qed.

End Torn.

(** *** Timeout, delivery, backoff and teardown *)
Lemma elem_of_cleanup_effects (reason : string) (entries : list (jstring * pendingEntry))
    (echo : jstring) (entry : pendingEntry) :
  (echo, entry) ∈ entries ->
  EClearTimeout (timeout entry) ∈ cleanup_effects reason entries
  /\ EReject (waiter entry) (lit reason) ∈ cleanup_effects reason entries.
Proof.
  intros Hin. unfold cleanup_effects. rewrite !list_elem_of_In, !in_flat_map.
  apply list_elem_of_In in Hin.
  split; exists (echo, entry); (split; [exact Hin|]); cbn; auto.
Qed.

Lemma stop_again (c : state) :
  fst (stop (fst (stop c))) = fst (stop c) /\ snd (stop (fst (stop c))) = [].
Proof. rewrite !stop_eq. destruct c. split; reflexivity. Qed.

Lemma stop_fields (c : state) :
  promises (fst (stop c)) = reject_all "WebSocket stopped" (pending c) (promises c)
  /\ timers (fst (stop c)) = clear_all (pending c) (timers c)
  /\ stopped (fst (stop c)) = true
  /\ pending (fst (stop c)) = []
  /\ ws (fst (stop c)) = None.
Proof. rewrite stop_eq. destruct c. repeat split. Qed.

Section Stops.
Variable appendAccessToken : jstring -> option jstring -> jstring.
Variable buildHttpUrl : jstring -> jstring -> option jstring -> jstring + jstring.
Variable opts : options.

Lemma run_stops (n : nat) (c : state) :
  run appendAccessToken buildHttpUrl opts (replicate n InStop) (fst (stop c))
  = (fst (stop c), []).
Proof.
  induction n as [|n IH]; [reflexivity|].
  cbn [replicate]. rewrite run_cons. cbn [step].
  destruct (stop_again c) as [-> ->]. now rewrite IH.
Qed.

End Stops.

(** C3.  On a socket closure while the connection is not stopped, a
    reconnection is scheduled after min(1000 * 2^n, 15000) milliseconds,
    n being the attempt counter before the closure, and the counter is
    incremented after the delay was computed; a successful open resets the
    counter to zero, so that after an open n counts the closures since
    then. *)
Theorem reconnect_backoff (appendAccessToken : jstring -> option jstring -> jstring)
    (buildHttpUrl : jstring -> jstring -> option jstring -> jstring + jstring)
    (opts : options) (c : state) :
  stopped c = false ->
  on_close false c
  = (scheduled (cleaned "WebSocket closed" (with_ws None c)),
     [EOnDisconnected] ++ cleanup_effects "WebSocket closed" (pending c)
     ++ [ESetTimeout (nextTimer c) Connect (N.min (1000 * 2 ^ reconnectAttempts c) 15000)])
  /\ reconnectAttempts (fst (on_close false c)) = reconnectAttempts c + 1
  /\ reconnectAttempts (fst (on_open c)) = 0
  /\ forall ins,
       forallb keeps_running ins = true ->
       stopped (fst (run appendAccessToken buildHttpUrl opts (InOpen :: ins) c)) = false
       /\ reconnectAttempts (fst (run appendAccessToken buildHttpUrl opts (InOpen :: ins) c))
          = N.of_nat (closures ins)
       /\ last (snd (on_close false
                       (fst (run appendAccessToken buildHttpUrl opts (InOpen :: ins) c))))
          = Some (ESetTimeout
                    (nextTimer (fst (run appendAccessToken buildHttpUrl opts (InOpen :: ins) c)))
                    Connect (N.min (1000 * 2 ^ N.of_nat (closures ins)) 15000)).
Proof.
  intros Hs. split; [apply (on_close_running c Hs)|].
  split; [rewrite (on_close_running c Hs); destruct c; reflexivity|].
  split; [destruct c; reflexivity|].
  intros ins Hk. rewrite run_cons. cbn [step fst].
  assert (Ho : stopped (fst (on_open c)) = false) by (destruct c; exact Hs).
  destruct (run_running appendAccessToken buildHttpUrl opts ins _ Hk Ho) as [R1 R2].
  replace (reconnectAttempts (fst (on_open c))) with 0 in R2 by (now destruct c).
  rewrite N.add_0_l in R2.
  split; [exact R1|]. split; [exact R2|].
  rewrite (on_close_running _ R1). cbn [snd].
  rewrite app_assoc, last_snoc. unfold reconnect_delay, RECONNECT_BASE_MS, RECONNECT_MAX_MS.
  now rewrite R2.
Qed.

(** C4.  stop() sets the stopped flag, rejects every pending request exactly
    once with the reason "WebSocket stopped", clears their timeouts,
    empties the map and closes the socket.  Further calls of stop() do
    nothing at all; stop() called from the closure callback tears down
    the same way; after stop() the connection stays stopped and, whatever
    happens, never again makes, uses or closes a socket, sets or clears a
    timer, or settles a request. *)
Theorem stop_teardown (appendAccessToken : jstring -> option jstring -> jstring)
    (buildHttpUrl : jstring -> jstring -> option jstring -> jstring + jstring)
    (opts : options) (c : state) :
  reachable appendAccessToken buildHttpUrl opts c ->
  stop c
  = (with_ws None (cleaned "WebSocket stopped" (with_stopped true c)),
     cleanup_effects "WebSocket stopped" (pending c)
     ++ match ws c with Some _ => [EWsClose] | None => [] end)
  /\ stopped (fst (stop c)) = true
  /\ pending (fst (stop c)) = []
  /\ ws (fst (stop c)) = None
  /\ (forall echo entry,
        (echo, entry) ∈ pending c ->
        settlements (waiter entry) (snd (stop c)) = 1%nat
        /\ EReject (waiter entry) (lit "WebSocket stopped") ∈ snd (stop c)
        /\ EClearTimeout (timeout entry) ∈ snd (stop c)
        /\ timers (fst (stop c)) !! timeout entry = None
        /\ promises (fst (stop c)) !! waiter entry = Some (Rejected (lit "WebSocket stopped")))
  /\ (forall n,
        run appendAccessToken buildHttpUrl opts (replicate n InStop) (fst (stop c))
        = (fst (stop c), []))
  /\ on_close true c
     = (fst (stop c), [EOnDisconnected] ++ cleanup_effects "WebSocket stopped" (pending c))
  /\ (forall ins,
        stopped (fst (run appendAccessToken buildHttpUrl opts ins (fst (stop c)))) = true
        /\ idle (snd (run appendAccessToken buildHttpUrl opts ins (fst (stop c)))) = true).
Proof.
  intros Hr. pose proof (wf_reachable _ _ _ _ Hr) as W.
  assert (Hsettled : forall echo entry,
             (echo, entry) ∈ pending c ->
             promises (fst (stop c)) !! waiter entry = Some (Rejected (lit "WebSocket stopped"))).
  { intros echo entry Hin. destruct (stop_fields c) as (-> & _). rewrite lookup_reject_all.
    destruct W as (_ & _ & W3 & _). destruct (W3 _ _ Hin) as (-> & _).
    rewrite decide_True; [reflexivity|].
    now apply (list_elem_of_fmap_2 (fun kv => waiter (snd kv))) in Hin. }
  split; [apply stop_eq|]. split; [apply stop_fields|].
  split; [apply stop_fields|]. split; [apply stop_fields|].
  split; [|split; [|split]].
  - intros echo entry Hin.
    destruct (elem_of_cleanup_effects "WebSocket stopped" _ _ _ Hin) as [Hc Hj].
    split; [|split; [|split; [|split]]].
    + rewrite stop_eq. cbn [snd]. rewrite settlements_app.
      destruct W as (_ & W2 & _). rewrite (settlements_cleanup _ _ _ W2).
      rewrite decide_True
        by now apply (list_elem_of_fmap_2 (fun kv => waiter (snd kv))) in Hin.
      now destruct (ws c).
    + rewrite stop_eq. cbn [snd]. apply elem_of_app. now left.
    + rewrite stop_eq. cbn [snd]. apply elem_of_app. now left.
    + destruct (stop_fields c) as (_ & -> & _).
      rewrite lookup_clear_all. rewrite decide_True; [reflexivity|].
      now apply (list_elem_of_fmap_2 (fun kv => timeout (snd kv))) in Hin.
    + now apply (Hsettled echo).
  - intros n. apply run_stops.
  - rewrite on_close_stopping, stop_eq. reflexivity.
  - intros ins.
    destruct (run_torn appendAccessToken buildHttpUrl opts ins _ (torn_down_stop c W))
      as [(R1 & _) R2].
    split; [exact R1 | exact R2].
Qed.

(** C2.  A response (a frame without post_type) whose echo token names a
    pending entry clears the timeout of that entry, removes the entry and
    resolves exactly its waiter, once: the waiter was not settled before
    and is not settled again by anything that follows.  A response
    without token, or whose token names no pending entry, changes nothing
    and leaves no trace.  In every run each waiter is settled at most
    once. *)
Theorem response_delivery (appendAccessToken : jstring -> option jstring -> jstring)
    (buildHttpUrl : jstring -> jstring -> option jstring -> jstring + jstring)
    (opts : options) (c : state) (payload : json) :
  reachable appendAccessToken buildHttpUrl opts c ->
  isEventPayload payload = false ->
  (forall entry,
     is_object payload && has_key "echo" payload = true ->
     assoc (echo_of payload) (pending c) = Some entry ->
     on_message (Some payload) c
     = (request_done (echo_of payload) entry (Fulfilled payload) c,
        [EClearTimeout (timeout entry); EResolve (waiter entry) payload])
     /\ promises c !! waiter entry = None
     /\ promises (fst (on_message (Some payload) c)) !! waiter entry = Some (Fulfilled payload)
     /\ timers (fst (on_message (Some payload) c)) !! timeout entry = None
     /\ assoc (echo_of payload) (pending (fst (on_message (Some payload) c))) = None
     /\ (forall echo',
           echo' <> echo_of payload ->
           assoc echo' (pending (fst (on_message (Some payload) c))) = assoc echo' (pending c))
     /\ (forall ins,
           settlements (waiter entry)
             (snd (run appendAccessToken buildHttpUrl opts ins
                     (fst (on_message (Some payload) c)))) = 0%nat))
  /\ (is_object payload && has_key "echo" payload = false
      \/ assoc (echo_of payload) (pending c) = None ->
      on_message (Some payload) c = (c, []))
  /\ (forall ins w,
        (settlements w (snd (run appendAccessToken buildHttpUrl opts ins c)) <= 1)%nat).
Proof.
  intros Hr He. pose proof (wf_reachable _ _ _ _ Hr) as W.
  split; [|split].
  - intros entry Ho Ha. rewrite (on_message_match _ _ _ He Ho Ha). cbn [fst].
    pose proof (assoc_elem_of _ _ _ Ha) as Hin.
    assert (Hp : promises c !! waiter entry = None).
    { destruct W as (_ & _ & W3 & _). now apply W3 in Hin. }
    assert (Hq : promises (request_done (echo_of payload) entry (Fulfilled payload) c)
                 !! waiter entry = Some (Fulfilled payload)).
    { unfold request_done. cbn. rewrite lookup_settle_in, Hp.
      now rewrite decide_True by reflexivity. }
    split; [reflexivity|]. split; [exact Hp|]. split; [exact Hq|].
    split; [unfold request_done; cbn; apply lookup_delete_eq|].
    split; [unfold request_done; cbn; apply assoc_Map_delete_eq|].
    split.
    + intros echo' Hne. unfold request_done. cbn. apply assoc_Map_delete_ne. congruence.
    + intros ins.
      pose proof (wf_request_done _ _ (Fulfilled payload) _ W Hin) as W'.
      destruct (run_sound appendAccessToken buildHttpUrl opts ins _ W') as [_ S].
      destruct (S (waiter entry)) as (_ & S2 & _). apply S2. rewrite Hq. eauto.
  - intros Hd. now apply on_message_drop.
  - intros ins w.
    destruct (run_sound appendAccessToken buildHttpUrl opts ins _ W) as [_ S].
    now destruct (S w) as (S1 & _).
Qed.

(** Two messages that differ within their first [n] code units. *)
Ltac differ_at n :=
  let H := fresh in
  intros H; apply (f_equal (take n)) in H; vm_compute in H; discriminate H.

(** C1 (amended).  When the timer of a request sent over the open socket
    fires before any response, the pending entry is removed and the
    request is rejected with the error "OneBot request timeout: <action>",
    which differs from the errors of teardown, of a closed socket and of
    the HTTP transport.  sendAction passes this rejection on to its
    caller when no HTTP base URL is configured.  When one is configured,
    sendAction logs the fallback warning and turns to HTTP: the caller
    gets the error of the URL class when the URL cannot be built;
    otherwise the action is posted and the caller gets the outcome of
    that HTTP call, its JSON body or its error, and never the timeout. *)
Theorem request_timeout (appendAccessToken : jstring -> option jstring -> jstring)
    (buildHttpUrl : jstring -> jstring -> option jstring -> jstring + jstring)
    (opts : options) (c : state) (h : N) (echo : jstring) (w : N)
    (action : jstring) (params : option json) :
  timers c !! h = Some (RequestTimeout echo w action) ->
  calls c !! w = Some (AwaitWs action params) ->
  promises c !! w = None ->
  on_timer appendAccessToken opts h c
  = (request_done echo (mkEntry w h) (Rejected (timeout_error action)) c,
     [EReject w (timeout_error action)])
  /\ assoc echo (pending (fst (on_timer appendAccessToken opts h c))) = None
  /\ promises (fst (on_timer appendAccessToken opts h c)) !! w
     = Some (Rejected (timeout_error action))
  /\ (truthy (httpUrl opts) = false ->
      snd (sendAction_resume buildHttpUrl opts w (fst (on_timer appendAccessToken opts h c)))
      = [ELogWarn (fallback_warning action); EThrow w (timeout_error action)])
  /\ (forall err,
        truthy (httpUrl opts) = true ->
        buildHttpUrl (default [] (httpUrl opts)) action (accessToken opts) = inr err ->
        snd (sendAction_resume buildHttpUrl opts w (fst (on_timer appendAccessToken opts h c)))
        = [ELogWarn (fallback_warning action); EThrow w err])
  /\ (forall url r,
        truthy (httpUrl opts) = true ->
        buildHttpUrl (default [] (httpUrl opts)) action (accessToken opts) = inl url ->
        snd (sendAction_resume buildHttpUrl opts w (fst (on_timer appendAccessToken opts h c)))
        = [ELogWarn (fallback_warning action); EFetch w url params]
        /\ snd (run appendAccessToken buildHttpUrl opts [InMicrotask w; InFetchDone w r]
                  (fst (on_timer appendAccessToken opts h c)))
           = [ELogWarn (fallback_warning action);
              EFetch w url params;
              match r with
              | FetchRejected err => EThrow w err
              | FetchNotOk status => EThrow w (http_error action status)
              | FetchJson body => EReturn w body
              end]
        /\ calls (fst (run appendAccessToken buildHttpUrl opts
                         [InMicrotask w; InFetchDone w r]
                         (fst (on_timer appendAccessToken opts h c)))) !! w = None)
  /\ timeout_error action <> lit "WebSocket closed"
  /\ timeout_error action <> lit "WebSocket stopped"
  /\ timeout_error action <> lit "WebSocket not connected"
  /\ timeout_error action <> lit "HTTP fallback not configured"
  /\ (forall a s, timeout_error action <> http_error a s)
  /\ (forall c0 a p,
        reachable appendAccessToken buildHttpUrl opts c0 ->
        isConnected c0 = true ->
        snd (sendAction buildHttpUrl opts a p None c0)
        = [ESetTimeout (nextTimer c0)
             (RequestTimeout (String_N (echoCounter c0 + 1)) (nextCall c0) a) 10000;
           EWsSend a p (String_N (echoCounter c0 + 1))]
        /\ timers (fst (sendAction buildHttpUrl opts a p None c0)) !! nextTimer c0
           = Some (RequestTimeout (String_N (echoCounter c0 + 1)) (nextCall c0) a)
        /\ calls (fst (sendAction buildHttpUrl opts a p None c0)) !! nextCall c0
           = Some (AwaitWs a p)
        /\ promises (fst (sendAction buildHttpUrl opts a p None c0)) !! nextCall c0 = None).
Proof.
  intros Ht Hc Hp. rewrite (on_timer_request _ _ _ _ _ _ _ Ht). cbn [fst].
  assert (Hq : promises (request_done echo (mkEntry w h) (Rejected (timeout_error action)) c)
               !! w = Some (Rejected (timeout_error action))).
  { unfold request_done. cbn. rewrite lookup_settle_in, Hp.
    now rewrite decide_True by reflexivity. }
  assert (Hk : calls (request_done echo (mkEntry w h) (Rejected (timeout_error action)) c)
               !! w = Some (AwaitWs action params)) by exact Hc.
  split; [reflexivity|].
  split; [unfold request_done; cbn; apply assoc_Map_delete_eq|].
  split; [exact Hq|].
  split; [|split; [|split]].
  - intros Hu. unfold sendAction_resume, reading. rewrite Hk, Hq.
    unfold sendAction_catch. rewrite Hu. reflexivity.
  - intros err Hu Hb. unfold sendAction_resume, reading. rewrite Hk, Hq.
    unfold sendAction_catch, sendActionHttp. rewrite Hu, Hb. reflexivity.
  - intros url r Hu Hb.
    set (c1 := request_done echo (mkEntry w h) (Rejected (timeout_error action)) c) in *.
    assert (E1 : sendAction_resume buildHttpUrl opts w c1
                 = (with_calls (<[w := AwaitFetch action]> (calls c1)) (nextCall c1) c1,
                    [ELogWarn (fallback_warning action); EFetch w url params])).
    { unfold sendAction_resume, reading. rewrite Hk, Hq.
      unfold sendAction_catch, sendActionHttp. rewrite Hu, Hb. reflexivity. }
    split; [now rewrite E1|].
    rewrite !run_cons. cbn [step]. rewrite E1. cbn [fst snd].
    unfold on_fetch_done, reading. cbn [calls with_calls]. rewrite lookup_insert_eq.
    unfold fail_call, fulfil, end_call, seq, modify, out.
    destruct r; cbn; (split; [reflexivity | apply lookup_delete_eq]).
  - unfold timeout_error, http_error.
    split; [differ_at 1%nat|]. split; [differ_at 1%nat|]. split; [differ_at 1%nat|].
    split; [differ_at 1%nat|]. split; [intros a s; differ_at 8%nat|].
    intros c0 a p Hr Hconn. rewrite (sendAction_open _ _ _ _ _ _ Hconn). cbn [fst snd].
    split; [reflexivity|]. unfold registered. cbn.
    split; [apply lookup_insert_eq|]. split; [apply lookup_insert_eq|].
    pose proof (wf_reachable _ _ _ _ Hr) as (_ & _ & _ & _ & W5).
    destruct (promises c0 !! nextCall c0) as [s|] eqn:E; [|reflexivity].
    apply W5 in E. lia.
Qed.

(** *** The theorems at concrete inputs *)

Lemma request_timeout_witness :
  timers (Examples.one_request Examples.opts_ws) !! 0
  = Some (RequestTimeout (lit "1") 0 (lit "get_status"))
  /\ calls (Examples.one_request Examples.opts_ws) !! 0 = Some (AwaitWs (lit "get_status") None)
  /\ promises (Examples.one_request Examples.opts_ws) !! 0 = None
  /\ snd (sendAction_resume Examples.build0 Examples.opts_ws 0
            (fst (on_timer Examples.append0 Examples.opts_ws 0
                    (Examples.one_request Examples.opts_ws))))
     = [ELogWarn (fallback_warning (lit "get_status"));
        EThrow 0 (timeout_error (lit "get_status"))].
Proof.
  assert (Ht : timers (Examples.one_request Examples.opts_ws) !! 0
               = Some (RequestTimeout (lit "1") 0 (lit "get_status")))
    by (vm_compute; reflexivity).
  assert (Hc : calls (Examples.one_request Examples.opts_ws) !! 0
               = Some (AwaitWs (lit "get_status") None))
    by (vm_compute; reflexivity).
  assert (Hp : promises (Examples.one_request Examples.opts_ws) !! 0 = None)
    by (vm_compute; reflexivity).
  assert (Hu : truthy (httpUrl Examples.opts_ws) = false) by (vm_compute; reflexivity).
  split; [exact Ht|]. split; [exact Hc|]. split; [exact Hp|].
  exact (proj1 (proj2 (proj2 (proj2
           (request_timeout Examples.append0 Examples.build0 Examples.opts_ws
              (Examples.one_request Examples.opts_ws) 0 (lit "1") 0 (lit "get_status") None
              Ht Hc Hp)))) Hu).
Defined.

(** With an HTTP base URL configured, a request that timed out on the
    socket is posted again over HTTP, and the caller of [sendAction] gets
    the HTTP response instead of the timeout. *)
Lemma timeout_falls_back_to_http :
  snd (run Examples.append0 Examples.build0 Examples.opts_http
         [InOpen; InSendAction (lit "get_status") None None; InTimer 0; InMicrotask 0;
          InFetchDone 0 (FetchJson Examples.ok_response)]
         (fst (createOneBotConnection Examples.append0 Examples.opts_http)))
  = [EOnConnected;
     ESetTimeout 0 (RequestTimeout (lit "1") 0 (lit "get_status")) 10000;
     EWsSend (lit "get_status") None (lit "1");
     EReject 0 (lit "OneBot request timeout: get_status");
     ELogWarn (lit "napcat: ws send failed (get_status), falling back to HTTP");
     EFetch 0 (lit "http://127.0.0.1:5700/get_status") None;
     EReturn 0 Examples.ok_response].
Proof. vm_compute. reflexivity. Qed.

Lemma response_delivery_witness :
  reachable Examples.append0 Examples.build0 Examples.opts_ws
    (Examples.one_request Examples.opts_ws)
  /\ isEventPayload (Examples.ok_echo "1") = false
  /\ on_message (Some (Examples.ok_echo "1")) (Examples.one_request Examples.opts_ws)
     = (request_done (echo_of (Examples.ok_echo "1")) (mkEntry 0 0)
          (Fulfilled (Examples.ok_echo "1")) (Examples.one_request Examples.opts_ws),
        [EClearTimeout 0; EResolve 0 (Examples.ok_echo "1")]).
Proof.
  assert (Hr : reachable Examples.append0 Examples.build0 Examples.opts_ws
                 (Examples.one_request Examples.opts_ws)).
  { exists [InOpen; InSendAction (lit "get_status") None None]. reflexivity. }
  split; [exact Hr|]. split; [reflexivity|].
  apply (proj1 (response_delivery Examples.append0 Examples.build0 Examples.opts_ws
                  (Examples.one_request Examples.opts_ws) (Examples.ok_echo "1")
                  Hr eq_refl) (mkEntry 0 0)).
  - vm_compute. reflexivity.
  - vm_compute. reflexivity.
Defined.

Lemma reconnect_backoff_witness :
  stopped (fst (createOneBotConnection Examples.append0 Examples.opts_ws)) = false
  /\ reconnectAttempts
       (fst (run Examples.append0 Examples.build0 Examples.opts_ws
               (InOpen :: [InClose false; InTimer 0; InClose false; InTimer 1; InClose false])
               (fst (createOneBotConnection Examples.append0 Examples.opts_ws))))
     = N.of_nat (closures [InClose false; InTimer 0; InClose false; InTimer 1; InClose false]).
Proof.
  split; [reflexivity|].
  exact (proj1 (proj2 (proj2 (proj2 (proj2
           (reconnect_backoff Examples.append0 Examples.build0 Examples.opts_ws
              (fst (createOneBotConnection Examples.append0 Examples.opts_ws)) eq_refl)))
           [InClose false; InTimer 0; InClose false; InTimer 1; InClose false] eq_refl))).
Defined.

(** Six closures in a row after an open: 1 s, 2 s, 4 s, 8 s, then the
    ceiling of 15 s. *)
Example reconnect_delays :
  omap (fun e => match e with ESetTimeout _ Connect d => Some d | _ => None end)
    (snd (run Examples.append0 Examples.build0 Examples.opts_ws
            [InOpen; InClose false; InTimer 0; InClose false; InTimer 1; InClose false;
             InTimer 2; InClose false; InTimer 3; InClose false; InTimer 4; InClose false;
             InTimer 5; InOpen; InClose false]
            (fst (createOneBotConnection Examples.append0 Examples.opts_ws))))
  = [1000; 2000; 4000; 8000; 15000; 15000; 1000].
Proof. vm_compute. reflexivity. Qed.

Lemma stop_teardown_witness :
  reachable Examples.append0 Examples.build0 Examples.opts_ws
    (Examples.one_request Examples.opts_ws)
  /\ run Examples.append0 Examples.build0 Examples.opts_ws (replicate 3 InStop)
       (fst (stop (Examples.one_request Examples.opts_ws)))
     = (fst (stop (Examples.one_request Examples.opts_ws)), []).
Proof.
  assert (Hr : reachable Examples.append0 Examples.build0 Examples.opts_ws
                 (Examples.one_request Examples.opts_ws)).
  { exists [InOpen; InSendAction (lit "get_status") None None]. reflexivity. }
  split; [exact Hr|].
  apply (stop_teardown Examples.append0 Examples.build0 Examples.opts_ws
           (Examples.one_request Examples.opts_ws) Hr).
Defined.

(** One pending request, then [stop()] twice and the close event of the
    socket: the request is rejected once, the socket is closed once. *)
Example stop_twice :
  snd (run Examples.append0 Examples.build0 Examples.opts_ws
         [InStop; InStop; InClose false; InTimer 0]
         (Examples.one_request Examples.opts_ws))
  = [EClearTimeout 0; EReject 0 (lit "WebSocket stopped"); EWsClose; EOnDisconnected].
Proof. vm_compute. reflexivity. Qed.

End ConnFacts.

(** ** The connection: invariants, round trips and failures *)
Module LifecycleFacts.
Import Js Conn ConnInv JsFacts ConnFacts.

(** *** Counting completions *)
Lemma completions_app (k : N) (a b : list output) :
  completions k (a ++ b) = (completions k a + completions k b)%nat.
Proof. unfold completions. now rewrite List.filter_app, length_app. Qed.

Lemma completions_none (k : N) (es : list output) :
  no_completion es = true -> completions k es = 0%nat.
Proof.
  unfold completions, no_completion. induction es as [|e es IH]; [reflexivity|].
  cbn [forallb List.filter]. intros Hb. apply andb_true_iff in Hb as [He Hes].
  destruct e; try discriminate; cbn [is_completion]; auto.
Qed.

Lemma cleanup_no_completion (reason : string) (entries : list (jstring * pendingEntry)) :
  no_completion (cleanup_effects reason entries) = true.
Proof. induction entries as [|[echo entry] entries IH]; [reflexivity | exact IH]. Qed.

Lemma no_completion_app (a b : list output) :
  no_completion (a ++ b) = no_completion a && no_completion b.
Proof. apply forallb_app. Qed.

(** timers_live through the state functions *)
Lemma timers_live_request_done (echo : jstring) (entry : pendingEntry) (s : settlement)
    (c : state) :
  wf c -> timers_live c -> (echo, entry) ∈ pending c ->
  timers_live (request_done echo entry s c).
Proof.
  intros (W1 & _) [L1 L2] Hin. unfold timers_live, request_done. cbn. split.
  - intros echo' entry' Hin'. apply elem_of_Map_delete in Hin' as [Hne Hin']. cbn in Hne.
    destruct (L1 _ _ Hin') as [a Ha]. exists a.
    rewrite lookup_delete_ne; [exact Ha|].
    intros Heq. destruct (L1 _ _ Hin) as [a0 Ha0]. rewrite Heq in Ha0.
    rewrite Ha in Ha0. congruence.
  - intros h cb Hh. apply lookup_delete_Some in Hh as [_ Hh]. eauto.
Qed.

Lemma timers_live_registered (action : jstring) (st : callState) (c : state) :
  wf c -> timers_live c -> timers_live (registered action st c).
Proof.
  intros W [L1 L2]. pose proof (fresh_echo c W) as Hfresh.
  unfold timers_live, registered. cbn. rewrite (Map_set_fresh _ _ _ Hfresh). split.
  - intros echo entry Hin. apply elem_of_app in Hin as [Hin|Hin].
    + destruct (L1 _ _ Hin) as [a Ha]. exists a.
      rewrite lookup_insert_ne; [exact Ha|]. intros Heq. apply L2 in Ha. lia.
    + apply list_elem_of_singleton in Hin. injection Hin as -> ->. cbn.
      exists action. apply lookup_insert_eq.
  - intros h cb. rewrite lookup_insert. case_decide as Hh; [intros _; lia|].
    intros Ht. apply L2 in Ht. lia.
Qed.

Lemma timers_live_cleaned (reason : string) (c : state) :
  timers_live c -> timers_live (cleaned reason c).
Proof.
  intros [L1 L2]. unfold timers_live, cleaned. cbn. split.
  - intros echo entry Hin. now apply elem_of_nil in Hin.
  - intros h cb. rewrite lookup_clear_all. case_decide; [discriminate | apply L2].
Qed.

Lemma timers_live_scheduled (c : state) :
  pending c = [] -> timers_live c -> timers_live (scheduled c).
Proof.
  intros Hp [L1 L2]. unfold timers_live, scheduled. cbn. rewrite Hp. split.
  - intros echo entry Hin. now apply elem_of_nil in Hin.
  - intros h cb. rewrite lookup_insert. case_decide; [intros _; lia|].
    intros Ht. apply L2 in Ht. lia.
Qed.

(** A state that agrees with [c] on the map and the timers. *)
Lemma timers_live_same (c c' : state) :
  pending c' = pending c -> timers c' = timers c -> nextTimer c' = nextTimer c ->
  timers_live c -> timers_live c'.
Proof. unfold timers_live. intros -> -> ->. auto. Qed.

Section More.
Variable appendAccessToken : jstring -> option jstring -> jstring.
Variable buildHttpUrl : jstring -> jstring -> option jstring -> jstring + jstring.
Variable opts : options.

(** The HTTP transport and the continuation of [sendAction] change only
    the table of suspended calls. *)
Lemma sendActionHttp_calls_only (call : N) (action : jstring) (params : option json)
    (c : state) :
  with_calls (calls c) (nextCall c)
    (fst (sendActionHttp buildHttpUrl opts call action params c)) = c
  /\ nextCall (fst (sendActionHttp buildHttpUrl opts call action params c)) = nextCall c.
Proof.
  unfold sendActionHttp, fail_call, end_call, set_call, seq, modify, out.
  destruct (negb (truthy (httpUrl opts))); [|destruct (buildHttpUrl _ _ _)];
    now destruct c.
Qed.

Lemma sendAction_catch_calls_only (call : N) (action : jstring) (params : option json)
    (err : jstring) (c : state) :
  with_calls (calls c) (nextCall c)
    (fst (sendAction_catch buildHttpUrl opts call action params err c)) = c
  /\ nextCall (fst (sendAction_catch buildHttpUrl opts call action params err c)) = nextCall c.
Proof.
  unfold sendAction_catch, sendActionHttp, fail_call, end_call, set_call, seq, modify, out.
  destruct (truthy (httpUrl opts)); cbn [negb]; [destruct (buildHttpUrl _ _ _)|];
    now destruct c.
Qed.

Lemma sendAction_resume_calls_only (call : N) (c : state) :
  with_calls (calls c) (nextCall c) (fst (sendAction_resume buildHttpUrl opts call c)) = c
  /\ nextCall (fst (sendAction_resume buildHttpUrl opts call c)) = nextCall c.
Proof.
  unfold sendAction_resume, reading.
  destruct (calls c !! call) as [[a p|a p e|a]|];
    try apply sendAction_catch_calls_only; try now destruct c.
  destruct (promises c !! call) as [[v|e]|];
    try apply sendAction_catch_calls_only; try now destruct c.
Qed.

Lemma on_fetch_done_calls_only (call : N) (r : fetchResult) (c : state) :
  with_calls (calls c) (nextCall c) (fst (on_fetch_done call r c)) = c
  /\ nextCall (fst (on_fetch_done call r c)) = nextCall c.
Proof.
  unfold on_fetch_done, reading.
  destruct (calls c !! call) as [[a p|a p e|a]|]; try now destruct c.
  unfold fail_call, fulfil, end_call, seq, modify, out. destruct r; now destruct c.
Qed.

Lemma timers_live_calls_only (c c' : state) :
  with_calls (calls c) (nextCall c) c' = c -> timers_live c -> timers_live c'.
Proof.
  intros E. apply timers_live_same; rewrite <- E; now destruct c'.
Qed.

Lemma step_timers_live (i : input) (c : state) :
  wf c -> timers_live c ->
  timers_live (fst (step appendAccessToken buildHttpUrl opts i c)).
Proof.
  intros W L. destruct i as [| |b| |frame|h|a p t|call|call r|]; cbn [step].
  - revert L. apply timers_live_same; now destruct c.
  - revert L. apply timers_live_same; now destruct c.
  - destruct b.
    + rewrite on_close_stopping. cbn [fst].
      apply (timers_live_same (cleaned "WebSocket stopped" (with_stopped true c)));
        try reflexivity.
      apply timers_live_cleaned. revert L. apply timers_live_same; now destruct c.
    + destruct (stopped c) eqn:Hs.
      * rewrite on_close_stopped by exact Hs. cbn [fst].
        apply timers_live_cleaned. revert L. apply timers_live_same; now destruct c.
      * rewrite on_close_running by exact Hs. cbn [fst].
        apply timers_live_scheduled; [reflexivity|].
        apply timers_live_cleaned. revert L. apply timers_live_same; now destruct c.
  - exact L.
  - destruct frame as [payload|]; [|exact L].
    destruct (isEventPayload payload) eqn:He; [unfold on_message; rewrite He; exact L|].
    destruct (is_object payload && has_key "echo" payload) eqn:Ho;
      [|rewrite on_message_drop by auto; exact L].
    destruct (assoc (echo_of payload) (pending c)) as [entry|] eqn:Ha;
      [|rewrite on_message_drop by auto; exact L].
    rewrite (on_message_match _ _ _ He Ho Ha). cbn [fst].
    apply timers_live_request_done; auto. now apply assoc_elem_of.
  - destruct (timers c !! h) as [[echo w action|]|] eqn:Ht.
    + erewrite on_timer_request by exact Ht. cbn [fst].
      apply timers_live_request_done; auto.
      destruct W as (_ & _ & _ & W4 & _). eapply W4, Ht.
    + unfold on_timer, reading. rewrite Ht.
      unfold connect, reading, skip, seq, modify, out.
      destruct L as [L1 L2].
      assert (L' : timers_live (with_timers (delete h (timers c)) (nextTimer c) c)).
      { split.
        - intros echo entry Hin. destruct c; cbn in *.
          destruct (L1 _ _ Hin) as [a Ha]. exists a.
          rewrite lookup_delete_ne; [exact Ha|]. intros Heq. rewrite Heq in Ht. congruence.
        - intros h' cb. destruct c; cbn in *. intros Hh.
          apply lookup_delete_Some in Hh as [_ Hh]. eauto. }
      revert L'. apply timers_live_same; now destruct c as [? ? [] ? ? ? ? ? ? ?].
    + unfold on_timer, reading. rewrite Ht. exact L.
  - destruct (isConnected c) eqn:Hc.
    + rewrite sendAction_open by exact Hc. now apply timers_live_registered.
    + rewrite sendAction_closed by exact Hc. cbn [fst].
      destruct (sendActionHttp_calls_only (nextCall c) a p
                  (with_calls (calls c) (N.succ (nextCall c)) c)) as [E _].
      revert L. apply timers_live_same;
        [apply (f_equal pending) in E | apply (f_equal timers) in E
         | apply (f_equal nextTimer) in E];
        (etransitivity; [|exact E]); now destruct (fst _).
  - destruct (sendAction_resume_calls_only call c) as [E _].
    now apply (timers_live_calls_only c).
  - destruct (on_fetch_done_calls_only call r c) as [E _].
    now apply (timers_live_calls_only c).
  - rewrite stop_eq. cbn [fst].
    apply (timers_live_same (cleaned "WebSocket stopped" (with_stopped true c)));
      try reflexivity.
    apply timers_live_cleaned. revert L. apply timers_live_same; now destruct c.
Qed.


(** *** Each call of [sendAction] ends at most once *)


Ltac count_completions :=
  unfold completions; cbn [List.filter is_completion length];
  rewrite ?N.eqb_refl;
  repeat match goal with
         | H : ?k <> ?call |- context [N.eqb ?k ?call] =>
             rewrite (proj2 (N.eqb_neq k call) H)
         end; cbn [length].

Lemma sendActionHttp_touches (call : N) (action : jstring) (params : option json)
    (c : state) :
  touches_only call c (sendActionHttp buildHttpUrl opts call action params c).
Proof.
  unfold touches_only, sendActionHttp, fail_call, end_call, set_call, seq, modify, out.
  destruct (negb (truthy (httpUrl opts))); [|destruct (buildHttpUrl _ _ _)];
    destruct c; cbn [fst snd app calls nextCall with_calls];
    (split; [reflexivity|]);
    (split; [intros k Hk; count_completions;
             rewrite ?lookup_delete_ne, ?lookup_insert_ne by congruence; auto|]);
    count_completions; rewrite ?lookup_delete_eq, ?lookup_insert_eq;
    repeat split; eauto; try lia; try congruence.
Qed.

Lemma sendAction_catch_touches (call : N) (action : jstring) (params : option json)
    (err : jstring) (c : state) :
  touches_only call c (sendAction_catch buildHttpUrl opts call action params err c).
Proof.
  unfold touches_only, sendAction_catch, sendActionHttp, fail_call, end_call, set_call, seq,
    modify, out.
  destruct (truthy (httpUrl opts)); cbn [negb]; [destruct (buildHttpUrl _ _ _)|];
    destruct c; cbn [fst snd app calls nextCall with_calls];
    (split; [reflexivity|]);
    (split; [intros k Hk; count_completions;
             rewrite ?lookup_delete_ne, ?lookup_insert_ne by congruence; auto|]);
    count_completions; rewrite ?lookup_delete_eq, ?lookup_insert_eq;
    repeat split; eauto; try lia; try congruence.
Qed.


Lemma sendAction_resume_touches (call : N) (c : state) :
  touches_only call c (sendAction_resume buildHttpUrl opts call c).
Proof.
  assert (Q : touches_only call c (c, [])).
  { unfold touches_only. cbn. repeat split; auto. congruence. }
  unfold sendAction_resume, reading.
  destruct (calls c !! call) as [[a p|a p e|a]|]; try exact Q;
    try apply sendAction_catch_touches.
  destruct (promises c !! call) as [[v|e]|]; try exact Q;
    try apply sendAction_catch_touches.
  unfold touches_only, fulfil, end_call, seq, modify, out.
  destruct c; cbn [fst snd app calls nextCall with_calls].
  split; [reflexivity|].
  split; [intros k Hk; count_completions; rewrite lookup_delete_ne by congruence; auto|].
  count_completions. rewrite lookup_delete_eq. auto.
Qed.

Lemma on_fetch_done_touches (call : N) (r : fetchResult) (c : state) :
  touches_only call c (on_fetch_done call r c).
Proof.
  assert (Q : touches_only call c (c, [])).
  { unfold touches_only. cbn. repeat split; auto. congruence. }
  unfold on_fetch_done, reading.
  destruct (calls c !! call) as [[a p|a p e|a]|]; try exact Q.
  unfold touches_only, fail_call, fulfil, end_call, seq, modify, out.
  destruct r; destruct c; cbn [fst snd app calls nextCall with_calls];
    (split; [reflexivity|]);
    (split; [intros k Hk; count_completions; rewrite lookup_delete_ne by congruence; auto|]);
    count_completions; rewrite lookup_delete_eq; auto.
Qed.


Lemma calls_step_quiet (c c' : state) (es : list output) :
  calls c' = calls c -> nextCall c' = nextCall c -> no_completion es = true ->
  calls_known c -> calls_step c (c', es).
Proof.
  intros Ec En Hq K. unfold calls_step, calls_known, call_ended. cbn [fst snd].
  rewrite Ec, En. split; [exact K|]. intros k.
  rewrite (completions_none k es Hq). repeat split; auto; tauto.
Qed.

Lemma calls_step_touches (call : N) (c : state) (r : state * list output) :
  touches_only call c r -> is_Some (calls c !! call) -> calls_known c -> calls_step c r.
Proof.
  intros (En & Ho & H1 & H0) [st0 E0] K. unfold calls_step, calls_known, call_ended in *.
  rewrite En. split.
  - intros k st. destruct (decide (k = call)) as [->|Hk].
    + intros _. eapply K, E0.
    + rewrite (proj2 (Ho k Hk)). apply K.
  - intros k. destruct (decide (k = call)) as [->|Hk].
    + split; [exact H1|]. split.
      * intros Hn. split; [auto | eapply K, E0].
      * intros [Hc _]. congruence.
    + destruct (Ho k Hk) as [-> ->]. repeat split; auto; tauto.
Qed.

Lemma sendAction_resume_unknown (call : N) (c : state) :
  calls c !! call = None -> sendAction_resume buildHttpUrl opts call c = (c, []).
Proof. intros E. unfold sendAction_resume, reading. now rewrite E. Qed.

Lemma on_fetch_done_unknown (call : N) (r : fetchResult) (c : state) :
  calls c !! call = None -> on_fetch_done call r c = (c, []).
Proof. intros E. unfold on_fetch_done, reading. now rewrite E. Qed.

Lemma step_calls (i : input) (c : state) :
  calls_known c -> calls_step c (step appendAccessToken buildHttpUrl opts i c).
Proof.
  intros K. destruct i as [| |b| |frame|h|a p t|call|call r|]; cbn [step].
  - apply calls_step_quiet; auto; now destruct c.
  - apply calls_step_quiet; auto; now destruct c.
  - destruct b; [rewrite on_close_stopping|destruct (stopped c) eqn:Hs;
      [rewrite on_close_stopped by exact Hs|rewrite on_close_running by exact Hs]];
      (apply calls_step_quiet; auto; [now destruct c..|]);
      rewrite ?no_completion_app, cleanup_no_completion; reflexivity.
  - apply calls_step_quiet; auto.
  - destruct frame as [payload|]; [|apply calls_step_quiet; auto].
    destruct (isEventPayload payload) eqn:He;
      [unfold on_message; rewrite He; apply calls_step_quiet; auto|].
    destruct (is_object payload && has_key "echo" payload) eqn:Ho;
      [|rewrite on_message_drop by auto; apply calls_step_quiet; auto].
    destruct (assoc (echo_of payload) (pending c)) as [entry|] eqn:Ha;
      [|rewrite on_message_drop by auto; apply calls_step_quiet; auto].
    rewrite (on_message_match _ _ _ He Ho Ha). apply calls_step_quiet; auto.
  - destruct (timers c !! h) as [[echo w action|]|] eqn:Ht.
    + erewrite on_timer_request by exact Ht. apply calls_step_quiet; auto.
    + unfold on_timer, reading. rewrite Ht.
      unfold connect, reading, skip, seq, modify, out.
      destruct c as [? ? [] ? ? ? ? ? ? ?]; cbn; apply calls_step_quiet; auto.
    + unfold on_timer, reading. rewrite Ht. apply calls_step_quiet; auto.
  - destruct (isConnected c) eqn:Hc.
    + rewrite sendAction_open by exact Hc.
      unfold calls_step, calls_known, call_ended, registered in *. cbn [fst snd calls nextCall].
      split.
      * intros k st. rewrite lookup_insert. case_decide; [intros _; lia|].
        intros Hk. apply K in Hk. lia.
      * intros k. rewrite (completions_none k) by now destruct t.
        split; [lia|]. split; [congruence|]. intros [Hn Hlt].
        split; [reflexivity|]. rewrite lookup_insert_ne by lia. split; [exact Hn | lia].
    + rewrite sendAction_closed by exact Hc. rewrite <- surjective_pairing.
      destruct (sendActionHttp_touches (nextCall c) a p
                  (with_calls (calls c) (N.succ (nextCall c)) c)) as (En & Ho & H1 & H0).
      replace (nextCall (with_calls (calls c) (N.succ (nextCall c)) c))
        with (N.succ (nextCall c)) in En by now destruct c.
      assert (Ec : forall k, calls (with_calls (calls c) (N.succ (nextCall c)) c) !! k
                             = calls c !! k) by now destruct c.
      unfold calls_step, calls_known, call_ended in *. rewrite En. split.
      * intros k st. destruct (decide (k = nextCall c)) as [->|Hk]; [intros _; lia|].
        rewrite (proj2 (Ho k Hk)), Ec. intros Hk'. apply K in Hk'. lia.
      * intros k. destruct (decide (k = nextCall c)) as [->|Hk].
        -- split; [exact H1|]. split; [intros Hn; split; [auto | lia]|].
           intros [_ Hlt]. lia.
        -- destruct (Ho k Hk) as [-> ->]. rewrite Ec.
           split; [lia|]. split; [congruence|]. intros [Hn Hlt]. repeat split; auto. lia.
  - destruct (calls c !! call) as [st|] eqn:E.
    + apply (calls_step_touches call); auto. apply sendAction_resume_touches.
    + rewrite sendAction_resume_unknown by exact E. apply calls_step_quiet; auto.
  - destruct (calls c !! call) as [st|] eqn:E.
    + apply (calls_step_touches call); auto. apply on_fetch_done_touches.
    + rewrite on_fetch_done_unknown by exact E. apply calls_step_quiet; auto.
  - rewrite stop_eq. apply calls_step_quiet; auto; [now destruct c..|].
    rewrite no_completion_app, cleanup_no_completion. now destruct (ws c).
Qed.


Lemma run_calls (ins : list input) (c : state) :
  calls_known c ->
  forall k,
    (completions k (snd (run appendAccessToken buildHttpUrl opts ins c)) <= 1)%nat
    /\ (call_ended k c ->
        completions k (snd (run appendAccessToken buildHttpUrl opts ins c)) = 0%nat
        /\ call_ended k (fst (run appendAccessToken buildHttpUrl opts ins c)))
    /\ (completions k (snd (run appendAccessToken buildHttpUrl opts ins c)) <> 0%nat ->
        call_ended k (fst (run appendAccessToken buildHttpUrl opts ins c))).
Proof.
  revert c. induction ins as [|i ins IH]; intros c K k.
  - cbn. split; [unfold completions; cbn; lia|]. split; [auto|].
    intros Hn. now contradiction Hn.
  - rewrite run_cons. cbn [fst snd]. rewrite completions_app.
    destruct (step_calls i c K) as [K' S]. destruct (S k) as (S1 & S2 & S3).
    destruct (IH _ K' k) as (R1 & R2 & R3).
    split; [|split].
    + destruct (Nat.eq_dec (completions k (snd (step appendAccessToken buildHttpUrl opts i c))) 0%nat)
        as [E|E]; [lia|].
      destruct (R2 (S2 E)) as [-> _]. lia.
    + intros He. destruct (S3 He) as [-> He']. destruct (R2 He') as [-> He'']. auto.
    + intros Hn.
      destruct (Nat.eq_dec (completions k (snd (step appendAccessToken buildHttpUrl opts i c))) 0%nat)
        as [E|E].
      * apply R3. lia.
      * apply R2, S2, E.
Qed.

Lemma step_stopped (i : input) (c : state) :
  wf c -> (stopped c = true -> torn_down c) ->
  stopped (fst (step appendAccessToken buildHttpUrl opts i c)) = true ->
  torn_down (fst (step appendAccessToken buildHttpUrl opts i c)).
Proof.
  intros W T. destruct (stopped c) eqn:Hs.
  - intros _. apply step_torn. auto.
  - destruct (keeps_running i) eqn:Hk.
    + destruct (step_running appendAccessToken buildHttpUrl opts i c Hk Hs) as [-> _].
      discriminate.
    + destruct i as [| |[]| | | | | | |]; try discriminate; cbn [step]; intros Hs'.
      * exfalso. revert Hs'. unfold on_open, seq, modify, out. destruct c; cbn in *. congruence.
      * rewrite on_close_stopping. cbn [fst].
        pose proof (torn_down_stop c W) as Q. rewrite stop_eq in Q. exact Q.
      * now apply torn_down_stop.
Qed.

Lemma step_consistent (i : input) (c : state) :
  consistent c -> consistent (fst (step appendAccessToken buildHttpUrl opts i c)).
Proof.
  intros (W & L & K & T). split; [|split; [|split]].
  - apply (shape_sound c _ W (step_has_shape appendAccessToken buildHttpUrl opts i c)).
  - now apply step_timers_live.
  - now apply step_calls.
  - now apply step_stopped.
Qed.

Lemma run_consistent (ins : list input) (c : state) :
  consistent c -> consistent (fst (run appendAccessToken buildHttpUrl opts ins c)).
Proof.
  revert c. induction ins as [|i ins IH]; intros c C; [exact C|].
  rewrite run_cons. cbn [fst]. apply IH, step_consistent, C.
Qed.

Lemma created_consistent : consistent (fst (createOneBotConnection appendAccessToken opts)).
Proof.
  split; [|split; [|split]].
  - apply (wf_reachable appendAccessToken buildHttpUrl opts). now exists [].
  - split; cbn; intros *; [intros H; now apply elem_of_nil in H | now rewrite lookup_empty].
  - intros k st. cbn. now rewrite lookup_empty.
  - discriminate.
Qed.

Lemma reachable_consistent (c : state) :
  reachable appendAccessToken buildHttpUrl opts c -> consistent c.
Proof. intros [ins ->]. apply run_consistent, created_consistent. Qed.

End More.

(** *** Composed runs *)
Lemma assoc_app_fresh {A} (k : jstring) (v : A) (m : list (jstring * A)) :
  k ∉ fst <$> m -> assoc k (m ++ [(k, v)]) = Some v.
Proof.
  induction m as [|[k' v'] m IH]; cbn [app assoc]; unfold jeqb.
  - intros _. now rewrite bool_decide_eq_true_2.
  - rewrite fmap_cons, not_elem_of_cons. cbn [fst]. intros [Hne Hm].
    rewrite bool_decide_eq_false_2 by exact Hne. auto.
Qed.

Lemma Map_delete_app_fresh {A} (k : jstring) (v : A) (m : list (jstring * A)) :
  k ∉ fst <$> m -> Map_delete k (m ++ [(k, v)]) = m.
Proof.
  induction m as [|[k' v'] m IH]; cbn [app Map_delete]; unfold jeqb.
  - intros _. now rewrite bool_decide_eq_true_2.
  - rewrite fmap_cons, not_elem_of_cons. cbn [fst]. intros [Hne Hm].
    rewrite bool_decide_eq_false_2 by exact Hne. now rewrite IH.
Qed.

Section Trips.
Variable appendAccessToken : jstring -> option jstring -> jstring.
Variable buildHttpUrl : jstring -> jstring -> option jstring -> jstring + jstring.
Variable opts : options.

Lemma run_nil (c : state) : run appendAccessToken buildHttpUrl opts [] c = (c, []).
Proof. reflexivity. Qed.

Lemma run_cons_eq (i : input) (ins : list input) (c c1 c2 : state) (e1 e2 : list output) :
  step appendAccessToken buildHttpUrl opts i c = (c1, e1) ->
  run appendAccessToken buildHttpUrl opts ins c1 = (c2, e2) ->
  run appendAccessToken buildHttpUrl opts (i :: ins) c = (c2, e1 ++ e2).
Proof. intros H1 H2. rewrite run_cons, H1. cbn [fst snd]. now rewrite H2. Qed.

Lemma run_app (ins1 ins2 : list input) (c : state) :
  run appendAccessToken buildHttpUrl opts (ins1 ++ ins2) c
  = (fst (run appendAccessToken buildHttpUrl opts ins2
            (fst (run appendAccessToken buildHttpUrl opts ins1 c))),
     snd (run appendAccessToken buildHttpUrl opts ins1 c)
     ++ snd (run appendAccessToken buildHttpUrl opts ins2
               (fst (run appendAccessToken buildHttpUrl opts ins1 c)))).
Proof.
  revert c. induction ins1 as [|i ins1 IH]; intros c.
  - cbn [app]. rewrite run_nil. cbn [fst snd app]. apply surjective_pairing.
  - cbn [app]. rewrite !run_cons, IH. cbn [fst snd]. now rewrite app_assoc.
Qed.

(** What a consistent state has not used yet. *)
Lemma consistent_fresh (c : state) :
  consistent c ->
  (String_N (echoCounter c + 1) ∉ fst <$> pending c)
  /\ timers c !! nextTimer c = None
  /\ promises c !! nextCall c = None
  /\ calls c !! nextCall c = None.
Proof.
  intros (W & [_ L2] & K & _). split; [now apply fresh_echo|].
  destruct W as (_ & _ & _ & _ & W5). repeat split.
  - destruct (timers c !! nextTimer c) as [cb|] eqn:E; [apply L2 in E; lia | reflexivity].
  - destruct (promises c !! nextCall c) as [s|] eqn:E; [apply W5 in E; lia | reflexivity].
  - destruct (calls c !! nextCall c) as [s|] eqn:E; [apply K in E; lia | reflexivity].
Qed.

End Trips.

(** *** Invariants of reachable states *)
(** X1.  In every state the connection can reach, each pending entry
    belongs to a request whose promise is not settled and whose timeout
    timer is live, set for the token and the waiter of that entry; every
    live request timer belongs to the pending entry of its token; and
    timer handles are handed out in increasing order. *)
Theorem pending_requests_are_timed (appendAccessToken : jstring -> option jstring -> jstring)
    (buildHttpUrl : jstring -> jstring -> option jstring -> jstring + jstring)
    (opts : options) (c : state) :
  reachable appendAccessToken buildHttpUrl opts c ->
  (forall echo entry,
     (echo, entry) ∈ pending c ->
     promises c !! waiter entry = None
     /\ exists action,
          timers c !! timeout entry = Some (RequestTimeout echo (waiter entry) action))
  /\ (forall h echo w action,
        timers c !! h = Some (RequestTimeout echo w action) ->
        assoc echo (pending c) = Some (mkEntry w h))
  /\ (forall h cb, timers c !! h = Some cb -> h < nextTimer c).
Proof.
  intros Hr. destruct (reachable_consistent _ _ _ _ Hr) as (W & [L1 L2] & _).
  destruct W as (W1 & _ & W3 & W4 & _). split; [|split].
  - intros echo entry Hin. split; [now apply W3 in Hin | now apply L1].
  - intros h echo w action Ht. apply elem_of_assoc; [exact W1 | eapply W4, Ht].
  - exact L2.
Qed.

(** X2.  In every run of a connection each call of sendAction returns or
    throws at most once; a call that has ended is no longer suspended, and
    it is a call that was made. *)
Theorem sendAction_completes_once (appendAccessToken : jstring -> option jstring -> jstring)
    (buildHttpUrl : jstring -> jstring -> option jstring -> jstring + jstring)
    (opts : options) (ins : list input) (call : N) :
  (completions call
     (snd (run appendAccessToken buildHttpUrl opts ins
             (fst (createOneBotConnection appendAccessToken opts)))) <= 1)%nat
  /\ (completions call
        (snd (run appendAccessToken buildHttpUrl opts ins
                (fst (createOneBotConnection appendAccessToken opts)))) <> 0%nat ->
      calls (fst (run appendAccessToken buildHttpUrl opts ins
                    (fst (createOneBotConnection appendAccessToken opts)))) !! call = None
      /\ call < nextCall (fst (run appendAccessToken buildHttpUrl opts ins
                                 (fst (createOneBotConnection appendAccessToken opts))))).
Proof.
  destruct (created_consistent appendAccessToken buildHttpUrl opts) as (_ & _ & K & _).
  destruct (run_calls appendAccessToken buildHttpUrl opts ins _ K call) as (R1 & _ & R3).
  split; [exact R1 | exact R3].
Qed.

(** *** Round trips, closures and failures *)
(** X3.  A request sent over the open socket, answered by a response that
    carries its echo token, and resumed: the caller of sendAction gets the
    response itself, and the pending map and the timers are what they were
    before the request. *)
Theorem request_round_trip (appendAccessToken : jstring -> option jstring -> jstring)
    (buildHttpUrl : jstring -> jstring -> option jstring -> jstring + jstring)
    (opts : options) (c : state) (action : jstring) (params : option json) (payload : json) :
  reachable appendAccessToken buildHttpUrl opts c ->
  isConnected c = true ->
  isEventPayload payload = false ->
  is_object payload && has_key "echo" payload = true ->
  echo_of payload = String_N (echoCounter c + 1) ->
  run appendAccessToken buildHttpUrl opts
    [InSendAction action params None; InMessage (Some payload); InMicrotask (nextCall c)] c
  = (mkState (pending c) (ws c) (stopped c) (echoCounter c + 1) (reconnectAttempts c)
       (timers c) (N.succ (nextTimer c)) (<[nextCall c := Fulfilled payload]> (promises c))
       (calls c) (N.succ (nextCall c)),
     [ESetTimeout (nextTimer c)
        (RequestTimeout (String_N (echoCounter c + 1)) (nextCall c) action) 10000;
      EWsSend action params (String_N (echoCounter c + 1));
      EClearTimeout (nextTimer c);
      EResolve (nextCall c) payload;
      EReturn (nextCall c) payload]).
Proof.
  intros Hr Hc He Ho Hecho.
  destruct (consistent_fresh c (reachable_consistent _ _ _ _ Hr)) as (F1 & F2 & F3 & F4).
  eapply run_cons_eq with (e1 := [_; _]) (e2 := [_; _; _]).
  { cbn [step]. apply sendAction_open, Hc. }
  eapply run_cons_eq with (e1 := [_; _]) (e2 := [_]).
  { cbn [step]. apply (on_message_match payload (mkEntry (nextCall c) (nextTimer c))); auto.
    rewrite Hecho. unfold registered. cbn [pending].
    rewrite (Map_set_fresh _ _ _ F1). now apply assoc_app_fresh. }
  eapply run_cons_eq with (e1 := [_]) (e2 := []); [|apply run_nil].
  cbn [step]. unfold sendAction_resume, reading, request_done, registered.
  cbn [calls promises waiter timeout pending timers nextCall nextTimer echoCounter].
  rewrite lookup_insert_eq, lookup_settle_in, F3, decide_True by reflexivity.
  unfold fulfil, end_call, seq, modify, out. cbn.
  rewrite Hecho, (Map_set_fresh _ _ _ F1), (Map_delete_app_fresh _ _ _ F1).
  rewrite (delete_insert_id _ _ _ F2), (delete_insert_id _ _ _ F4).
  unfold settle_in. rewrite F3. reflexivity.
Qed.

(** X4.  A connection that can be reached and is stopped has no socket,
    no pending request and no live request timer; whatever happens next,
    it stays stopped and neither makes, uses nor closes a socket, sets or
    clears a timer, or settles a request. *)
Theorem stopped_connection_is_idle (appendAccessToken : jstring -> option jstring -> jstring)
    (buildHttpUrl : jstring -> jstring -> option jstring -> jstring + jstring)
    (opts : options) (c : state) :
  reachable appendAccessToken buildHttpUrl opts c ->
  stopped c = true ->
  ws c = None
  /\ pending c = []
  /\ isConnected c = false
  /\ (forall h echo w action, timers c !! h <> Some (RequestTimeout echo w action))
  /\ forall i,
       stopped (fst (step appendAccessToken buildHttpUrl opts i c)) = true
       /\ idle (snd (step appendAccessToken buildHttpUrl opts i c)) = true.
Proof.
  intros Hr Hs. destruct (reachable_consistent _ _ _ _ Hr) as (_ & _ & _ & T).
  pose proof (T Hs) as Q. destruct Q as (_ & Q2 & Q3 & Q4).
  split; [exact Q2|]. split; [exact Q3|].
  split; [unfold isConnected; now rewrite Q2|]. split; [exact Q4|].
  intros i. destruct (step_torn appendAccessToken buildHttpUrl opts i c (T Hs)) as [(R & _) I].
  now split.
Qed.

(** X5.  sendAction while the socket is not open goes over HTTP and
    leaves the socket, the pending map and the timers alone: without an
    HTTP base URL it throws "HTTP fallback not configured"; when the URL
    cannot be built it throws the error of the URL class; otherwise it
    posts the action, and the caller gets the JSON body, or the error
    "OneBot HTTP error (<action>): <status>" when the response is not ok,
    or the error fetch rejected with. *)
Theorem sendAction_over_http (appendAccessToken : jstring -> option jstring -> jstring)
    (buildHttpUrl : jstring -> jstring -> option jstring -> jstring + jstring)
    (opts : options) (c : state) (action : jstring) (params : option json)
    (send_throws : option jstring) :
  reachable appendAccessToken buildHttpUrl opts c ->
  isConnected c = false ->
  (truthy (httpUrl opts) = false ->
   sendAction buildHttpUrl opts action params send_throws c
   = (with_calls (calls c) (N.succ (nextCall c)) c,
      [EThrow (nextCall c) (lit "HTTP fallback not configured")]))
  /\ (forall err,
        truthy (httpUrl opts) = true ->
        buildHttpUrl (default [] (httpUrl opts)) action (accessToken opts) = inr err ->
        sendAction buildHttpUrl opts action params send_throws c
        = (with_calls (calls c) (N.succ (nextCall c)) c, [EThrow (nextCall c) err]))
  /\ (forall url r,
        truthy (httpUrl opts) = true ->
        buildHttpUrl (default [] (httpUrl opts)) action (accessToken opts) = inl url ->
        run appendAccessToken buildHttpUrl opts
          [InSendAction action params send_throws; InFetchDone (nextCall c) r] c
        = (with_calls (calls c) (N.succ (nextCall c)) c,
           [EFetch (nextCall c) url params;
            match r with
            | FetchRejected err => EThrow (nextCall c) err
            | FetchNotOk status => EThrow (nextCall c) (http_error action status)
            | FetchJson body => EReturn (nextCall c) body
            end])).
Proof.
  intros Hr Hc.
  destruct (consistent_fresh c (reachable_consistent _ _ _ _ Hr)) as (_ & _ & _ & F4).
  split; [|split].
  - intros Hu. rewrite sendAction_closed by exact Hc. unfold sendActionHttp. rewrite Hu.
    unfold fail_call, end_call, seq, modify, out. destruct c; cbn in *.
    now rewrite (delete_id _ _ F4).
  - intros err Hu Hb. rewrite sendAction_closed by exact Hc. unfold sendActionHttp.
    rewrite Hu, Hb. unfold fail_call, end_call, seq, modify, out. destruct c; cbn in *.
    now rewrite (delete_id _ _ F4).
  - intros url r Hu Hb.
    eapply run_cons_eq with (e1 := [_]) (e2 := [_]).
    { cbn [step]. rewrite sendAction_closed by exact Hc. unfold sendActionHttp.
      rewrite Hu, Hb. unfold set_call, seq, modify, out. cbn. reflexivity. }
    eapply run_cons_eq with (e1 := [_]) (e2 := []); [|apply run_nil].
    cbn [step]. unfold on_fetch_done, reading. destruct c; cbn in *.
    rewrite lookup_insert_eq.
    unfold fail_call, fulfil, end_call, seq, modify, out.
    destruct r; cbn; now rewrite (delete_insert_id _ _ _ F4).
Qed.

(** X6.  When the socket closes, every pending request is rejected
    exactly once, with "WebSocket closed" (with "WebSocket stopped" when
    the onDisconnected callback stops the connection), its timer is
    cleared, and afterwards the pending map is empty, no request timer is
    live and the connection has no socket. *)
Theorem close_rejects_pending (appendAccessToken : jstring -> option jstring -> jstring)
    (buildHttpUrl : jstring -> jstring -> option jstring -> jstring + jstring)
    (opts : options) (c : state) (b : bool) :
  reachable appendAccessToken buildHttpUrl opts c ->
  pending (fst (on_close b c)) = []
  /\ ws (fst (on_close b c)) = None
  /\ (forall h echo w action,
        timers (fst (on_close b c)) !! h <> Some (RequestTimeout echo w action))
  /\ forall echo entry,
       (echo, entry) ∈ pending c ->
       settlements (waiter entry) (snd (on_close b c)) = 1%nat
       /\ EClearTimeout (timeout entry) ∈ snd (on_close b c)
       /\ EReject (waiter entry)
            (lit (if b then "WebSocket stopped" else "WebSocket closed")) ∈ snd (on_close b c)
       /\ promises (fst (on_close b c)) !! waiter entry
          = Some (Rejected (lit (if b then "WebSocket stopped" else "WebSocket closed"))).
Proof.
  intros Hr. pose proof (reachable_consistent _ _ _ _ Hr) as (W & L & K & T).
  assert (Hshape : exists c0 post,
             on_close b c
             = (c0, [EOnDisconnected]
                    ++ cleanup_effects (if b then "WebSocket stopped" else "WebSocket closed")
                         (pending c) ++ post)
             /\ no_settle post = true
             /\ pending c0 = [] /\ ws c0 = None
             /\ promises c0
                = reject_all (if b then "WebSocket stopped" else "WebSocket closed")
                    (pending c) (promises c)
             /\ forall h echo w a,
                  timers c0 !! h = Some (RequestTimeout echo w a) ->
                  clear_all (pending c) (timers c) !! h = Some (RequestTimeout echo w a)).
  { destruct b.
    - eexists _, []. rewrite on_close_stopping, app_nil_r.
      split; [reflexivity|]. destruct c; cbn. repeat split; auto.
    - destruct (stopped c) eqn:Hs.
      + eexists _, []. rewrite on_close_stopped by exact Hs. rewrite app_nil_r.
        split; [reflexivity|]. destruct c; cbn. repeat split; auto.
      + eexists _, [_]. rewrite on_close_running by exact Hs.
        split; [reflexivity|]. destruct c; cbn. repeat split; auto.
        intros h echo w a. rewrite lookup_insert. case_decide; [discriminate | auto]. }
  destruct Hshape as (c0 & post & -> & Hpost & Hp & Hw & Hq & Ht). cbn [fst snd].
  split; [exact Hp|]. split; [exact Hw|]. split.
  - intros h echo w a Hh. apply Ht in Hh. rewrite lookup_clear_all in Hh.
    case_decide as Hin; [discriminate|]. apply Hin.
    destruct W as (_ & _ & _ & W4 & _). apply W4 in Hh.
    now apply (list_elem_of_fmap_2 (fun kv => timeout (snd kv))) in Hh.
  - intros echo entry Hin.
    destruct (elem_of_cleanup_effects (if b then "WebSocket stopped" else "WebSocket closed")
                _ _ _ Hin) as [Hc Hj].
    destruct W as (_ & W2 & W3 & _).
    split; [|split; [|split]].
    + rewrite !settlements_app, (settlements_cleanup _ _ _ W2),
        (settlements_no_settle _ post Hpost).
      rewrite decide_True
        by now apply (list_elem_of_fmap_2 (fun kv => waiter (snd kv))) in Hin.
      reflexivity.
    + apply elem_of_app. right. apply elem_of_app. now left.
    + apply elem_of_app. right. apply elem_of_app. now left.
    + rewrite Hq, lookup_reject_all. destruct (W3 _ _ Hin) as (-> & _).
      rewrite decide_True; [reflexivity|].
      now apply (list_elem_of_fmap_2 (fun kv => waiter (snd kv))) in Hin.
Qed.

(** X7.  After the socket closed on a connection that is not stopped, the
    reconnection timer, when it fires, creates one new socket for the
    configured URL; the connection is not connected until that socket
    opens, and the timer is gone. *)
Theorem reconnect_cycle (appendAccessToken : jstring -> option jstring -> jstring)
    (buildHttpUrl : jstring -> jstring -> option jstring -> jstring + jstring)
    (opts : options) (c : state) :
  stopped c = false ->
  snd (run appendAccessToken buildHttpUrl opts [InClose false; InTimer (nextTimer c)] c)
  = [EOnDisconnected] ++ cleanup_effects "WebSocket closed" (pending c)
    ++ [ESetTimeout (nextTimer c) Connect (reconnect_delay (reconnectAttempts c));
        ENewWebSocket (appendAccessToken (wsUrl opts) (accessToken opts))]
  /\ ws (fst (run appendAccessToken buildHttpUrl opts [InClose false; InTimer (nextTimer c)] c))
     = Some CONNECTING
  /\ isConnected
       (fst (run appendAccessToken buildHttpUrl opts [InClose false; InTimer (nextTimer c)] c))
     = false
  /\ timers
       (fst (run appendAccessToken buildHttpUrl opts [InClose false; InTimer (nextTimer c)] c))
     !! nextTimer c = None
  /\ isConnected
       (fst (run appendAccessToken buildHttpUrl opts
               [InClose false; InTimer (nextTimer c); InOpen] c))
     = true.
Proof.
  intros Hs.
  assert (E : run appendAccessToken buildHttpUrl opts [InClose false; InTimer (nextTimer c)] c
              = (with_ws (Some CONNECTING)
                   (with_timers
                      (delete (nextTimer c)
                         (<[nextTimer c := Connect]> (clear_all (pending c) (timers c))))
                      (N.succ (nextTimer c))
                      (scheduled (cleaned "WebSocket closed" (with_ws None c)))),
                 ([EOnDisconnected] ++ cleanup_effects "WebSocket closed" (pending c)
                  ++ [ESetTimeout (nextTimer c) Connect (reconnect_delay (reconnectAttempts c))])
                 ++ [ENewWebSocket (appendAccessToken (wsUrl opts) (accessToken opts))])).
  { eapply run_cons_eq; [cbn [step]; apply on_close_running, Hs|].
    eapply run_cons_eq with (e1 := [_]) (e2 := []); [|apply run_nil].
    cbn [step]. unfold on_timer, reading.
    replace (timers (scheduled (cleaned "WebSocket closed" (with_ws None c))) !! nextTimer c)
      with (Some Connect)
      by (destruct c; cbn; now rewrite lookup_insert_eq).
    unfold connect, reading, seq, modify, out. destruct c; cbn in *. subst. reflexivity. }
  split; [rewrite E; cbn [snd]; now rewrite <- !app_assoc|].
  split; [rewrite E; now destruct c|].
  split; [rewrite E; now destruct c|].
  split; [rewrite E; destruct c; cbn; apply lookup_delete_eq|].
  change [InClose false; InTimer (nextTimer c); InOpen]
    with ([InClose false; InTimer (nextTimer c)] ++ [InOpen]).
  rewrite run_app, E. now destruct c.
Qed.

(** X8.  When ws.send throws and no HTTP base URL is configured, the
    caller of sendAction gets that error after the fallback warning, while
    the request stays registered with its timer; nothing that happens
    later ends the call a second time. *)
Theorem send_failure_keeps_request (appendAccessToken : jstring -> option jstring -> jstring)
    (buildHttpUrl : jstring -> jstring -> option jstring -> jstring + jstring)
    (opts : options) (c : state) (action : jstring) (params : option json) (err : jstring) :
  reachable appendAccessToken buildHttpUrl opts c ->
  isConnected c = true ->
  truthy (httpUrl opts) = false ->
  run appendAccessToken buildHttpUrl opts
    [InSendAction action params (Some err); InMicrotask (nextCall c)] c
  = (mkState (pending c ++ [(String_N (echoCounter c + 1), mkEntry (nextCall c) (nextTimer c))])
       (ws c) (stopped c) (echoCounter c + 1) (reconnectAttempts c)
       (<[nextTimer c := RequestTimeout (String_N (echoCounter c + 1)) (nextCall c) action]>
          (timers c))
       (N.succ (nextTimer c)) (promises c) (calls c) (N.succ (nextCall c)),
     [ESetTimeout (nextTimer c)
        (RequestTimeout (String_N (echoCounter c + 1)) (nextCall c) action) 10000;
      ELogWarn (fallback_warning action);
      EThrow (nextCall c) err])
  /\ forall ins,
       completions (nextCall c)
         (snd (run appendAccessToken buildHttpUrl opts ins
                 (fst (run appendAccessToken buildHttpUrl opts
                         [InSendAction action params (Some err); InMicrotask (nextCall c)] c))))
       = 0%nat.
Proof.
  intros Hr Hc Hu.
  pose proof (reachable_consistent _ _ _ _ Hr) as C.
  destruct (consistent_fresh c C) as (F1 & F2 & F3 & F4).
  assert (E : run appendAccessToken buildHttpUrl opts
                [InSendAction action params (Some err); InMicrotask (nextCall c)] c
              = (mkState
                   (pending c
                    ++ [(String_N (echoCounter c + 1), mkEntry (nextCall c) (nextTimer c))])
                   (ws c) (stopped c) (echoCounter c + 1) (reconnectAttempts c)
                   (<[nextTimer c
                      := RequestTimeout (String_N (echoCounter c + 1)) (nextCall c) action]>
                      (timers c))
                   (N.succ (nextTimer c)) (promises c) (calls c) (N.succ (nextCall c)),
                 [ESetTimeout (nextTimer c)
                    (RequestTimeout (String_N (echoCounter c + 1)) (nextCall c) action) 10000;
                  ELogWarn (fallback_warning action);
                  EThrow (nextCall c) err])).
  { eapply run_cons_eq with (e1 := [_]) (e2 := [_; _]).
    { cbn [step]. apply sendAction_open, Hc. }
    eapply run_cons_eq with (e1 := [_; _]) (e2 := []); [|apply run_nil].
    cbn [step]. unfold sendAction_resume, reading, registered.
    cbn [calls nextCall]. rewrite lookup_insert_eq.
    unfold sendAction_catch. rewrite Hu.
    unfold fail_call, end_call, seq, modify, out. cbn.
    now rewrite (Map_set_fresh _ _ _ F1), (delete_insert_id _ _ _ F4). }
  split; [exact E|]. intros ins.
  assert (K' : calls_known
                 (fst (run appendAccessToken buildHttpUrl opts
                         [InSendAction action params (Some err); InMicrotask (nextCall c)] c)))
    by apply (run_consistent appendAccessToken buildHttpUrl opts _ c C).
  apply (run_calls appendAccessToken buildHttpUrl opts ins _ K' (nextCall c)).
  rewrite E. unfold call_ended. cbn. split; [exact F4 | lia].
Qed.

(** *** The theorems at concrete inputs *)

Lemma pending_requests_are_timed_witness :
  reachable Examples.append0 Examples.build0 Examples.opts_ws
    (Examples.one_request Examples.opts_ws)
  /\ promises (Examples.one_request Examples.opts_ws) !! 0 = None.
Proof.
  assert (Hr : reachable Examples.append0 Examples.build0 Examples.opts_ws
                 (Examples.one_request Examples.opts_ws)).
  { exists [InOpen; InSendAction (lit "get_status") None None]. reflexivity. }
  split; [exact Hr|].
  pose proof (proj1 (pending_requests_are_timed Examples.append0 Examples.build0
                       Examples.opts_ws (Examples.one_request Examples.opts_ws) Hr)
                (lit "1") (mkEntry 0 0)) as P.
  assert (Hin : (lit "1", mkEntry 0 0) ∈ pending (Examples.one_request Examples.opts_ws))
    by (vm_compute; left).
  pose proof (proj1 (P Hin)) as Q.
  vm_compute in Q. vm_compute. exact Q.
Defined.

Lemma stopped_connection_is_idle_witness :
  reachable Examples.append0 Examples.build0 Examples.opts_ws
    (fst (stop (Examples.one_request Examples.opts_ws)))
  /\ stopped (fst (stop (Examples.one_request Examples.opts_ws))) = true
  /\ isConnected (fst (stop (Examples.one_request Examples.opts_ws))) = false.
Proof.
  assert (Hr : reachable Examples.append0 Examples.build0 Examples.opts_ws
                 (fst (stop (Examples.one_request Examples.opts_ws)))).
  { exists [InOpen; InSendAction (lit "get_status") None None; InStop].
    vm_compute. reflexivity. }
  assert (Hs : stopped (fst (stop (Examples.one_request Examples.opts_ws))) = true)
    by (vm_compute; reflexivity).
  split; [exact Hr|]. split; [exact Hs|].
  pose proof (proj1 (proj2 (proj2 (stopped_connection_is_idle Examples.append0 Examples.build0
                                     Examples.opts_ws
                                     (fst (stop (Examples.one_request Examples.opts_ws)))
                                     Hr Hs)))) as P.
  exact P.
Defined.

Lemma sendAction_over_http_witness :
  reachable Examples.append0 Examples.build0 Examples.opts_http
    (fst (createOneBotConnection Examples.append0 Examples.opts_http))
  /\ isConnected (fst (createOneBotConnection Examples.append0 Examples.opts_http)) = false
  /\ snd (run Examples.append0 Examples.build0 Examples.opts_http
            [InSendAction (lit "get_status") None None;
             InFetchDone 0 (FetchNotOk (lit "502"))]
            (fst (createOneBotConnection Examples.append0 Examples.opts_http)))
     = [EFetch 0 (lit "http://127.0.0.1:5700/get_status") None;
        EThrow 0 (lit "OneBot HTTP error (get_status): 502")].
Proof.
  assert (Hr : reachable Examples.append0 Examples.build0 Examples.opts_http
                 (fst (createOneBotConnection Examples.append0 Examples.opts_http))).
  { exists []. reflexivity. }
  assert (Hc : isConnected (fst (createOneBotConnection Examples.append0 Examples.opts_http))
               = false) by (vm_compute; reflexivity).
  assert (Hu : truthy (httpUrl Examples.opts_http) = true) by (vm_compute; reflexivity).
  assert (Hb : Examples.build0 (default [] (httpUrl Examples.opts_http)) (lit "get_status")
                 (accessToken Examples.opts_http)
               = inl (lit "http://127.0.0.1:5700/get_status")) by (vm_compute; reflexivity).
  split; [exact Hr|]. split; [exact Hc|].
  pose proof (proj2 (proj2 (sendAction_over_http Examples.append0 Examples.build0
                              Examples.opts_http
                              (fst (createOneBotConnection Examples.append0 Examples.opts_http))
                              (lit "get_status") None None Hr Hc))
                (lit "http://127.0.0.1:5700/get_status") (FetchNotOk (lit "502"))
                Hu Hb) as P.
  apply (f_equal snd) in P. vm_compute in P. vm_compute. exact P.
Defined.

Lemma close_rejects_pending_witness :
  reachable Examples.append0 Examples.build0 Examples.opts_ws
    (Examples.one_request Examples.opts_ws)
  /\ pending (fst (on_close false (Examples.one_request Examples.opts_ws))) = [].
Proof.
  assert (Hr : reachable Examples.append0 Examples.build0 Examples.opts_ws
                 (Examples.one_request Examples.opts_ws)).
  { exists [InOpen; InSendAction (lit "get_status") None None]. reflexivity. }
  split; [exact Hr|].
  pose proof (proj1 (close_rejects_pending Examples.append0 Examples.build0 Examples.opts_ws
                       (Examples.one_request Examples.opts_ws) false Hr)) as P.
  vm_compute in P. vm_compute. exact P.
Defined.

Lemma request_round_trip_witness :
  reachable Examples.append0 Examples.build0 Examples.opts_ws (Examples.opened Examples.opts_ws)
  /\ snd (run Examples.append0 Examples.build0 Examples.opts_ws
            [InSendAction (lit "get_status") None None;
             InMessage (Some (Examples.ok_echo "1"));
             InMicrotask 0]
            (Examples.opened Examples.opts_ws))
     = [ESetTimeout 0 (RequestTimeout (lit "1") 0 (lit "get_status")) 10000;
        EWsSend (lit "get_status") None (lit "1");
        EClearTimeout 0;
        EResolve 0 (Examples.ok_echo "1");
        EReturn 0 (Examples.ok_echo "1")].
Proof.
  assert (Hr : reachable Examples.append0 Examples.build0 Examples.opts_ws
                 (Examples.opened Examples.opts_ws)).
  { exists [InOpen]. reflexivity. }
  assert (Hc : isConnected (Examples.opened Examples.opts_ws) = true)
    by (vm_compute; reflexivity).
  assert (He : isEventPayload (Examples.ok_echo "1") = false) by (vm_compute; reflexivity).
  assert (Ho : is_object (Examples.ok_echo "1") && has_key "echo" (Examples.ok_echo "1") = true)
    by (vm_compute; reflexivity).
  assert (Hk : echo_of (Examples.ok_echo "1")
               = String_N (echoCounter (Examples.opened Examples.opts_ws) + 1))
    by (vm_compute; reflexivity).
  split; [exact Hr|].
  pose proof (request_round_trip Examples.append0 Examples.build0 Examples.opts_ws
                (Examples.opened Examples.opts_ws) (lit "get_status") None (Examples.ok_echo "1")
                Hr Hc He Ho Hk) as P.
  apply (f_equal snd) in P. vm_compute in P. vm_compute. exact P.
Defined.

Lemma reconnect_cycle_witness :
  stopped (Examples.opened Examples.opts_ws) = false
  /\ snd (run Examples.append0 Examples.build0 Examples.opts_ws [InClose false; InTimer 0]
            (Examples.opened Examples.opts_ws))
     = [EOnDisconnected; ESetTimeout 0 Connect 1000; ENewWebSocket (lit "ws://127.0.0.1:6700")].
Proof.
  assert (Hs : stopped (Examples.opened Examples.opts_ws) = false)
    by (vm_compute; reflexivity).
  split; [exact Hs|].
  pose proof (proj1 (reconnect_cycle Examples.append0 Examples.build0 Examples.opts_ws
                       (Examples.opened Examples.opts_ws) Hs)) as P.
  vm_compute in P. vm_compute. exact P.
Defined.

Lemma send_failure_keeps_request_witness :
  reachable Examples.append0 Examples.build0 Examples.opts_ws (Examples.opened Examples.opts_ws)
  /\ snd (run Examples.append0 Examples.build0 Examples.opts_ws
            [InSendAction (lit "get_status") None (Some (lit "socket gone")); InMicrotask 0]
            (Examples.opened Examples.opts_ws))
     = [ESetTimeout 0 (RequestTimeout (lit "1") 0 (lit "get_status")) 10000;
        ELogWarn (lit "napcat: ws send failed (get_status), falling back to HTTP");
        EThrow 0 (lit "socket gone")].
Proof.
  assert (Hr : reachable Examples.append0 Examples.build0 Examples.opts_ws
                 (Examples.opened Examples.opts_ws)).
  { exists [InOpen]. reflexivity. }
  assert (Hc : isConnected (Examples.opened Examples.opts_ws) = true)
    by (vm_compute; reflexivity).
  assert (Hu : truthy (httpUrl Examples.opts_ws) = false) by (vm_compute; reflexivity).
  split; [exact Hr|].
  pose proof (proj1 (send_failure_keeps_request Examples.append0 Examples.build0
                       Examples.opts_ws (Examples.opened Examples.opts_ws) (lit "get_status")
                       None (lit "socket gone") Hr Hc Hu)) as P.
  apply (f_equal snd) in P. vm_compute in P. vm_compute. exact P.
Defined.

End LifecycleFacts.

(** ** Trimming *)
Module TrimFacts.
Import Js.

Lemma trimStart_head (s : jstring) (c : N) (r : jstring) :
  trimStart s = c :: r -> is_ws c = false.
Proof.
  induction s as [|d s IH]; cbn [trimStart]; [discriminate|].
  destruct (is_ws d) eqn:E; [exact IH | congruence].
Qed.

Lemma trimStart_cons (c : N) (r : jstring) : is_ws c = false -> trimStart (c :: r) = c :: r.
Proof. intros E. cbn [trimStart]. now rewrite E. Qed.

Lemma trimStart_app (a b : jstring) :
  trimStart (a ++ b) = match trimStart a with [] => trimStart b | x => x ++ b end.
Proof.
  induction a as [|c a IH]; [reflexivity|].
  cbn [app trimStart]. destruct (is_ws c); [exact IH | reflexivity].
Qed.

Lemma trimEnd_cons (c : N) (r : jstring) :
  is_ws c = false -> trimEnd (c :: r) = c :: trimEnd r.
Proof.
  intros E. unfold trimEnd. cbn [rev]. rewrite trimStart_app.
  destruct (trimStart (rev r)) as [|x l] eqn:Er.
  - rewrite trimStart_cons by exact E. reflexivity.
  - now rewrite rev_app_distr.
Qed.

Lemma trim_cons (c : N) (r : jstring) : is_ws c = false -> trim (c :: r) = c :: trimEnd r.
Proof. intros E. unfold trim. rewrite trimStart_cons by exact E. now apply trimEnd_cons. Qed.

Lemma trimEnd_idem (s : jstring) : trimEnd (trimEnd s) = trimEnd s.
Proof.
  unfold trimEnd. rewrite rev_involutive. f_equal.
  destruct (trimStart (rev s)) as [|c r] eqn:E; [reflexivity|].
  apply trimStart_cons. eapply trimStart_head, E.
Qed.

(** Trimming twice is trimming once. *)
Lemma trim_idem (s : jstring) : trim (trim s) = trim s.
Proof.
  destruct (trimStart s) as [|c r] eqn:E.
  - assert (Ht : trim s = []) by (unfold trim; now rewrite E). now rewrite Ht.
  - pose proof (trimStart_head _ _ _ E) as Hc.
    assert (Ht : trim s = c :: trimEnd r)
      by (unfold trim; rewrite E; now apply trimEnd_cons).
    rewrite Ht, (trim_cons _ _ Hc), trimEnd_idem. reflexivity.
Qed.

End TrimFacts.

(** ** The inbound codec: shape of the result, composition, round trip *)
Module SegmentFacts.
Import Js Codec Pipeline JsFacts CodecFacts TrimFacts.

Lemma segment_media_sound (segment : json) (r kind : jstring) :
  segment_media segment = Some (r, kind) ->
  isLikelyMediaRef r = true
  /\ (kind = lit "image" \/ kind = lit "audio" \/ kind = lit "video").
Proof.
  unfold segment_media, media_kind.
  destruct segment as [| | | | |fs]; try discriminate.
  destruct (assoc (lit "type") fs) as [[| | |ty| |]|]; try discriminate.
  destruct (assoc (lit "data") fs) as [[| | | | |d]|]; try discriminate.
  destruct (reference_field d) as [[| | |u| |]|];
    repeat (destruct (jeqb ty _)); try discriminate;
    (destruct (looks_like_reference u) eqn:E; [|discriminate]);
    rewrite <- isLikelyMediaRef_looks_like_reference in E;
    intros [= <- <-]; auto.
Qed.

(** X9.  Whatever the wire message is, the media references and the media
    kinds of the result are parallel lists, every reference passes
    isLikelyMediaRef, and every kind is image, audio or video. *)
Theorem parseOneBotMessage_media (message : option json) :
  length (pm_mediaUrls (parseOneBotMessage message))
  = length (pm_mediaTypes (parseOneBotMessage message))
  /\ Forall (fun u => isLikelyMediaRef u = true) (pm_mediaUrls (parseOneBotMessage message))
  /\ Forall (fun k => k = lit "image" \/ k = lit "audio" \/ k = lit "video")
       (pm_mediaTypes (parseOneBotMessage message)).
Proof.
  destruct message as [[| | | |segments|]|]; try (cbn; auto).
  unfold parseOneBotMessage. cbn [pm_mediaUrls pm_mediaTypes].
  destruct (fold_segment_step segments (mkParts [] [] [])) as (_ & -> & ->).
  cbn [mediaUrls mediaTypes app]. split; [now rewrite !length_fmap|].
  split; apply Forall_fmap, Forall_forall; intros [r kind] Hin;
    apply list_elem_of_omap in Hin as (seg & _ & Hs);
    apply segment_media_sound in Hs; cbn; tauto.
Qed.

(** X10.  Parsing distributes over the concatenation of segment lists: the
    text, the references and the kinds of a message are those of its first
    part followed by those of the rest. *)
Theorem parseOneBotMessage_app (a b : list json) :
  text (parseOneBotMessage (Some (JArr (a ++ b))))
  = text (parseOneBotMessage (Some (JArr a))) ++ text (parseOneBotMessage (Some (JArr b)))
  /\ pm_mediaUrls (parseOneBotMessage (Some (JArr (a ++ b))))
     = pm_mediaUrls (parseOneBotMessage (Some (JArr a)))
       ++ pm_mediaUrls (parseOneBotMessage (Some (JArr b)))
  /\ pm_mediaTypes (parseOneBotMessage (Some (JArr (a ++ b))))
     = pm_mediaTypes (parseOneBotMessage (Some (JArr a)))
       ++ pm_mediaTypes (parseOneBotMessage (Some (JArr b))).
Proof.
  unfold parseOneBotMessage. cbn [text pm_mediaUrls pm_mediaTypes].
  rewrite !join_nil_concat.
  destruct (fold_segment_step (a ++ b) (mkParts [] [] [])) as (-> & -> & ->).
  destruct (fold_segment_step a (mkParts [] [] [])) as (-> & -> & ->).
  destruct (fold_segment_step b (mkParts [] [] [])) as (-> & -> & ->).
  cbn [textParts mediaUrls mediaTypes concat app].
  now rewrite !fmap_app, concat_app, omap_app, !fmap_app.
Qed.

(** X11.  isLikelyMediaRef does not depend on the white space around its
    argument, and rejects a string that is empty or all white space. *)
Theorem isLikelyMediaRef_trim (value : jstring) :
  isLikelyMediaRef (trim value) = isLikelyMediaRef value
  /\ (trim value = [] -> isLikelyMediaRef value = false).
Proof.
  unfold isLikelyMediaRef. rewrite trim_idem. split; [reflexivity|].
  intros ->. reflexivity.
Qed.

(** The loop of the parser on a media segment built by [buildMediaSegment]. *)
Lemma media_segment_step (acc : parts) (type url : jstring) :
  type = lit "image" \/ type = lit "record" \/ type = lit "video" ->
  segment_step acc (buildMediaSegment type url)
  = if isLikelyMediaRef url
    then mkParts (textParts acc) (mediaUrls acc ++ [url])
           (mediaTypes acc ++ [default [] (media_kind type)])
    else acc.
Proof.
  intros Ht. destruct acc as [ts us ks].
  destruct Ht as [-> | [-> | ->]];
    cbv -[isLikelyMediaRef app]; destruct (isLikelyMediaRef url); reflexivity.
Qed.

(** X12.  What the outbound side builds the inbound side reads back: a
    message made of buildTextSegment(text) and buildMediaSegment(type,
    url), with type image, record or video, parses to the text and, when
    the reference passes isLikelyMediaRef, to that reference with the kind
    of the type (audio for record); to the text alone otherwise. *)
Theorem segments_round_trip (text type url : jstring) :
  type = lit "image" \/ type = lit "record" \/ type = lit "video" ->
  parseOneBotMessage (Some (JArr [buildTextSegment text; buildMediaSegment type url]))
  = if isLikelyMediaRef url
    then mkParsed text [url] [default [] (media_kind type)]
    else mkParsed text [] [].
Proof.
  intros Ht. unfold parseOneBotMessage. cbn [fold_left].
  change (segment_step (mkParts [] [] []) (buildTextSegment text)) with (mkParts [text] [] []).
  rewrite (media_segment_step _ _ _ Ht).
  destruct (isLikelyMediaRef url); cbn; rewrite ?app_nil_r; reflexivity.
Qed.

Lemma segments_round_trip_witness :
  (lit "record" = lit "image" \/ lit "record" = lit "record" \/ lit "record" = lit "video")
  /\ parseOneBotMessage
       (Some (JArr [buildTextSegment (lit "listen");
                    buildMediaSegment (lit "record") (lit "file:///tmp/a.amr")]))
     = mkParsed (lit "listen") [lit "file:///tmp/a.amr"] [lit "audio"].
Proof.
  assert (Ht : lit "record" = lit "image" \/ lit "record" = lit "record"
               \/ lit "record" = lit "video") by (right; left; reflexivity).
  split; [exact Ht|].
  pose proof (segments_round_trip (lit "listen") (lit "record") (lit "file:///tmp/a.amr") Ht)
    as P.
  vm_compute in P. vm_compute. exact P.
Defined.

End SegmentFacts.

(** ** Targets and allow-list entries *)
Module TargetFacts.
Import Js Codec Access Pipeline Plugin JsFacts AccessFacts TrimFacts.

Lemma normalizeAllowEntry_JStr (s : jstring) :
  normalizeAllowEntry (JStr s) = strip_peer_prefix (trim s).
Proof.
  change (normalizeAllowEntry (JStr s))
    with (if bool_decide (trim s = []) then []
          else if jeqb (trim s) (lit "*") then lit "*" else strip_peer_prefix (trim s)).
  case_bool_decide as E0; [now rewrite E0|].
  unfold jeqb. case_bool_decide as E1; [now rewrite E1 | reflexivity].
Qed.

(** X13.  The target formatTarget makes for an identifier normalizes back
    to that identifier, up to white space at its end. *)
Theorem normalizeTarget_formatTarget (id : jstring) :
  normalizeTarget (formatTarget id) = trimEnd id.
Proof.
  unfold normalizeTarget, formatTarget. change (lit "qq:") with [113; 113; 58].
  cbn [app]. rewrite trim_cons by reflexivity. rewrite !trimEnd_cons by reflexivity.
  reflexivity.
Qed.

(** X14.  On strings normalizeAllowEntry and normalizeTarget are the same
    function (the cases of the empty entry and of the wildcard change
    nothing), and both ignore the white space around their argument. *)
Theorem normalizeAllowEntry_normalizeTarget (s : jstring) :
  normalizeAllowEntry (JStr s) = normalizeTarget s
  /\ normalizeAllowEntry (JStr (trim s)) = normalizeAllowEntry (JStr s)
  /\ normalizeTarget (trim s) = normalizeTarget s.
Proof.
  rewrite !normalizeAllowEntry_JStr. unfold normalizeTarget. now rewrite trim_idem.
Qed.

Lemma NoDup_set_from (seen l : list jstring) : NoDup seen -> NoDup (set_from seen l).
Proof.
  revert seen. induction l as [|x l IH]; intros seen Hs; cbn [set_from]; [exact Hs|].
  case_bool_decide as Hx; [now apply IH|].
  apply IH. apply NoDup_app. split; [exact Hs|]. split.
  - intros y Hy Hy'. apply list_elem_of_singleton in Hy'. now subst.
  - apply NoDup_singleton.
Qed.

Lemma set_from_NoDup (seen l : list jstring) :
  NoDup (seen ++ l) -> set_from seen l = seen ++ l.
Proof.
  revert seen. induction l as [|x l IH]; intros seen Hnd; cbn [set_from].
  - now rewrite app_nil_r.
  - rewrite bool_decide_eq_false_2.
    + rewrite IH; [now rewrite <- app_assoc|]. now rewrite <- app_assoc.
    + apply NoDup_app in Hnd as (_ & Hd & _). intros Hx. apply (Hd x Hx). left.
Qed.

(** X15.  A normalized allow-list has no duplicates and no empty entry,
    and so has the effective allow-list of configured and stored entries;
    with an empty store the effective list is the normalized configured
    list. *)
Theorem normalizeAllowList_set (entries stored : list json) :
  NoDup (normalizeAllowList entries)
  /\ ([] ∉ normalizeAllowList entries)
  /\ NoDup (effectiveAllowFrom entries stored)
  /\ ([] ∉ effectiveAllowFrom entries stored)
  /\ effectiveAllowFrom entries [] = normalizeAllowList entries.
Proof.
  assert (N1 : forall l, NoDup (normalizeAllowList l)).
  { intros l. apply NoDup_set_from, NoDup_nil_2. }
  split; [apply N1|].
  split; [rewrite elem_of_normalizeAllowList; tauto|].
  split; [apply NoDup_set_from, NoDup_nil_2|].
  split; [rewrite elem_of_effectiveAllowFrom; tauto|].
  unfold effectiveAllowFrom. change (normalizeAllowList []) with (@nil jstring).
  rewrite app_nil_r. apply (set_from_NoDup [] _). apply N1.
Qed.

Lemma normalizeAllowEntry_String (entry : json) :
  entry <> JNull ->
  normalizeAllowEntry entry = normalizeAllowEntry (JStr (trim (String_ entry))).
Proof.
  intros Hn. rewrite normalizeAllowEntry_JStr, trim_idem, <- normalizeAllowEntry_JStr.
  destruct entry; try reflexivity. now contradiction Hn.
Qed.

Lemma normalizeAllowEntry_blank (entry : json) :
  trim (String_ entry) = [] -> normalizeAllowEntry entry = [].
Proof.
  intros E. unfold normalizeAllowEntry.
  destruct entry; cbn [nullish from_option id] in *; try (rewrite E; reflexivity).
  reflexivity.
Qed.

(** X16.  For entries that are strings or numbers, the allow-list the
    access check uses is what formatAllowFrom shows, without its empty
    entries and duplicates. *)
Theorem formatAllowFrom_normalizeAllowList (allowFrom : list json) :
  Forall (fun entry => entry <> JNull) allowFrom ->
  normalizeAllowList allowFrom
  = set_from [] (filter (fun s : jstring => s ≠ []) (formatAllowFrom allowFrom)).
Proof.
  intros Hn. unfold normalizeAllowList, formatAllowFrom. f_equal.
  induction Hn as [|entry l He Hl IH]; [reflexivity|].
  rewrite !fmap_cons.
  destruct (decide (trim (String_ entry) = [])) as [E|E].
  - rewrite (filter_cons_False _ (trim (String_ entry))) by tauto.
    rewrite (normalizeAllowEntry_blank _ E).
    rewrite filter_cons_False by tauto. exact IH.
  - rewrite (filter_cons_True _ (trim (String_ entry))) by exact E.
    rewrite fmap_cons, <- (normalizeAllowEntry_String _ He).
    destruct (decide (normalizeAllowEntry entry = [])) as [E'|E'].
    + rewrite !filter_cons_False by tauto. exact IH.
    + rewrite !filter_cons_True by exact E'. now rewrite IH.
Qed.

Lemma digit_not_prefix (c : N) (r p : jstring) (a : N) :
  is_digit c = true -> is_ascii_letter a = true -> matches_ci (a :: p) (c :: r) = None.
Proof.
  unfold is_digit, is_ascii_letter, fold_case. intros Hc Ha. cbn [matches_ci].
  unfold fold_case.
  destruct (65 <=? a) eqn:A1, (a <=? 90) eqn:A2, (97 <=? a) eqn:A3, (a <=? 122) eqn:A4,
    (48 <=? c) eqn:C1, (c <=? 57) eqn:C2, (65 <=? c) eqn:C3; try discriminate; cbn [andb];
    match goal with |- (if ?x =? ?y then _ else _) = _ => destruct (N.eqb_spec x y) as [E|E] end;
    try reflexivity; exfalso;
    rewrite ?N.leb_le, ?N.leb_gt in *; lia.
Qed.

(** X17.  An input that looksLikeId accepts (digits, possibly surrounded
    by white space) is its own normalized target and its own normalized
    allow-list entry, once trimmed, and is never taken for a media
    reference. *)
Theorem looksLikeId_normalized (input : jstring) :
  looksLikeId input = true ->
  normalizeTarget input = trim input
  /\ normalizeAllowEntry (JStr input) = trim input
  /\ isLikelyMediaRef input = false.
Proof.
  unfold looksLikeId. intros H.
  rewrite normalizeAllowEntry_JStr.
  unfold normalizeTarget, isLikelyMediaRef.
  destruct (trim input) as [|c r]; [discriminate|].
  cbn [forallb] in H. apply andb_true_iff in H as [Hc _].
  assert (S : strip_peer_prefix (c :: r) = c :: r).
  { unfold strip_peer_prefix.
    change (lit "qq:") with (113 :: lit "q:"). change (lit "user:") with (117 :: lit "ser:").
    now rewrite !digit_not_prefix. }
  split; [exact S|]. split; [exact S|].
  rewrite bool_decide_eq_false_2 by discriminate.
  unfold re_media_scheme.
  change (lit "http") with (104 :: lit "ttp"). change (lit "file:") with (102 :: lit "ile:").
  change (lit "base64:") with (98 :: lit "ase64:").
  rewrite !digit_not_prefix by (exact Hc || reflexivity).
  change (bool_decide (is_Some (@None jstring))) with false. cbn [orb].
  unfold is_digit in Hc. apply andb_true_iff in Hc as [C1 C2].
  apply N.leb_le in C1, C2.
  change (lit "/") with [47]. cbn [startsWith].
  destruct (N.eqb_spec 47 c) as [E|E]; [lia|]. cbn [andb].
  unfold re_drive_path, is_ascii_letter.
  destruct r as [|c2 [|c3 r]]; try reflexivity.
  destruct (N.leb_spec 65 c); [lia|]. destruct (N.leb_spec 97 c); [lia|]. reflexivity.
Qed.

(** *** The theorems at concrete inputs *)

Lemma formatAllowFrom_normalizeAllowList_witness :
  Forall (fun entry => entry <> JNull) [JStr (lit " qq:123 "); JNum (lit "456"); JStr (lit "123")]
  /\ normalizeAllowList [JStr (lit " qq:123 "); JNum (lit "456"); JStr (lit "123")]
     = set_from []
         (filter (fun s : jstring => s ≠ [])
            (formatAllowFrom [JStr (lit " qq:123 "); JNum (lit "456"); JStr (lit "123")])).
Proof.
  assert (Hn : Forall (fun entry => entry <> JNull)
                 [JStr (lit " qq:123 "); JNum (lit "456"); JStr (lit "123")])
    by (repeat constructor; discriminate).
  split; [exact Hn|].
  exact (formatAllowFrom_normalizeAllowList
           [JStr (lit " qq:123 "); JNum (lit "456"); JStr (lit "123")] Hn).
Defined.

Lemma looksLikeId_normalized_witness :
  looksLikeId (lit " 10001 ") = true
  /\ normalizeTarget (lit " 10001 ") = lit "10001".
Proof.
  assert (Hl : looksLikeId (lit " 10001 ") = true) by (vm_compute; reflexivity).
  split; [exact Hl|].
  pose proof (proj1 (looksLikeId_normalized (lit " 10001 ") Hl)) as P.
  vm_compute in P. vm_compute. exact P.
Defined.

End TargetFacts.

(** ** What the inbound pipeline does, and for whom *)
Module TraceFacts.
Import Js Codec Access Pipeline Trace JsFacts AccessFacts PipelineFacts.

Section Appends.
Context {A B : Type}.
Variable P : effect -> Prop.

Lemma appends_ret (a : A) : appends P (ret a).
Proof. intros t. exists []. now rewrite app_nil_r. Qed.

Lemma appends_throw (err : jstring) : appends P (@throw A err).
Proof. intros t. exists []. now rewrite app_nil_r. Qed.

Lemma appends_emit (e : effect) : P e -> appends P (emit e).
Proof. intros He t. exists [e]. split; [reflexivity | now constructor]. Qed.

Lemma appends_bind (m : M A) (k : A -> M B) :
  appends P m -> (forall a, appends P (k a)) -> appends P (bind m k).
Proof.
  intros Hm Hk t. unfold bind. destruct (Hm t) as (es & E & F).
  destruct (m t) as [[a|e] t1]; cbn [snd] in E; subst t1.
  - destruct (Hk a (t ++ es)) as (es' & E' & F'). exists (es ++ es').
    rewrite E', app_assoc. split; [reflexivity | now apply Forall_app].
  - exists es. now split.
Qed.

Lemma appends_catch (m : M A) (h : jstring -> M A) :
  appends P m -> (forall e, appends P (h e)) -> appends P (catch m h).
Proof.
  intros Hm Hh t. unfold catch. destruct (Hm t) as (es & E & F).
  destruct (m t) as [[a|e] t1]; cbn [snd] in E; subst t1.
  - exists es. now split.
  - destruct (Hh e (t ++ es)) as (es' & E' & F'). exists (es ++ es').
    rewrite E', app_assoc. split; [reflexivity | now apply Forall_app].
Qed.

End Appends.

Lemma appends_history {B} (P : effect -> Prop) (k : list effect -> M B) :
  (forall t, appends P (k t)) -> appends P (bind history k).
Proof. intros Hk t. unfold bind, history. apply Hk. Qed.

Lemma appends_for_each {A} (P : effect -> Prop) (l : list A) (body : A -> M unit) :
  (forall x, appends P (body x)) -> appends P (for_each l body).
Proof.
  intros Hb. induction l as [|x l IH]; cbn [for_each].
  - apply appends_ret.
  - apply appends_bind; auto.
Qed.

Lemma appends_weaken {A} (P Q : effect -> Prop) (m : M A) :
  (forall e, P e -> Q e) -> appends P m -> appends Q m.
Proof.
  intros HPQ Hm t. destruct (Hm t) as (es & E & F). exists es. split; [exact E|].
  eapply Forall_impl; eauto.
Qed.

Section Peer.
Variable H : Host.

Lemma resolveMessageId_appends (P : effect -> Prop) (response : json) :
  appends P (resolveMessageId H response).
Proof.
  intros t. destruct (resolveMessageId_pure H response t) as [id ->].
  exists []. now rewrite app_nil_r.
Qed.

Lemma send_private_msg_appends (accountId : option jstring) (to userId : jstring)
    (message : list json) :
  parseInt10 H (normalizeTarget to) = Some userId ->
  appends (reply_effect H to) (send_private_msg H accountId userId message).
Proof.
  intros Hu. unfold send_private_msg, sendOneBotAction.
  apply appends_bind.
  - apply appends_history. intros t. apply appends_bind.
    + apply appends_emit. cbn. split; [reflexivity|]. eauto.
    + intros _. destruct (gateway H t _ _); [apply appends_ret | apply appends_throw].
  - intros response. destruct response; [apply appends_throw|..];
      (destruct (is_str _ _); [apply appends_throw|];
       apply appends_bind; [apply resolveMessageId_appends|]; intros id; apply appends_ret).
Qed.

Lemma sendNapcatText_eq (accountId : option jstring) (to text : jstring) :
  sendNapcatText H accountId to text
  = match parseInt10 H (normalizeTarget to) with
    | Some userId => send_private_msg H accountId userId [buildTextSegment text]
    | None => throw (Error (lit "Invalid QQ target: " ++ to))
    end.
Proof.
  unfold sendNapcatText, parseUserId.
  destruct (parseInt10 H (normalizeTarget to)); reflexivity.
Qed.

Lemma sendNapcatText_appends (accountId : option jstring) (to text : jstring) :
  appends (reply_effect H to) (sendNapcatText H accountId to text).
Proof.
  rewrite sendNapcatText_eq.
  destruct (parseInt10 H (normalizeTarget to)) as [userId|] eqn:Hu.
  - now apply send_private_msg_appends.
  - apply appends_throw.
Qed.

Lemma sendNapcatMedia_appends (accountId : option jstring) (to text mediaUrl : jstring) :
  appends (reply_effect H to) (sendNapcatMedia H accountId to text mediaUrl).
Proof.
  unfold sendNapcatMedia. apply appends_bind.
  - intros t. rewrite resolveMediaSegmentType_eq.
    destruct (matches_ci _ _); [exists []; now rewrite app_nil_r|].
    exists [EDetectMime mediaUrl]. split; [reflexivity|]. now repeat constructor.
  - intros [mediaType|]; [|apply sendNapcatText_appends].
    unfold parseUserId.
    destruct (parseInt10 H (normalizeTarget to)) as [userId|] eqn:Hu.
    + change (appends (reply_effect H to)
                (send_private_msg H accountId userId
                   ((match text with [] => [] | _ => [buildTextSegment text] end)
                    ++ [buildMediaSegment mediaType mediaUrl]))).
      now apply send_private_msg_appends.
    + intros t. exists []. rewrite app_nil_r. split; [reflexivity | constructor].
Qed.

Section Replies.
Variable route_accountId : option jstring.
Variable to : jstring.
Variable textLimit : N.

Lemma sendTextChunks_appends (text : jstring) :
  appends (reply_effect H to) (sendTextChunks H route_accountId to textLimit text).
Proof.
  unfold sendTextChunks. apply appends_for_each. intros [|c chunk]; [apply appends_ret|].
  apply appends_bind; [apply sendNapcatText_appends|]. intros _. now apply appends_emit.
Qed.

Lemma media_loop_appends (caption : jstring) (first : bool) (mediaUrls : list jstring) :
  appends (reply_effect H to) (media_loop H route_accountId to caption first mediaUrls).
Proof.
  revert first. induction mediaUrls as [|u l IH]; intros first; cbn [media_loop].
  - apply appends_ret.
  - apply appends_bind; [apply sendNapcatMedia_appends|]. intros _.
    apply appends_bind; [now apply appends_emit|]. intros _. apply IH.
Qed.

Lemma deliver_appends (payload : replyPayload) :
  appends (reply_effect H to) (deliver H route_accountId to textLimit payload).
Proof.
  unfold deliver. destruct (payload_mediaUrls payload) as [|m ms];
    [apply sendTextChunks_appends|].
  destruct (negb _ && _).
  - apply appends_bind; [apply sendTextChunks_appends|]. intros _. apply media_loop_appends.
  - apply media_loop_appends.
Qed.

End Replies.

End Peer.

Section Inbound.
Variable H : Host.
Variable acct : account.
Variable senderId : jstring.

Lemma appends_reply {A} (m : M A) :
  appends (reply_effect H (formatTarget senderId)) m ->
  appends (inbound_effect H acct senderId) m.
Proof. apply appends_weaken. intros e. destruct e; cbn; tauto. Qed.

Lemma log_inbound_media_appends (rawMessage : jstring) (parsed : parsedMessage) :
  appends (inbound_effect H acct senderId) (log_inbound_media senderId rawMessage parsed).
Proof.
  unfold log_inbound_media. destruct (pm_mediaUrls parsed); [|now apply appends_emit].
  destruct (_ || _); [now apply appends_emit | apply appends_ret].
Qed.

Lemma dispatch_appends (combinedText commandText : jstring) (parsed : parsedMessage) :
  appends (inbound_effect H acct senderId)
    (dispatch H acct senderId combinedText commandText true parsed).
Proof.
  unfold dispatch.
  apply appends_bind; [now apply appends_emit|]. intros _.
  apply appends_bind; [now apply appends_emit|]. intros _.
  apply appends_bind; [now apply appends_emit|]. intros _.
  apply appends_bind; [|intros _; now apply appends_emit].
  apply appends_for_each. intros [kind payload].
  apply appends_catch; [apply appends_reply, deliver_appends|].
  intros err. now apply appends_emit.
Qed.

Lemma pairing_reply_appends (code : jstring) :
  appends (inbound_effect H acct senderId) (pairing_reply H acct senderId code).
Proof.
  unfold pairing_reply. apply appends_bind.
  - apply appends_reply, sendNapcatText_appends.
  - intros _. now apply appends_emit.
Qed.

Lemma access_gate_appends (senderName : jstring) (proceed : bool -> M unit) :
  appends (inbound_effect H acct senderId) (proceed true) ->
  appends (inbound_effect H acct senderId) (access_gate H acct senderId senderName proceed).
Proof.
  intros Hp t. rewrite access_gate_eq. cbv zeta.
  destruct (jeqb _ (lit "disabled")).
  { exists [EReadAllowFromStore]. split; [reflexivity | now repeat constructor]. }
  destruct (jeqb (default (lit "open") (dmPolicy acct)) (lit "open")) eqn:Eo; cbn [negb andb orb].
  { destruct (Hp (t ++ [EReadAllowFromStore])) as (es & -> & F).
    exists (EReadAllowFromStore :: es). rewrite <- app_assoc.
    split; [reflexivity | now constructor]. }
  destruct (isSenderAllowed senderId (effective_allow H acct t)); cbn [negb].
  { destruct (Hp (t ++ [EReadAllowFromStore])) as (es & -> & F).
    exists (EReadAllowFromStore :: es). rewrite <- app_assoc.
    split; [reflexivity | now constructor]. }
  destruct (jeqb _ (lit "pairing")) eqn:Ep.
  - assert (Hpol : dmPolicy acct = Some (lit "pairing")).
    { destruct (dmPolicy acct) as [p|]; [|discriminate Ep].
      cbn in Ep. unfold jeqb in Ep. apply bool_decide_eq_true in Ep. now subst. }
    destruct (snd (upsertPairingRequest H _ senderId)).
    + destruct (pairing_reply_appends (fst (upsertPairingRequest H (t ++ [EReadAllowFromStore])
                                                 senderId))
                  ((t ++ [EReadAllowFromStore])
                   ++ [EUpsertPairingRequest senderId senderName])) as (es & -> & F).
      exists (EReadAllowFromStore :: EUpsertPairingRequest senderId senderName :: es).
      rewrite <- !app_assoc. split; [reflexivity|].
      constructor; [exact I|]. constructor; [now split | exact F].
    + exists [EReadAllowFromStore; EUpsertPairingRequest senderId senderName].
      rewrite <- app_assoc. split; [reflexivity|].
      constructor; [exact I|]. constructor; [now split | constructor].
  - exists [EReadAllowFromStore]. split; [reflexivity | now repeat constructor].
Qed.

End Inbound.

(** X18.  handlePrivateMessage only extends the trace, and whatever it does
    concerns the sender of the event: every action it sends is a
    send_private_msg to the peer that formatTarget(senderId) names, every
    dispatch is for that sender with commandAuthorized set, and a pairing
    request is made for that sender and only under the pairing policy. *)
Theorem handlePrivateMessage_effects (H : Host) (acct : account) (event : json)
    (t : list effect) :
  exists es,
    snd (handlePrivateMessage H acct event t) = t ++ es
    /\ (es = []
        \/ exists senderId,
             id_string (prop "user_id" (Some event)) = Some senderId
             /\ Forall (inbound_effect H acct senderId) es).
Proof.
  unfold handlePrivateMessage.
  destruct (negb (jeqb _ (lit "message")));
    [exists []; split; [now rewrite app_nil_r | now left]|].
  destruct (negb (jeqb _ (lit "private")));
    [exists []; split; [now rewrite app_nil_r | now left]|].
  destruct (id_string (prop "user_id" (Some event))) as [senderId|];
    [|exists []; split; [now rewrite app_nil_r | now left]].
  match goal with |- context [if ?b then ret tt else _] => destruct b end;
    [exists []; split; [now rewrite app_nil_r | now left]|].
  match goal with |- exists es, snd (?m t) = _ /\ _ =>
    assert (Hm : appends (inbound_effect H acct senderId) m) end.
  { apply appends_bind; [apply log_inbound_media_appends|]. intros _.
    apply access_gate_appends. apply dispatch_appends. }
  destruct (Hm t) as (es & E & F). exists es. split; [exact E|]. right. eauto.
Qed.

(** X19.  An event is ignored without any effect when it is not a message,
    not a private one, carries no usable user_id, or comes from the bot
    itself (self_id equal to user_id). *)
Theorem handlePrivateMessage_ignores (H : Host) (acct : account) (event : json)
    (t : list effect) :
  as_string (prop "post_type" (Some event)) <> Some (lit "message")
  \/ as_string (prop "message_type" (Some event)) <> Some (lit "private")
  \/ id_string (prop "user_id" (Some event)) = None
  \/ id_string (prop "self_id" (Some event)) = id_string (prop "user_id" (Some event)) ->
  handlePrivateMessage H acct event t = (Ok tt, t).
Proof.
  intros Hi. unfold handlePrivateMessage.
  destruct (as_string (prop "post_type" (Some event))) as [pt|] eqn:Ept; cbn [from_option id];
    [|reflexivity].
  unfold jeqb at 1. case_bool_decide as E1; cbn [negb]; [|reflexivity]. subst pt.
  destruct (as_string (prop "message_type" (Some event))) as [mt|] eqn:Emt; cbn [from_option id];
    [|reflexivity].
  unfold jeqb at 1. case_bool_decide as E2; cbn [negb]; [|reflexivity]. subst mt.
  destruct (id_string (prop "user_id" (Some event))) as [senderId|] eqn:Eu; [|reflexivity].
  destruct Hi as [Hi|[Hi|[Hi|Hi]]]; try congruence.
  rewrite Hi. unfold jeqb. now rewrite bool_decide_eq_true_2.
Qed.

Lemma handlePrivateMessage_ignores_witness :
  (as_string (prop "post_type"
                (Some (Examples.private_message (JNum (lit "10000"))
                         [Examples.text_segment "hello"])))
   <> Some (lit "message")
   \/ as_string (prop "message_type"
                   (Some (Examples.private_message (JNum (lit "10000"))
                            [Examples.text_segment "hello"])))
      <> Some (lit "private")
   \/ id_string (prop "user_id"
                   (Some (Examples.private_message (JNum (lit "10000"))
                            [Examples.text_segment "hello"]))) = None
   \/ id_string (prop "self_id"
                   (Some (Examples.private_message (JNum (lit "10000"))
                            [Examples.text_segment "hello"])))
      = id_string (prop "user_id"
                     (Some (Examples.private_message (JNum (lit "10000"))
                              [Examples.text_segment "hello"]))))
  /\ handlePrivateMessage Examples.host0 (Examples.account_with "open" [])
       (Examples.private_message (JNum (lit "10000")) [Examples.text_segment "hello"]) []
     = (Ok tt, []).
Proof.
  assert (Hi : as_string (prop "post_type"
                            (Some (Examples.private_message (JNum (lit "10000"))
                                     [Examples.text_segment "hello"])))
               <> Some (lit "message")
               \/ as_string (prop "message_type"
                               (Some (Examples.private_message (JNum (lit "10000"))
                                        [Examples.text_segment "hello"])))
                  <> Some (lit "private")
               \/ id_string (prop "user_id"
                               (Some (Examples.private_message (JNum (lit "10000"))
                                        [Examples.text_segment "hello"]))) = None
               \/ id_string (prop "self_id"
                               (Some (Examples.private_message (JNum (lit "10000"))
                                        [Examples.text_segment "hello"])))
                  = id_string (prop "user_id"
                                 (Some (Examples.private_message (JNum (lit "10000"))
                                          [Examples.text_segment "hello"]))))
    by (right; right; right; vm_compute; reflexivity).
  split; [exact Hi|].
  exact (handlePrivateMessage_ignores Examples.host0 (Examples.account_with "open" [])
           (Examples.private_message (JNum (lit "10000")) [Examples.text_segment "hello"]) []
           Hi).
Defined.

End TraceFacts.

(** ** Outbound sends in closed form *)
Module OutboundFacts.
Import Js Codec Access Pipeline JsFacts AccessFacts PipelineFacts SegmentFacts TraceFacts.

(** X20.  sendNapcatText in closed form.  A target that is not a QQ number
    throws "Invalid QQ target: <to>" and nothing is sent.  Otherwise one
    send_private_msg action with the single text segment is sent; the
    function throws what the gateway throws, throws the TypeError of
    reading status when the response is null, throws "Napcat send failed
    (retcode <n>)" when the response has status failed, and otherwise
    returns the parsed user id as chatId with the message id of the
    response, or the current time when the response has none. *)
Theorem sendNapcatText_outcome (H : Host) (accountId : option jstring) (to text : jstring)
    (t : list effect) :
  match parseInt10 H (normalizeTarget to) with
  | None =>
      sendNapcatText H accountId to text t
      = (Throw (lit "Error: Invalid QQ target: " ++ to), t)
  | Some userId =>
      let params :=
        JObj [(lit "user_id", JNum userId); (lit "message", JArr [buildTextSegment text])] in
      let t1 := t ++ [ESendAction accountId (lit "send_private_msg") params] in
      sendNapcatText H accountId to text t
      = match gateway H t (lit "send_private_msg") params with
        | Throw err => (Throw err, t1)
        | Ok JNull =>
            (Throw (lit "TypeError: Cannot read properties of null (reading 'status')"), t1)
        | Ok response =>
            if is_str (prop "status" (Some response)) "failed"
            then (Throw (lit "Error: Napcat send failed (retcode "
                         ++ match prop "retcode" (Some response) with
                            | Some v => String_ v
                            | None => lit "undefined"
                            end
                         ++ lit ")"), t1)
            else (Ok (mkSent
                        match id_string (prop "message_id" (prop "data" (Some response))) with
                        | Some id => id
                        | None => now H t1
                        end userId), t1)
        end
  end.
Proof.
  rewrite sendNapcatText_eq.
  destruct (parseInt10 H (normalizeTarget to)) as [userId|]; [|reflexivity].
  cbv zeta. unfold send_private_msg, sendOneBotAction, bind, history, emit, ret, throw.
  destruct (gateway H t _ _) as [response|err]; [|reflexivity].
  destruct response; [reflexivity|..];
    (destruct (is_str _ _); [reflexivity|];
     unfold resolveMessageId, id_string;
     destruct (prop "message_id" _) as [[]|]; reflexivity).
Qed.

Lemma send_private_msg_trace (H : Host) (accountId : option jstring) (userId : jstring)
    (message : list json) (t : list effect) :
  exists r,
    send_private_msg H accountId userId message t
    = (r, t ++ [ESendAction accountId (lit "send_private_msg")
                  (JObj [(lit "user_id", JNum userId); (lit "message", JArr message)])]).
Proof.
  unfold send_private_msg, sendOneBotAction, bind, history, emit, ret, throw.
  destruct (gateway H t _ _) as [resp|e]; [|eauto].
  destruct resp; [eauto|..];
    (destruct (is_str _ _); [eauto|];
     match goal with |- context [resolveMessageId H ?r ?t'] =>
       destruct (resolveMessageId_pure H r t') as [id ->] end;
     eauto).
Qed.

Lemma resolveMediaSegmentType_wire (H : Host) (mediaUrl mediaType : jstring)
    (t t' : list effect) :
  resolveMediaSegmentType H mediaUrl t = (Ok (Some mediaType), t') ->
  mediaType = lit "image" \/ mediaType = lit "record" \/ mediaType = lit "video".
Proof.
  rewrite resolveMediaSegmentType_eq. destruct (matches_ci _ _).
  - intros [= <- _]. now left.
  - unfold wire_segment_type. destruct (mediaKindFromMime H _) as [k|]; [|discriminate].
    repeat (destruct (jeqb k _)); intros [= <- _]; auto.
Qed.

(** X21.  A media send whose reference was classified sends one
    send_private_msg action whose message is the caption segment, when the
    caption is not empty, followed by the media segment of the wire type
    (image, record or video); the target is checked after the
    classification; and the message sent parses back to the caption, and
    to the reference only when the reference passes isLikelyMediaRef: a
    reference that was classified by its MIME type without being a URL or
    an absolute path parses back to the caption alone. *)
Theorem sendNapcatMedia_classified (H : Host) (accountId : option jstring)
    (to text mediaUrl mediaType : jstring) (t t' : list effect) :
  resolveMediaSegmentType H mediaUrl t = (Ok (Some mediaType), t') ->
  let message :=
    match text with [] => [] | _ => [buildTextSegment text] end
    ++ [buildMediaSegment mediaType mediaUrl] in
  (mediaType = lit "image" \/ mediaType = lit "record" \/ mediaType = lit "video")
  /\ match parseInt10 H (normalizeTarget to) with
     | None =>
         sendNapcatMedia H accountId to text mediaUrl t
         = (Throw (Error (lit "Invalid QQ target: " ++ to)), t')
     | Some userId =>
         sendNapcatMedia H accountId to text mediaUrl t
         = send_private_msg H accountId userId message t'
         /\ exists r,
              sendNapcatMedia H accountId to text mediaUrl t
              = (r, t' ++ [ESendAction accountId (lit "send_private_msg")
                             (JObj [(lit "user_id", JNum userId);
                                    (lit "message", JArr message)])])
     end
  /\ parseOneBotMessage (Some (JArr message))
     = if isLikelyMediaRef mediaUrl
       then mkParsed text [mediaUrl] [default [] (media_kind mediaType)]
       else mkParsed text [] [].
Proof.
  intros Hr message. pose proof (resolveMediaSegmentType_wire _ _ _ _ _ Hr) as Hw.
  split; [exact Hw|]. split.
  - assert (E : sendNapcatMedia H accountId to text mediaUrl t
                = (userId <- parseUserId H to ;; send_private_msg H accountId userId message) t').
    { unfold sendNapcatMedia. unfold bind at 1. now rewrite Hr. }
    rewrite E. unfold parseUserId.
    destruct (parseInt10 H (normalizeTarget to)) as [userId|]; [|reflexivity].
    split; [reflexivity|]. apply send_private_msg_trace.
  - subst message. unfold parseOneBotMessage.
    destruct text as [|c text']; cbn [fold_left app].
    + rewrite (media_segment_step _ _ _ Hw).
      destruct (isLikelyMediaRef mediaUrl); reflexivity.
    + change (segment_step (mkParts [] [] []) (buildTextSegment (c :: text')))
        with (mkParts [c :: text'] [] []).
      rewrite (media_segment_step _ _ _ Hw).
      destruct (isLikelyMediaRef mediaUrl); cbn; rewrite ?app_nil_r; reflexivity.
Qed.

Lemma set_from_uniform (k : jstring) (l : list jstring) :
  Forall (eq k) l -> set_from [k] l = [k].
Proof.
  induction 1 as [|x l <- _ IH]; [reflexivity|].
  cbn [set_from]. rewrite bool_decide_eq_true_2 by left. exact IH.
Qed.

(** X22.  The summary of the media kinds: "sent a <kind> attachment" for
    one item, "sent <n> <kind> attachments" for n items of one kind, and
    "sent media attachments" as soon as two kinds differ. *)
Theorem describeMediaSummary_cases (mediaTypes : list jstring) :
  (forall k,
     mediaTypes <> [] -> Forall (eq k) mediaTypes ->
     describeMediaSummary mediaTypes
     = if bool_decide (length mediaTypes = 1%nat)
       then lit "sent a " ++ k ++ lit " attachment"
       else lit "sent " ++ String_N (N.of_nat (length mediaTypes)) ++ lit " " ++ k
            ++ lit " attachments")
  /\ (forall k1 k2,
        k1 ∈ mediaTypes -> k2 ∈ mediaTypes -> k1 <> k2 ->
        describeMediaSummary mediaTypes = lit "sent media attachments").
Proof.
  split.
  - intros k Hne Hall. destruct mediaTypes as [|x l]; [now contradiction Hne|].
    apply Forall_cons in Hall as [<- Hall].
    unfold describeMediaSummary.
    change (set_from [] (k :: l)) with (set_from [k] l). rewrite (set_from_uniform k l Hall).
    destruct l as [|y l]; [reflexivity|].
    rewrite bool_decide_eq_false_2 by discriminate.
    destruct (N.eqb_spec (N.of_nat (length (k :: y :: l))) 1) as [E|E]; [|reflexivity].
    cbn [length] in E. lia.
  - intros k1 k2 H1 H2 Hne. unfold describeMediaSummary.
    destruct mediaTypes as [|x l]; [now apply elem_of_nil in H1|].
    destruct (set_from [] (x :: l)) as [|y [|z r]] eqn:E; try reflexivity.
    exfalso. apply Hne.
    assert (Hin : forall k, k ∈ x :: l -> k = y).
    { intros k Hk. apply list_elem_of_singleton. rewrite <- E.
      apply elem_of_set_from. now right. }
    now rewrite (Hin k1 H1), (Hin k2 H2).
Qed.

Lemma sendNapcatMedia_classified_witness :
  resolveMediaSegmentType Examples.host0 (lit "base64://iVBORw0KGgo=") []
  = (Ok (Some (lit "image")), [])
  /\ snd (sendNapcatMedia Examples.host0 None (lit "qq:456") (lit "look")
            (lit "base64://iVBORw0KGgo=") [])
     = [ESendAction None (lit "send_private_msg")
          (JObj [(lit "user_id", JNum (lit "456"));
                 (lit "message",
                  JArr [buildTextSegment (lit "look");
                        buildMediaSegment (lit "image") (lit "base64://iVBORw0KGgo=")])])].
Proof.
  assert (Hr : resolveMediaSegmentType Examples.host0 (lit "base64://iVBORw0KGgo=") []
               = (Ok (Some (lit "image")), [])) by (vm_compute; reflexivity).
  assert (Hu : parseInt10 Examples.host0 (normalizeTarget (lit "qq:456")) = Some (lit "456"))
    by (vm_compute; reflexivity).
  split; [exact Hr|].
  pose proof (sendNapcatMedia_classified Examples.host0 None (lit "qq:456") (lit "look")
                (lit "base64://iVBORw0KGgo=") (lit "image") [] [] Hr) as P.
  cbv zeta in P. destruct P as (_ & P & _). rewrite Hu in P.
  destruct P as [_ [r P]]. apply (f_equal snd) in P. exact P.
Defined.

End OutboundFacts.

(** ** Accounts *)
Module AccountsFacts.
Import Js Accounts TrimFacts.

Lemma spread_no_config (baseConfig : NapcatAccountConfig) :
  spread baseConfig no_config = baseConfig.
Proof. now destruct baseConfig. Qed.

Lemma trimmed_Some (v : option jstring) (u : jstring) :
  trimmed v = Some u <-> exists s, v = Some s /\ u = trim s /\ trim s <> [].
Proof.
  unfold trimmed. destruct v as [s|].
  - destruct (trim s) as [|c r] eqn:E.
    + split; [discriminate|]. intros (s' & [= <-] & _ & Hne). now rewrite E in Hne.
    + split.
      * intros [= <-]. exists s. now rewrite E.
      * intros (s' & [= <-] & -> & _). now rewrite E.
  - split; [discriminate|]. now intros (s & [=] & _).
Qed.

Section Sdk.
Variable DEFAULT_ACCOUNT_ID : jstring.
Variable normalizeAccountId : jstring -> jstring.

(** X23.  The default account id is the SDK's default id when no account
    is listed or when that id is listed, and is otherwise the first of the
    listed ids, which is the normalized key of the first account section;
    in particular it is a listed id whenever one exists. *)
Theorem resolveDefaultNapcatAccountId_listed (napcatCfg : option NapcatConfig) :
  (listNapcatAccountIds DEFAULT_ACCOUNT_ID normalizeAccountId napcatCfg = [] ->
   resolveDefaultNapcatAccountId DEFAULT_ACCOUNT_ID normalizeAccountId napcatCfg
   = DEFAULT_ACCOUNT_ID)
  /\ (listNapcatAccountIds DEFAULT_ACCOUNT_ID normalizeAccountId napcatCfg <> [] ->
      resolveDefaultNapcatAccountId DEFAULT_ACCOUNT_ID normalizeAccountId napcatCfg
      ∈ listNapcatAccountIds DEFAULT_ACCOUNT_ID normalizeAccountId napcatCfg)
  /\ (DEFAULT_ACCOUNT_ID ∈ listNapcatAccountIds DEFAULT_ACCOUNT_ID normalizeAccountId napcatCfg ->
      resolveDefaultNapcatAccountId DEFAULT_ACCOUNT_ID normalizeAccountId napcatCfg
      = DEFAULT_ACCOUNT_ID)
  /\ (forall first others,
        listNapcatAccountIds DEFAULT_ACCOUNT_ID normalizeAccountId napcatCfg = first :: others ->
        DEFAULT_ACCOUNT_ID ∉ first :: others ->
        resolveDefaultNapcatAccountId DEFAULT_ACCOUNT_ID normalizeAccountId napcatCfg = first)
  /\ (forall c key entry entries,
        napcatCfg = Some c ->
        accounts c = Some ((key, entry) :: entries) ->
        DEFAULT_ACCOUNT_ID ∉ listNapcatAccountIds DEFAULT_ACCOUNT_ID normalizeAccountId napcatCfg ->
        resolveDefaultNapcatAccountId DEFAULT_ACCOUNT_ID normalizeAccountId napcatCfg
        = normalizeAccountId key).
Proof.
  assert (Hfirst : forall first others,
             listNapcatAccountIds DEFAULT_ACCOUNT_ID normalizeAccountId napcatCfg
             = first :: others ->
             DEFAULT_ACCOUNT_ID ∉ first :: others ->
             resolveDefaultNapcatAccountId DEFAULT_ACCOUNT_ID normalizeAccountId napcatCfg
             = first).
  { intros first others E Hn. unfold resolveDefaultNapcatAccountId. rewrite E.
    now rewrite bool_decide_eq_false_2 by exact Hn. }
  split; [|split; [|split; [|split]]].
  - intros E. unfold resolveDefaultNapcatAccountId. now rewrite E.
  - intros Hne. unfold resolveDefaultNapcatAccountId.
    destruct (listNapcatAccountIds _ _ napcatCfg) as [|x l]; [congruence|].
    case_bool_decide as E; [exact E | left].
  - intros Hin. unfold resolveDefaultNapcatAccountId. now rewrite bool_decide_eq_true_2.
  - exact Hfirst.
  - intros c key entry entries -> Ha Hn.
    assert (E : listNapcatAccountIds DEFAULT_ACCOUNT_ID normalizeAccountId (Some c)
                = normalizeAccountId key :: (normalizeAccountId <$> (fst <$> entries))).
    { unfold listNapcatAccountIds. cbn. rewrite Ha. reflexivity. }
    apply (Hfirst _ _ E). now rewrite <- E.
Qed.

(** X24.  A resolved account is configured exactly when the wsUrl of its
    merged configuration is not blank, which is when the resolved wsUrl is
    present; it is disabled exactly when the merged configuration says
    enabled: false; and the resolved wsUrl, httpUrl, accessToken and name,
    when present, are trimmed and not empty. *)
Theorem resolveNapcatAccount_fields (napcatCfg : option NapcatConfig)
    (accountId : option jstring) :
  let r := resolveNapcatAccount DEFAULT_ACCOUNT_ID normalizeAccountId napcatCfg accountId in
  (res_configured r = true <-> exists s, cfg_wsUrl (res_config r) = Some s /\ trim s <> [])
  /\ (res_configured r = true <-> is_Some (res_wsUrl r))
  /\ (res_enabled r = false <-> cfg_enabled (res_config r) = Some false)
  /\ (forall u,
        res_wsUrl r = Some u \/ res_httpUrl r = Some u \/ res_accessToken r = Some u
        \/ res_name r = Some u ->
        u <> [] /\ trim u = u).
Proof.
  intros r.
  assert (Hc : res_configured r = true <-> is_Some (res_wsUrl r)).
  { subst r. cbn. destruct (trimmed _) as [[|c u]|] eqn:E; cbn.
    - apply trimmed_Some in E as (s & _ & E1 & E2). now rewrite <- E1 in E2.
    - split; eauto.
    - split; [discriminate | intros [x Hx]; discriminate Hx]. }
  split; [|split; [exact Hc|split]].
  - rewrite Hc. subst r. cbn. split.
    + intros [u Hu]. apply trimmed_Some in Hu as (s & Hs & _ & Hne). eauto.
    + intros (s & Hs & Hne). exists (trim s). apply trimmed_Some. eauto.
  - subst r. cbn. case_bool_decide as E; cbn; split; intros; try discriminate; auto; contradiction.
  - intros u Hu. subst r. cbn in Hu.
    assert (Ht : exists v, trimmed v = Some u) by (destruct Hu as [?|[?|[?|?]]]; eauto).
    destruct Ht as (v & Ht). apply trimmed_Some in Ht as (s & _ & -> & Hne).
    split; [exact Hne | apply trim_idem].
Qed.

(** X25.  An account section is listed under the normalized form of its
    key but is looked up under the key itself: when the accounts record
    has no entry under the normalized id, resolving that listed id gives
    the top-level configuration, whatever the section says. *)
Theorem account_entry_needs_normal_key (c : NapcatConfig)
    (entries : list (jstring * option NapcatAccountConfig)) (key : jstring)
    (entry : option NapcatAccountConfig) :
  accounts c = Some entries ->
  (key, entry) ∈ entries ->
  assoc (normalizeAccountId (normalizeAccountId key)) entries = None ->
  normalizeAccountId key ∈ listNapcatAccountIds DEFAULT_ACCOUNT_ID normalizeAccountId (Some c)
  /\ res_config (resolveNapcatAccount DEFAULT_ACCOUNT_ID normalizeAccountId (Some c)
                   (Some (normalizeAccountId key)))
     = top c.
Proof.
  intros Ha Hin Hn. split.
  - unfold listNapcatAccountIds. cbn. rewrite Ha. cbn [default from_option id].
    destruct entries as [|e entries]; [now apply elem_of_nil in Hin|].
    rewrite fmap_cons. cbn [fst]. rewrite <- fmap_cons.
    apply list_elem_of_fmap_2. now apply (list_elem_of_fmap_2 fst) in Hin.
  - unfold resolveNapcatAccount. cbn. rewrite Ha. cbn. rewrite Hn. cbn.
    apply spread_no_config.
Qed.

(** X26.  Without account sections every account id resolves to the
    top-level configuration; the default account is listed exactly when a
    top-level wsUrl or httpUrl is set, and it is the default account
    id. *)
Theorem top_level_account (c : NapcatConfig) (accountId : option jstring) :
  accounts c = None \/ accounts c = Some [] ->
  res_config (resolveNapcatAccount DEFAULT_ACCOUNT_ID normalizeAccountId (Some c) accountId)
  = top c
  /\ listNapcatAccountIds DEFAULT_ACCOUNT_ID normalizeAccountId (Some c)
     = (if nonempty (cfg_wsUrl (top c)) || nonempty (cfg_httpUrl (top c))
        then [DEFAULT_ACCOUNT_ID] else [])
  /\ resolveDefaultNapcatAccountId DEFAULT_ACCOUNT_ID normalizeAccountId (Some c)
     = DEFAULT_ACCOUNT_ID.
Proof.
  intros Ha.
  assert (E : listNapcatAccountIds DEFAULT_ACCOUNT_ID normalizeAccountId (Some c)
              = (if nonempty (cfg_wsUrl (top c)) || nonempty (cfg_httpUrl (top c))
                 then [DEFAULT_ACCOUNT_ID] else [])).
  { unfold listNapcatAccountIds. cbn. destruct Ha as [-> | ->]; reflexivity. }
  split; [|split; [exact E|]].
  - unfold resolveNapcatAccount. cbn. destruct Ha as [-> | ->]; cbn; apply spread_no_config.
  - unfold resolveDefaultNapcatAccountId. rewrite E.
    destruct (_ || _); [|reflexivity]. now rewrite bool_decide_eq_true_2 by left.
Qed.

End Sdk.

(** *** The theorems at concrete inputs *)

Lemma account_entry_needs_normal_key_witness :
  accounts Examples.work_account
  = Some [(lit "Work",
           Some (mkAccountConfig None None (Some (lit "ws://10.0.0.2:6700")) None None None None
                   None None None))]
  /\ cfg_wsUrl (res_config (resolveNapcatAccount (lit "default") Examples.lower_id
                              (Some Examples.work_account) (Some (lit "work"))))
     = Some (lit "ws://127.0.0.1:6700").
Proof.
  assert (Ha : accounts Examples.work_account
               = Some [(lit "Work",
                        Some (mkAccountConfig None None (Some (lit "ws://10.0.0.2:6700")) None
                                None None None None None None))]) by reflexivity.
  split; [exact Ha|].
  assert (Hin : (lit "Work",
                 Some (mkAccountConfig None None (Some (lit "ws://10.0.0.2:6700")) None None None
                         None None None None))
                ∈ [(lit "Work",
                    Some (mkAccountConfig None None (Some (lit "ws://10.0.0.2:6700")) None None
                            None None None None None))]) by left.
  assert (Hn : assoc (Examples.lower_id (Examples.lower_id (lit "Work")))
                 [(lit "Work",
                   Some (mkAccountConfig None None (Some (lit "ws://10.0.0.2:6700")) None None
                           None None None None None))] = None) by (vm_compute; reflexivity).
  pose proof (proj2 (account_entry_needs_normal_key (lit "default") Examples.lower_id
                       Examples.work_account _ (lit "Work") _ Ha Hin Hn)) as P.
  apply (f_equal cfg_wsUrl) in P. vm_compute in P. vm_compute. exact P.
Defined.

Lemma top_level_account_witness :
  (accounts Examples.single_account = None \/ accounts Examples.single_account = Some [])
  /\ listNapcatAccountIds (lit "default") Examples.lower_id (Some Examples.single_account)
     = [lit "default"].
Proof.
  assert (Ha : accounts Examples.single_account = None
               \/ accounts Examples.single_account = Some []) by (left; reflexivity).
  split; [exact Ha|].
  pose proof (proj1 (proj2 (top_level_account (lit "default") Examples.lower_id
                              Examples.single_account None Ha))) as P.
  vm_compute in P. vm_compute. exact P.
Defined.

End AccountsFacts.
